(** * Tracking-and-metrics core of the soccer analysis system

    A shallow embedding of
      - [python/trackers/hybrid_tracker.py]   (Track, HybridTracker)
      - [python/soccer_analysis_core.py]      (HomographyTransform, XThreatGrid)
      - [python/soccer_analysis_processor.py] (PassDetector, velocity,
                                               pressing de-duplication)
    together with the properties the specification states about them.

    Numbers.  Python floats are read as exact numbers: reals where the code
    takes a square root, rationals elsewhere (so those parts evaluate).
    Where overflow and NaN are the question (the perspective divide of
    [HomographyTransform.transform]) they are IEEE binary64 numbers.
    Python integers are [Z]; list positions are [nat].  An exception that
    escapes a function is [None]. *)

From Stdlib Require Import QArith Qminmax Qround Qabs Lqa.
From Stdlib Require Import Reals Lra ZArith Lia List Bool.
From Stdlib Require Import Sorted Permutation.
From Stdlib Require Ascii String.
From Stdlib Require PrimFloat.
Import ListNotations.

Close Scope Q_scope.
Close Scope R_scope.
Close Scope Z_scope.

(** Error-propagating sequencing for code that can raise. *)
Definition obind {A B : Type} (o : option A) (k : A -> option B) : option B :=
  match o with
  | Some a => k a
  | None => None
  end.

(** Boolean readings of the real comparisons used by the code. *)
Definition Rltb (a b : R) : bool := if Rlt_dec a b then true else false.
Definition Rleb (a b : R) : bool := if Rle_dec a b then true else false.
Definition Reqb (a b : R) : bool := if Req_dec_T a b then true else false.

(** [a < b] on rationals. *)
Definition Qltb (a b : Q) : bool := negb (Qle_bool b a).

(** [list.remove(v)] guarded by [v in list]: drops the first occurrence. *)
Fixpoint remove_first (v : nat) (l : list nat) : list nat :=
  match l with
  | [] => []
  | a :: l' => if Nat.eqb a v then l' else a :: remove_first v l'
  end.

(** [m[r, c]] on a matrix stored as a list of rows. *)
Definition mat_get (m : list (list R)) (r c : nat) : option R :=
  obind (nth_error m r) (fun row => nth_error row c).

(* ================================================================== *)
(** * hybrid_tracker.py : class Track *)

Module Track.

(** A box [x1, y1, x2, y2]. *)
Definition Box : Type := (R * R * R * R)%type.
Definition b0 (b : Box) : R := fst (fst (fst b)).
Definition b1 (b : Box) : R := snd (fst (fst b)).
Definition b2 (b : Box) : R := snd (fst b).
Definition b3 (b : Box) : R := snd b.

(** The 7-dimensional state [kf.x]:
    centre x, centre y, scale, ratio and the three velocities. *)
Record kstate : Type := mk_kstate {
  x0 : R; x1 : R; x2 : R; x3 : R; x4 : R; x5 : R; x6 : R
}.

Inductive lifecycle : Type := active | lost.

Section WithFilter.

(** The embedding vector type of the ReID model. *)
Variable Feature : Type.
(** The matrices filterpy keeps beside [x] (F, H, R, P, Q, ...). *)
Variable Cov : Type.
(** The filter as configured by lines 25-41 of [__init__]. *)
Variable kf_fresh : Cov.
(** [KalmanFilter.predict] and [KalmanFilter.update] of filterpy. *)
Variable kf_predict : kstate * Cov -> kstate * Cov.
Variable kf_update : kstate * Cov -> R * R * R * R -> kstate * Cov.

Record track : Type := mk_track {
  track_id : Z;
  box : Box;
  score : R;
  features : list Feature;
  max_features : nat;
  hits : Z;
  age : Z;
  time_since_update : Z;
  state : lifecycle;
  kf : kstate * Cov
}.

Definition set_kf (t : track) (k : kstate * Cov) : track :=
  mk_track (track_id t) (box t) (score t) (features t) (max_features t)
           (hits t) (age t) (time_since_update t) (state t) k.

(** Centre/scale/ratio form of a box (lines 48-53 and 72-77). *)
Definition to_xysr (bx : Box) : R * R * R * R :=
  let w := (b2 bx - b0 bx)%R in
  let h := (b3 bx - b1 bx)%R in
  let x := (b0 bx + w / 2)%R in
  let y := (b1 bx + h / 2)%R in
  let s := (w * h)%R in
  let r := (w / h)%R in
  (x, y, s, r).

(** [self.kf.x[:4] = [x, y, s, r]]. *)
Definition update_kf (t : track) (bx : Box) : track :=
  let '(x, y, s, r) := to_xysr bx in
  let k := fst (kf t) in
  set_kf t (mk_kstate x y s r (x4 k) (x5 k) (x6 k), snd (kf t)).

Definition get_box (t : track) : Box :=
  let k := fst (kf t) in
  let x := x0 k in
  let y := x1 k in
  let s := x2 k in
  let r := x3 k in
  let w := sqrt (s * r) in
  let h := (s / w)%R in
  ((x - w / 2)%R, (y - h / 2)%R, (x + w / 2)%R, (y + h / 2)%R).

(** [Track(track_id, box, score, feature)]; filterpy starts [x] at zero. *)
Definition init (tid : Z) (bx : Box) (sc : R) (feature : option Feature)
  : track :=
  update_kf
    (mk_track tid bx sc
              (match feature with Some f => [f] | None => [] end)
              100 1 1 0 active
              (mk_kstate 0 0 0 0 0 0 0, kf_fresh))
    bx.

(** [predict] : the new track and the returned box. *)
Definition predict (t : track) : track * Box :=
  let k := fst (kf t) in
  let k1 :=
    if Rleb (x6 k + x2 k) 0
    then mk_kstate (x0 k) (x1 k) (x2 k) (x3 k) (x4 k) (x5 k) (x6 k * 0)
    else k in
  let t' :=
    mk_track (track_id t) (box t) (score t) (features t) (max_features t)
             (hits t) (age t + 1) (time_since_update t + 1) (state t)
             (kf_predict (k1, snd (kf t))) in
  (t', get_box t').

(** The buffer step of [update]: append, then drop the head when the
    buffer has grown past [max_features]. *)
Definition push_feature (maxf : nat) (fs : list Feature)
           (feature : option Feature) : list Feature :=
  match feature with
  | None => fs
  | Some f =>
      let fs' := fs ++ [f] in
      if Nat.ltb maxf (length fs') then tl fs' else fs'
  end.

Definition update (t : track) (bx : Box) (sc : R)
           (feature : option Feature) : track :=
  mk_track (track_id t) bx sc
           (push_feature (max_features t) (features t) feature)
           (max_features t)
           (hits t + 1) (age t) 0 (state t)
           (kf_update (kf t) (to_xysr bx)).

(** The operations a caller can apply to a track after building it. *)
Inductive op : Type :=
| OpPredict
| OpUpdate (bx : Box) (sc : R) (feature : option Feature)
| OpUpdateKf (bx : Box).

Definition run_op (t : track) (o : op) : track :=
  match o with
  | OpPredict => fst (predict t)
  | OpUpdate bx sc f => update t bx sc f
  | OpUpdateKf bx => update_kf t bx
  end.

Definition run_ops (t : track) (os : list op) : track :=
  fold_left run_op os t.

(** What every operation keeps: the cap is 100 and the buffer is within it. *)
Definition buffer_ok (t : track) : Prop :=
  max_features t = 100%nat /\ (List.length (features t) <= 100)%nat.

End WithFilter.

Arguments track_id {Feature Cov} _.
Arguments box {Feature Cov} _.
Arguments score {Feature Cov} _.
Arguments features {Feature Cov} _.
Arguments max_features {Feature Cov} _.
Arguments hits {Feature Cov} _.
Arguments age {Feature Cov} _.
Arguments time_since_update {Feature Cov} _.
Arguments state {Feature Cov} _.
Arguments kf {Feature Cov} _.
Arguments get_box {Feature Cov} _.
Arguments update_kf {Feature Cov} _ _.
Arguments predict {Feature Cov} _ _.
Arguments update {Feature Cov} _ _ _ _ _.
Arguments init {Feature Cov} _ _ _ _ _.
Arguments push_feature {Feature} _ _ _.
Arguments OpPredict {Feature}.
Arguments OpUpdate {Feature} _ _ _.
Arguments OpUpdateKf {Feature} _.
Arguments run_op {Feature Cov} _ _ _ _.
Arguments run_ops {Feature Cov} _ _ _ _.
Arguments buffer_ok {Feature Cov} _.

End Track.

(* ================================================================== *)
(** * hybrid_tracker.py : class HybridTracker *)

Module HybridTracker.

Import Track.

(** A detection row [x1, y1, x2, y2, score, class_id]. *)
Record detection : Type := mk_detection {
  det_box : Box;
  det_score : R;
  det_class : Z
}.

(** [_iou(box1, box2)]. *)
Definition iou (box1 box2 : Box) : R :=
  let xx1 := Rmax (b0 box1) (b0 box2) in
  let yy1 := Rmax (b1 box1) (b1 box2) in
  let xx2 := Rmin (b2 box1) (b2 box2) in
  let yy2 := Rmin (b3 box1) (b3 box2) in
  let w := Rmax 0 (xx2 - xx1) in
  let h := Rmax 0 (yy2 - yy1) in
  let inter := (w * h)%R in
  let area1 := ((b2 box1 - b0 box1) * (b3 box1 - b1 box1))%R in
  let area2 := ((b2 box2 - b0 box2) * (b3 box2 - b1 box2))%R in
  (inter / (area1 + area2 - inter + 1 / 1000000))%R.

Section WithModels.

Variable Feature : Type.
Variable Cov : Type.
Variable kf_fresh : Cov.
Variable kf_predict : kstate * Cov -> kstate * Cov.
Variable kf_update : kstate * Cov -> R * R * R * R -> kstate * Cov.

(** The video frame handed to the ReID model. *)
Variable Frame : Type.
(** [ReIDModel.extract_features(frame, boxes)]. *)
Variable extract_features : Frame -> list Box -> list Feature.
(** [reid.compute_distance(np.mean(track.features), features)[0]]:
    the row of cosine distances from a track's mean embedding. *)
Variable reid_row : list Feature -> list Feature -> list R.
(** scipy's [linear_sum_assignment], as the zipped (row, column) pairs. *)
Variable linear_sum_assignment : list (list R) -> list (nat * nat).

Local Abbreviation track := (Track.track Feature Cov).

Record tracker : Type := mk_tracker {
  tracks : list track;
  next_id : Z;
  frame_rate : Z;
  max_age : Z;
  conf_thresh : R;
  iou_thresh : R;
  reid_thresh : R
}.

(** [HybridTracker(frame_rate)]. *)
Definition init (fr : Z) : tracker :=
  mk_tracker [] 1 fr (fr * 2) (5 / 10) (3 / 10) (4 / 10).

Definition set_tracks (T : tracker) (ts : list track) (nid : Z) : tracker :=
  mk_tracker ts nid (frame_rate T) (max_age T)
             (conf_thresh T) (iou_thresh T) (reid_thresh T).

(** Step 1: keep detections with [d[4] >= conf_thresh]. *)
Definition filter_dets (T : tracker) (detections : list detection)
  : list detection :=
  filter (fun d => Rleb (conf_thresh T) (det_score d)) detections.

(** Step 2: embeddings of the kept detections. *)
Definition det_features (frame : Frame) (dets : list detection)
  : list Feature :=
  match dets with
  | [] => []
  | _ => extract_features frame (map det_box dets)
  end.

(** Step 3: [track.predict()] on every track. *)
Definition predict_all (ts : list track) : list track :=
  map (fun t => fst (Track.predict kf_predict t)) ts.

(** The state threaded by the stage-1 loop:
    matches, unmatched detection indices, unmatched track indices. *)
Definition assoc : Type := (list (nat * nat) * list nat * list nat)%type.

Definition stage1_step (T : tracker) (dists : list (list R))
           (acc : option assoc) (rc : nat * nat) : option assoc :=
  obind acc (fun '(matches, ud, ut) =>
  obind (mat_get dists (fst rc) (snd rc)) (fun d =>
    if Rltb d (reid_thresh T)
    then Some (matches ++ [rc],
               remove_first (snd rc) ud,
               remove_first (fst rc) ut)
    else Some (matches, ud, ut))).

(** Stage 1: appearance association over all tracks. *)
Definition stage1 (T : tracker) (ts : list track) (dets : list detection)
           (feats : list Feature) : option assoc :=
  let ud := seq 0 (length dets) in
  let ut := seq 0 (length ts) in
  if Nat.ltb 0 (length dets) && Nat.ltb 0 (length ts) then
    let dists :=
      map (fun t : track =>
             match features t with
             | [] => repeat 1%R (length dets)
             | _ => reid_row (features t) feats
             end) ts in
    fold_left (stage1_step T dists) (linear_sum_assignment dists)
              (Some ([], ud, ut))
  else Some ([], ud, ut).

Definition stage2_step (T : tracker) (iou_dists : list (list R))
           (ud ut : list nat)
           (acc : option (list (nat * nat))) (rc : nat * nat)
  : option (list (nat * nat)) :=
  obind acc (fun matches =>
  obind (mat_get iou_dists (fst rc) (snd rc)) (fun d =>
    if Rltb d (1 - iou_thresh T)
    then obind (nth_error ut (fst rc)) (fun t_idx =>
         obind (nth_error ud (snd rc)) (fun d_idx =>
           Some (matches ++ [(t_idx, d_idx)])))
    else Some matches)).

(** [iou_dists[i, j] = 1 - iou(track box, detection box)]. *)
Definition iou_matrix (ts : list track) (dets : list detection)
           (ud ut : list nat) : option (list (list R)) :=
  fold_right
    (fun t_idx acc =>
       obind (nth_error ts t_idx) (fun t =>
       obind (fold_right
                (fun d_idx row =>
                   obind (nth_error dets d_idx) (fun d =>
                   obind row (fun row' =>
                     Some ((1 - iou (get_box t) (det_box d))%R :: row'))))
                (Some []) ud) (fun row =>
       obind acc (fun acc' => Some (row :: acc')))))
    (Some []) ut.

(** Stage 2: overlap association over what stage 1 left unmatched. *)
Definition stage2 (T : tracker) (ts : list track) (dets : list detection)
           (a : assoc) : option (list (nat * nat)) :=
  let '(matches, ud, ut) := a in
  if Nat.ltb 0 (length ud) && Nat.ltb 0 (length ut) then
    obind (iou_matrix ts dets ud ut) (fun iou_dists =>
      fold_left (stage2_step T iou_dists ud ut)
                (linear_sum_assignment iou_dists) (Some matches))
  else Some matches.

(** [features[i] if len(features) > 0 else None]; an index past the end
    of a non-empty list raises. *)
Definition feat_at (feats : list Feature) (i : nat)
  : option (option Feature) :=
  match feats with
  | [] => Some None
  | _ => obind (nth_error feats i) (fun f => Some (Some f))
  end.

(** [self.tracks[i] = v] on the list being updated in place. *)
Fixpoint set_nth (ts : list track) (i : nat) (v : track) : list track :=
  match ts, i with
  | [], _ => []
  | _ :: ts', O => v :: ts'
  | t :: ts', S i' => t :: set_nth ts' i' v
  end.

(** Step 5a: [track.update(det[:4], det[4], feat)] for every match. *)
Definition update_matched (dets : list detection) (feats : list Feature)
           (acc : option (list track)) (m : nat * nat)
  : option (list track) :=
  obind acc (fun ts =>
  obind (nth_error ts (fst m)) (fun t =>
  obind (nth_error dets (snd m)) (fun d =>
  obind (feat_at feats (snd m)) (fun feat =>
    Some (set_nth ts (fst m)
            (Track.update kf_update t (det_box d) (det_score d) feat)))))).

(** Step 5b: a new track for every detection index that is in no match. *)
Fixpoint spawn (matched : list nat) (feats : list Feature)
         (ds : list detection) (i : nat) (nid : Z)
  : option (list track * Z) :=
  match ds with
  | [] => Some ([], nid)
  | d :: ds' =>
      if existsb (Nat.eqb i) matched
      then spawn matched feats ds' (S i) nid
      else
        obind (feat_at feats i) (fun feat =>
        obind (spawn matched feats ds' (S i) (nid + 1)) (fun '(nts, nid') =>
          Some (Track.init kf_fresh nid (det_box d) (det_score d) feat
                  :: nts, nid')))
  end.

(** Steps 1-5 of [update]: everything before the removal of dead tracks.
    Gives the updated old tracks and the tracks created this frame. *)
Definition associate (T : tracker) (detections : list detection)
           (frame : Frame) : option (list track * list track * Z) :=
  let dets := filter_dets T detections in
  let feats := det_features frame dets in
  let ts := predict_all (tracks T) in
  obind (stage1 T ts dets feats) (fun a =>
  obind (stage2 T ts dets a) (fun matches =>
  obind (fold_left (update_matched dets feats) matches (Some ts))
        (fun ts' =>
  obind (spawn (map snd matches) feats dets 0 (next_id T))
        (fun '(nts, nid) => Some (ts', nts, nid))))).

(** "Remove dead tracks" (line 209). *)
Definition remove_dead (T : tracker) (ts : list track) : list track :=
  filter (fun t => Z.ltb (time_since_update t) (max_age T)) ts.

(** The test of "Return active tracks" (line 214). *)
Definition confirmed (t : track) : bool :=
  Z.ltb (time_since_update t) 1 && Z.leb 3 (hits t).

(** One output row [x1, y1, x2, y2, track_id, score, 0]. *)
Definition result_row (t : track) : Box * Z * R * Z :=
  (get_box t, track_id t, score t, 0%Z).

Definition active_results (ts : list track) : list (Box * Z * R * Z) :=
  map result_row (filter confirmed ts).

(** [update(detections, frame)]: the new tracker and the returned rows. *)
Definition update (T : tracker) (detections : list detection)
           (frame : Frame) : option (tracker * list (Box * Z * R * Z)) :=
  obind (associate T detections frame) (fun '(ts, nts, nid) =>
    let kept := remove_dead T (ts ++ nts) in
    Some (set_tracks T kept nid, active_results kept)).

(** The states a run goes through: the fresh tracker, and whatever a call
    of [update] leaves behind. *)
Inductive reachable : tracker -> Prop :=
| reach_init (fr : Z) : reachable (init fr)
| reach_update (T : tracker) (detections : list detection) (frame : Frame)
               (T' : tracker) (out : list (Box * Z * R * Z)) :
    reachable T ->
    update T detections frame = Some (T', out) ->
    reachable T'.

(** Track removal read as "kept while the time since the last update is
    at most [max_age]". *)
Definition kept_through_max_age (T : tracker) (detections : list detection)
           (frame : Frame) : Prop :=
  reachable T ->
  forall ts nts nid T' out,
    associate T detections frame = Some (ts, nts, nid) ->
    update T detections frame = Some (T', out) ->
    forall t, In t (ts ++ nts) ->
      (In t (tracks T') <-> (time_since_update t <= max_age T)%Z).

(** The caller's frame loop over frames in which nothing is detected. *)
Fixpoint idle (T : tracker) (frames : list Frame) : option tracker :=
  match frames with
  | [] => Some T
  | frame :: rest => obind (update T [] frame) (fun r => idle (fst r) rest)
  end.

End WithModels.

Arguments tracks {Feature Cov} _.
Arguments next_id {Feature Cov} _.
Arguments frame_rate {Feature Cov} _.
Arguments max_age {Feature Cov} _.
Arguments conf_thresh {Feature Cov} _.
Arguments iou_thresh {Feature Cov} _.
Arguments reid_thresh {Feature Cov} _.
Arguments set_tracks {Feature Cov} _ _ _.
Arguments remove_dead {Feature Cov} _ _.
Arguments confirmed {Feature Cov} _.
Arguments result_row {Feature Cov} _.
Arguments active_results {Feature Cov} _.
Arguments filter_dets {Feature Cov} _ _.

End HybridTracker.

(* ================================================================== *)
(** * The simplest collaborators

    A filter that leaves its state as it is, a ReID model with a single
    embedding at distance 0 from everything, and an assignment that pairs
    the first row with the first column.  They let the tracker run on
    concrete frames. *)

Module PlainRun.

Import Track HybridTracker.

Definition Feature : Type := nat.
Definition Cov : Type := unit.
Definition Frame : Type := unit.
Definition kf_fresh : Cov := tt.
Definition kf_predict (k : kstate * Cov) : kstate * Cov := k.
Definition kf_update (k : kstate * Cov) (z : R * R * R * R) : kstate * Cov := k.

Definition extract_features (frame : Frame) (boxes : list Box)
  : list Feature := map (fun _ => 0%nat) boxes.

Definition reid_row (fs feats : list Feature) : list R :=
  map (fun _ => 0%R) feats.

Definition linear_sum_assignment (m : list (list R)) : list (nat * nat) :=
  match m with
  | (_ :: _) :: _ => [(0%nat, 0%nat)]
  | _ => []
  end.

Definition track : Type := Track.track Feature Cov.
Definition tracker : Type := HybridTracker.tracker Feature Cov.

Definition update (T : tracker) (detections : list detection) (frame : Frame)
  : option (tracker * list (Box * Z * R * Z)) :=
  HybridTracker.update Feature Cov kf_fresh kf_predict kf_update Frame
                       extract_features reid_row linear_sum_assignment
                       T detections frame.

Definition associate (T : tracker) (detections : list detection)
           (frame : Frame) : option (list track * list track * Z) :=
  HybridTracker.associate Feature Cov kf_fresh kf_predict kf_update Frame
                          extract_features reid_row linear_sum_assignment
                          T detections frame.

Definition reachable (T : tracker) : Prop :=
  HybridTracker.reachable Feature Cov kf_fresh kf_predict kf_update Frame
                          extract_features reid_row linear_sum_assignment T.

(** A player in the box (0, 0, 10, 20), detected with confidence 0.9. *)
Definition player : detection :=
  mk_detection (0, 0, 10, 20)%R (9 / 10)%R 0%Z.

(** The track that detection starts, with identity 1. *)
Definition first_track : track :=
  Track.init kf_fresh 1%Z (det_box player) (det_score player) (Some 0%nat).

(** [first_track] after [n] frames without a detection. *)
Definition missed (n : nat) : track :=
  Nat.iter n (fun t => fst (Track.predict kf_predict t)) first_track.

(** The 30 fps tracker holding that one track, [n] frames after its only
    detection. *)
Definition lone (n : nat) : tracker :=
  set_tracks (HybridTracker.init Feature Cov 30%Z) [missed n] 2%Z.

(** [first_track] after [n] further frames in which the player is
    detected again and matched to it. *)
Definition seen (n : nat) : track :=
  Nat.iter n
    (fun t => Track.update kf_update (fst (Track.predict kf_predict t))
                           (det_box player) (det_score player) (Some 0%nat))
    first_track.

Definition followed (n : nat) : tracker :=
  set_tracks (HybridTracker.init Feature Cov 30%Z) [seen n] 2%Z.

End PlainRun.

(* ================================================================== *)
(** * soccer_analysis_core.py : class HomographyTransform *)

Module HomographyTransform.

Import Ascii.
Local Open Scope Q_scope.

(** A two-dimensional array, as its rows. *)
Definition ndarray : Type := list (list Q).

Record t : Type := mk {
  matrix : option ndarray;
  enabled : bool
}.

(** [matrix.shape != (3, 3)]. *)
Definition shape_is_3x3 (m : ndarray) : bool :=
  Nat.eqb (List.length m) 3
  && forallb (fun row => Nat.eqb (List.length row) 3) m.

(** [np.allclose(matrix, 0)] with numpy's default tolerances:
    every entry [a] has [|a - 0| <= 1e-8 + 1e-5 * |0|]. *)
Definition allclose_zero (m : ndarray) : bool :=
  forallb (forallb (fun a => Qle_bool (Qabs a) (1 # 100000000))) m.

(** [_validate_matrix]: [true] when neither [ValueError] is raised. *)
Definition validate_matrix (m : ndarray) : bool :=
  shape_is_3x3 m && negb (allclose_zero m).

(** [HomographyTransform(matrix)]; [None] when the constructor raises. *)
Definition init (m : option ndarray) : option t :=
  match m with
  | None => Some (mk None false)
  | Some a => if validate_matrix a then Some (mk (Some a) true) else None
  end.

(** [np.dot(matrix, v)] for a vector [v]: raises on a shape mismatch. *)
Definition dot_row (row v : list Q) : option Q :=
  if Nat.eqb (List.length row) (List.length v)
  then Some (fold_right Qplus 0 (map (fun p => fst p * snd p) (combine row v)))
  else None.

Fixpoint dot (m : ndarray) (v : list Q) : option (list Q) :=
  match m with
  | [] => Some []
  | row :: m' =>
      obind (dot_row row v) (fun a =>
      obind (dot m' v) (fun rest => Some (a :: rest)))
  end.

(** The body of the [try] block of [transform]; [None] is an exception. *)
Definition transform_try (m : option ndarray) (x y : Q) : option (Q * Q) :=
  obind m (fun a =>
  obind (dot a [x; y; 1]) (fun v_prime =>
  obind (nth_error v_prime 2) (fun w =>
    if Qltb (Qabs w) (1 # 10000000000)
    then Some (x, y)
    else
      obind (nth_error v_prime 0) (fun v0 =>
      obind (nth_error v_prime 1) (fun v1 =>
        Some (v0 / w, v1 / w)))))).

(** [transform(x, y)]. *)
Definition transform (h : t) (x y : Q) : Q * Q :=
  if negb (enabled h) then (x, y)
  else
    match transform_try (matrix h) x y with
    | Some p => p
    | None => (x, y)
    end.

(** [str.split(sep)] for a one-character separator. *)
Fixpoint split (sep : Ascii.ascii) (s : String.string) : list String.string :=
  match s with
  | String.EmptyString => [String.EmptyString]
  | String.String c s' =>
      if Ascii.eqb c sep
      then String.EmptyString :: split sep s'
      else
        match split sep s' with
        | [] => [String.String c String.EmptyString]
        | piece :: pieces => String.String c piece :: pieces
        end
  end.

(** [[f(x) for x in xs]] where [f] may raise. *)
Fixpoint map_raise {A B : Type} (f : A -> option B) (xs : list A)
  : option (list B) :=
  match xs with
  | [] => Some []
  | x :: xs' =>
      obind (f x) (fun b =>
      obind (map_raise f xs') (fun bs => Some (b :: bs)))
  end.

(** [np.array(values).reshape(3, 3)] on nine values. *)
Definition reshape_3x3 (values : list Q) : ndarray :=
  [firstn 3 values; firstn 3 (skipn 3 values); skipn 6 values].

(** [s.count(c)] for a character [c]. *)
Fixpoint occurrences (c : Ascii.ascii) (s : String.string) : nat :=
  match s with
  | String.EmptyString => 0
  | String.String d s' =>
      if Ascii.eqb d c then S (occurrences c s') else occurrences c s'
  end.

Section WithFloat.

(** Python's [float(x.strip())]: [None] when it raises [ValueError]. *)
Variable py_float : String.string -> option Q.

(** The body of the [try] block of [from_string]. *)
Definition from_string_try (matrix_str : String.string) : option t :=
  obind (map_raise py_float (split ","%char matrix_str)) (fun values =>
    if negb (Nat.eqb (List.length values) 9) then None
    else init (Some (reshape_3x3 values))).

(** [from_string(matrix_str)]: any exception gives [cls(None)]. *)
Definition from_string (matrix_str : String.string) : t :=
  match from_string_try matrix_str with
  | Some h => h
  | None => mk None false
  end.

End WithFloat.

(** A reader for plain decimal literals ([-12.5], [3], [+0.25]) with
    surrounding blanks, used to run [from_string] on examples; Python's
    [float] accepts these with the same value, and more besides. *)
Definition digit_of (c : Ascii.ascii) : option Z :=
  let n := Ascii.nat_of_ascii c in
  if Nat.leb 48 n && Nat.leb n 57 then Some (Z.of_nat (n - 48)) else None.

Fixpoint strip_left (s : String.string) : String.string :=
  match s with
  | String.String c s' =>
      if Ascii.eqb c " "%char then strip_left s' else s
  | String.EmptyString => s
  end.

(** Digits before and after the point: numerator, denominator, whether a
    digit was seen, whether the point was passed. *)
Fixpoint read_digits (s : String.string) (num : Z) (den : positive)
         (seen point : bool) : option Q :=
  match s with
  | String.EmptyString => if seen then Some (num # den) else None
  | String.String c s' =>
      match digit_of c with
      | Some d =>
          read_digits s' (10 * num + d)%Z
                      (if point then (10 * den)%positive else den) true point
      | None =>
          if Ascii.eqb c "."%char && negb point
          then read_digits s' num den seen true
          else if Ascii.eqb c " "%char
               then match strip_left s' with
                    | String.EmptyString =>
                        if seen then Some (num # den) else None
                    | _ => None
                    end
               else None
      end
  end.

Definition decimal_float (s : String.string) : option Q :=
  match strip_left s with
  | String.String c s' =>
      if Ascii.eqb c "-"%char
      then option_map Qopp (read_digits s' 0 1 false false)
      else if Ascii.eqb c "+"%char
           then read_digits s' 0 1 false false
           else read_digits (String.String c s') 0 1 false false
  | String.EmptyString => None
  end.

End HomographyTransform.

(** ** HomographyTransform on binary64 numbers

    The same class with Python's [float] and numpy's [float64] as what they
    are, IEEE binary64 numbers with infinities and NaN.  Overflow and
    invalid operations give a warning in numpy and an Inf or NaN result,
    not an exception. *)

Module HomographyDouble.

Import PrimFloat.
Local Open Scope float_scope.
Local Set Warnings "-inexact-float".

(** A two-dimensional array, as its rows. *)
Definition ndarray : Type := list (list float).

Record t : Type := mk {
  matrix : option ndarray;
  enabled : bool
}.

(** [matrix.shape != (3, 3)]. *)
Definition shape_is_3x3 (m : ndarray) : bool :=
  Nat.eqb (List.length m) 3
  && forallb (fun row => Nat.eqb (List.length row) 3) m.

(** [np.allclose(matrix, 0)] with numpy's default tolerances: every entry
    [a] has [abs(a - 0) <= atol + rtol * abs(0)].  The comparison is false
    for an infinite or NaN entry, as numpy's answer is. *)
Definition allclose_zero (m : ndarray) : bool :=
  forallb (forallb (fun a => abs (a - 0) <=? 1e-8 + 1e-5 * abs 0)) m.

(** [_validate_matrix]: [true] when neither [ValueError] is raised. *)
Definition validate_matrix (m : ndarray) : bool :=
  shape_is_3x3 m && negb (allclose_zero m).

(** [HomographyTransform(matrix)]; [None] when the constructor raises. *)
Definition init (m : option ndarray) : option t :=
  match m with
  | None => Some (mk None false)
  | Some a => if validate_matrix a then Some (mk (Some a) true) else None
  end.

Section WithDot.

(** [np.dot(matrix, v)], [None] when it raises on a shape mismatch.  numpy
    leaves the order of the additions, and whether products are fused into
    them, to the linear-algebra library it was built with. *)
Variable np_dot : ndarray -> list float -> option (list float).

(** The body of the [try] block of [transform]; [None] is an exception. *)
Definition transform_try (m : option ndarray) (x y : float)
  : option (float * float) :=
  obind m (fun a =>
  obind (np_dot a [x; y; 1]) (fun v_prime =>
  obind (nth_error v_prime 2) (fun w =>
    if abs w <? 1e-10
    then Some (x, y)
    else
      obind (nth_error v_prime 0) (fun v0 =>
      obind (nth_error v_prime 1) (fun v1 =>
        Some (v0 / w, v1 / w)))))).

(** [transform(x, y)]. *)
Definition transform (h : t) (x y : float) : float * float :=
  if negb (enabled h) then (x, y)
  else
    match transform_try (matrix h) x y with
    | Some p => p
    | None => (x, y)
    end.

End WithDot.

(** [np.dot] computed row by row, the products added from left to right
    and every operation rounded. *)
Definition dot_row (row v : list float) : option float :=
  if Nat.eqb (List.length row) (List.length v)
  then Some (fold_left add (map (fun p => fst p * snd p) (combine row v)) 0)
  else None.

Fixpoint dot (m : ndarray) (v : list float) : option (list float) :=
  match m with
  | [] => Some []
  | row :: m' =>
      obind (dot_row row v) (fun a =>
      obind (dot m' v) (fun rest => Some (a :: rest)))
  end.

(** Neither Inf nor NaN, for both coordinates of a point. *)
Definition finite_point (p : float * float) : bool :=
  is_finite (fst p) && is_finite (snd p).

(** [transform] read as "never produces Inf/NaN": whatever 3x3 matrix the
    constructor accepted, a finite point is sent to a finite point. *)
Definition never_inf_nan (m : ndarray) (x y : float) : Prop :=
  forall h, init (Some m) = Some h ->
    is_finite x = true -> is_finite y = true ->
    finite_point (transform dot h x y) = true.

(** A calibration with one very large and one very small entry; every
    entry is finite. *)
Definition steep : ndarray := [[1e300; 0; 0]; [0; 1; 0]; [0; 0; 1e-9]].

End HomographyDouble.

(* ================================================================== *)
(** * soccer_analysis_core.py : class XThreatGrid *)

Module XThreatGrid.

Local Open Scope Q_scope.

Record t : Type := mk {
  field_length : Q;
  field_width : Q;
  grid : list (list Q)
}.

(** [XThreatGrid(field_length, field_width)] with the hard-coded grid. *)
Definition init (fl fw : Q) : t :=
  mk fl fw
   [ [5#1000; 1#100; 15#1000; 2#100; 3#100; 4#100; 6#100; 8#100;
      12#100; 18#100; 25#100; 35#100];
     [8#1000; 15#1000; 2#100; 3#100; 5#100; 7#100; 10#100; 15#100;
      22#100; 30#100; 40#100; 50#100];
     [10#1000; 2#100; 3#100; 5#100; 8#100; 12#100; 18#100; 25#100;
      35#100; 45#100; 55#100; 65#100];
     [12#1000; 25#1000; 4#100; 7#100; 12#100; 18#100; 25#100; 35#100;
      45#100; 55#100; 65#100; 75#100];
     [12#1000; 25#1000; 4#100; 7#100; 12#100; 18#100; 25#100; 35#100;
      45#100; 55#100; 65#100; 75#100];
     [10#1000; 2#100; 3#100; 5#100; 8#100; 12#100; 18#100; 25#100;
      35#100; 45#100; 55#100; 65#100];
     [8#1000; 15#1000; 2#100; 3#100; 5#100; 7#100; 10#100; 15#100;
      22#100; 30#100; 40#100; 50#100];
     [5#1000; 1#100; 15#1000; 2#100; 3#100; 4#100; 6#100; 8#100;
      12#100; 18#100; 25#100; 35#100] ].

(** [np.clip(v, lo, hi)] is [minimum(maximum(v, lo), hi)]. *)
Definition clip (v lo hi : Q) : Q := Qmin (Qmax v lo) hi.

(** [int(v)]: truncation toward zero. *)
Definition py_int (v : Q) : Z := Z.quot (Qnum v) (Zpos (Qden v)).

(** [a / b] on Python floats raises [ZeroDivisionError] when [b] is 0. *)
Definition py_div (a b : Q) : option Q :=
  if Qeq_bool b 0 then None else Some (a / b).

(** [int(np.clip(v / (extent / cells), 0, last))]. *)
Definition cell_index (v extent cells last : Q) : option Z :=
  obind (py_div extent cells) (fun size =>
  obind (py_div v size) (fun q =>
    Some (py_int (clip q 0 last)))).

(** [grid[row, col]]; a negative index counts from the end. *)
Definition item {A : Type} (l : list A) (i : Z) : option A :=
  if Z.ltb i 0
  then if Z.ltb (i + Z.of_nat (List.length l)) 0 then None
       else nth_error l (Z.to_nat (i + Z.of_nat (List.length l)))
  else nth_error l (Z.to_nat i).

Definition get_value_try (g : t) (x y : Q) : option Q :=
  obind (cell_index x (field_length g) 12 11) (fun col =>
  obind (cell_index y (field_width g) 8 7) (fun row =>
  obind (item (grid g) row) (fun r => item r col))).

(** Adjacent entries of a row do not decrease. *)
Fixpoint nondecreasing (l : list Q) : bool :=
  match l with
  | a :: (b :: _) as rest => Qle_bool a b && nondecreasing rest
  | _ => true
  end.

(** [get_value(x, y)]: any exception gives 0.0. *)
Definition get_value (g : t) (x y : Q) : Q :=
  match get_value_try g x y with
  | Some v => v
  | None => 0
  end.

End XThreatGrid.

(* ================================================================== *)
(** * soccer_analysis_core.py : AnalysisConfig and the event records *)

(** [TeamColor]: the team labels. *)
Module TeamColor.
Import String.
Definition TEAM_A : string := "A"%string.
Definition TEAM_B : string := "B"%string.
Definition UNKNOWN : string := "Unknown"%string.
End TeamColor.

(** The numeric settings of [AnalysisConfig] read by the code below. *)
Record AnalysisConfig : Type := mk_config {
  confidence_threshold : R;
  min_track_length_seconds : R;
  max_speed_ms : R;
  max_frame_gap_seconds : R;
  max_distance_jump_m : R;
  pass_proximity_threshold_m : R;
  pass_min_distance_m : R;
  pass_max_distance_m : R;
  pass_max_duration_s : R;
  pass_velocity_threshold_ms : R
}.

(** [__post_init__]: [None] when it raises [ValueError]. *)
Definition post_init (cfg : AnalysisConfig) : option AnalysisConfig :=
  if negb (Rltb 0 (confidence_threshold cfg)
           && Rleb (confidence_threshold cfg) 1) then None
  else if Rleb (max_speed_ms cfg) 0 then None
  else if Rleb (min_track_length_seconds cfg) 0 then None
  else Some cfg.

(** [AnalysisConfig()] with the defaults of the dataclass. *)
Definition default_config : AnalysisConfig :=
  mk_config (3 / 10) 1 (125 / 10) (5 / 10) 10 3 2 40 3 (15 / 10).

(** The fields of a [TrackPoint] the pass detector reads.  Only points
    whose smoothed coordinates are set reach it ([_index_by_frame]). *)
Record TrackPoint : Type := mk_point {
  tp_frame : Z;
  tp_timestamp : R;
  xm_smooth : R;
  ym_smooth : R;
  tp_velocity : R;
  tp_xthreat : R;
  tp_team : String.string
}.

Inductive pass_type : Type := short | medium | long.

Record PassEvent : Type := mk_pass {
  pe_frame : Z;
  pe_timestamp : R;
  passer_id : Z;
  receiver_id : Z;
  pe_team : String.string;
  pe_distance : R;
  pe_duration : R;
  pe_pass_type : pass_type;
  pe_success : bool;
  start_position : R * R;
  end_position : R * R;
  xthreat_delta : R
}.

Record PressingEvent : Type := mk_pressing {
  pr_frame : Z;
  pr_timestamp : Q;
  defender_id : Z;
  attacker_id : Z;
  pr_distance : Q;
  defender_speed : Q
}.

(* ================================================================== *)
(** * soccer_analysis_processor.py : class PassDetector *)

Module PassDetector.

Local Open Scope R_scope.

(** One entry of [self.potential_passes]. *)
Record potential : Type := mk_potential {
  passer : Z;
  receiver : Z;
  team : String.string;
  start_frame : Z;
  start_time : R;
  start_pos : R * R;
  start_xthreat : R;
  is_active : bool;
  min_distance : R
}.

Definition set_active (pp : potential) (a : bool) : potential :=
  mk_potential (passer pp) (receiver pp) (team pp) (start_frame pp)
               (start_time pp) (start_pos pp) (start_xthreat pp) a
               (min_distance pp).

Definition set_min_distance (pp : potential) (d : R) : potential :=
  mk_potential (passer pp) (receiver pp) (team pp) (start_frame pp)
               (start_time pp) (start_pos pp) (start_xthreat pp)
               (is_active pp) d.

(** Displacement of the receiver from the start position. *)
Definition pass_distance_of (pp : potential) (rcv : TrackPoint) : R :=
  sqrt ((xm_smooth rcv - fst (start_pos pp)) ^ 2
        + (ym_smooth rcv - snd (start_pos pp)) ^ 2).

(** [_validate_pass(potential, receiver, dist, duration)]. *)
Definition validate_pass (cfg : AnalysisConfig) (pp : potential)
           (rcv : TrackPoint) (dist duration : R) : bool :=
  let pass_distance := pass_distance_of pp rcv in
  if Rltb pass_distance (pass_min_distance_m cfg) then false
  else if Rltb (pass_max_distance_m cfg) pass_distance then false
  else if Rleb duration 0 || Rltb (pass_max_duration_s cfg) duration
       then false
  else if Rltb (tp_velocity rcv) (5 / 10) then false
  else true.

(** [_classify_pass_type(distance)]. *)
Definition classify_pass_type (distance : R) : pass_type :=
  if Rltb distance 10 then short
  else if Rltb distance 25 then medium
  else long.

(** [{pid: p for pid, p in players}[k]]: the last entry for [k] wins. *)
Fixpoint players_dict (players : list (Z * TrackPoint)) (k : Z)
  : option TrackPoint :=
  match players with
  | [] => None
  | (pid, p) :: rest =>
      match players_dict rest k with
      | Some q => Some q
      | None => if Z.eqb pid k then Some p else None
      end
  end.

Section WithRound.

(** Python's [round(x, ndigits)]. *)
Variable round : R -> nat -> R.

(** The [PassEvent] built at lines 166-179. *)
Definition make_event (cfg : AnalysisConfig) (pp : potential)
           (rcv : TrackPoint) (frame : Z) (duration : R) : PassEvent :=
  let pass_distance := pass_distance_of pp rcv in
  mk_pass frame
          (round (tp_timestamp rcv) 3)
          (passer pp) (receiver pp) (team pp)
          (round pass_distance 2)
          (round duration 2)
          (classify_pass_type pass_distance)
          (Rltb (pass_velocity_threshold_ms cfg) (tp_velocity rcv))
          (start_pos pp)
          (xm_smooth rcv, ym_smooth rcv)
          (round (tp_xthreat rcv - start_xthreat pp) 3).

(** The loop body of [_update_and_complete_passes] for one entry:
    the entry after the step and the pass event it completed, if any. *)
Definition step_potential (cfg : AnalysisConfig)
           (players : list (Z * TrackPoint)) (frame : Z) (pp : potential)
  : potential * option PassEvent :=
  if negb (is_active pp) then (pp, None)
  else
    match players_dict players (passer pp),
          players_dict players (receiver pp) with
    | Some psr, Some rcv =>
        let dist :=
          sqrt ((xm_smooth psr - xm_smooth rcv) ^ 2
                + (ym_smooth psr - ym_smooth rcv) ^ 2) in
        let pp1 := set_min_distance pp (Rmin (min_distance pp) dist) in
        if Rltb (pass_proximity_threshold_m cfg) dist then
          let duration := tp_timestamp psr - start_time pp1 in
          (set_active pp1 false,
           if validate_pass cfg pp1 rcv dist duration
           then Some (make_event cfg pp1 rcv frame duration)
           else None)
        else if Rltb (pass_max_duration_s cfg)
                     (tp_timestamp psr - start_time pp1)
        then (set_active pp1 false, None)
        else (pp1, None)
    | _, _ => (set_active pp false, None)
    end.

(** [_update_and_complete_passes(players, frame, fps)]: the entries after
    the loop and the completed passes, in order. *)
Fixpoint update_and_complete_passes (cfg : AnalysisConfig)
         (pps : list potential) (players : list (Z * TrackPoint))
         (frame : Z) : list potential * list PassEvent :=
  match pps with
  | [] => ([], [])
  | pp :: rest =>
      let '(pp', ev) := step_potential cfg players frame pp in
      let '(rest', evs) :=
        update_and_complete_passes cfg rest players frame in
      (pp' :: rest',
       match ev with Some e => e :: evs | None => evs end)
  end.

End WithRound.

(** A candidate that started at the origin at time 0 between players 1
    and 2 of team A ... *)
Definition sample_potential : potential :=
  mk_potential 1 2 TeamColor.TEAM_A 0 0
               (0, 0) (1 / 100) true 1.

(** ... and a later frame (time 1 s) in which the passer stands at
    (-2, 0) and the receiver, moving at 1 m/s, at ([x], 0). *)
Definition sample_players (x : R) : list (Z * TrackPoint) :=
  [ (1%Z, mk_point 30 1 (-2) 0 0 (1 / 100)
            TeamColor.TEAM_A);
    (2%Z, mk_point 30 1 x 0 1 (2 / 100)
            TeamColor.TEAM_A) ].

(** The body of the inner loop of [_detect_pass_starts] for one pair of
    players: the list [self.potential_passes] after it. *)
Definition try_start (cfg : AnalysisConfig) (frame : Z)
           (a b : Z * TrackPoint) (pps : list potential) : list potential :=
  let '(pid1, p1) := a in
  let '(pid2, p2) := b in
  if negb (String.eqb (tp_team p1) (tp_team p2))
     || String.eqb (tp_team p1) TeamColor.UNKNOWN
  then pps
  else
    let dist :=
      sqrt ((xm_smooth p1 - xm_smooth p2) ^ 2
            + (ym_smooth p1 - ym_smooth p2) ^ 2) in
    if Rltb dist (pass_proximity_threshold_m cfg) then
      let existing :=
        existsb (fun pp => Z.eqb (passer pp) pid1
                           && Z.eqb (receiver pp) pid2
                           && is_active pp) pps in
      if negb existing
      then pps ++ [mk_potential pid1 pid2 (tp_team p1) frame
                                (tp_timestamp p1)
                                (xm_smooth p1, ym_smooth p1)
                                (tp_xthreat p1) true dist]
      else pps
    else pps.

(** [_detect_pass_starts(players, frame)]: every player with every later
    one. *)
Fixpoint detect_pass_starts (cfg : AnalysisConfig) (frame : Z)
         (pps : list potential) (players : list (Z * TrackPoint))
  : list potential :=
  match players with
  | [] => pps
  | a :: rest =>
      detect_pass_starts cfg frame
        (fold_left (fun acc b => try_start cfg frame a b acc) rest pps)
        rest
  end.

(** The (passer, receiver) pairs of the candidates still active. *)
Definition active_pairs (pps : list potential) : list (Z * Z) :=
  map (fun pp => (passer pp, receiver pp)) (filter is_active pps).

Section WithRoundLoop.

Variable round : R -> nat -> R.

(** The frame loop of [detect_passes] (lines 63-71) over the frames of
    [frames_data] in increasing order, each with its players. *)
Fixpoint detect_frames (cfg : AnalysisConfig) (pps : list potential)
         (frames : list (Z * list (Z * TrackPoint))) : list PassEvent :=
  match frames with
  | [] => []
  | (frame, players) :: rest =>
      let pps1 := detect_pass_starts cfg frame pps players in
      let '(pps2, completed) :=
        update_and_complete_passes round cfg pps1 players frame in
      completed ++ detect_frames cfg pps2 rest
  end.

End WithRoundLoop.

End PassDetector.

(* ================================================================== *)
(** * soccer_analysis_processor.py : class SoccerMatchAnalyzer *)

Module SoccerMatchAnalyzer.

(** [np.diff(a)]. *)
Fixpoint diff (a : list R) : list R :=
  match a with
  | u :: (v :: _) as rest => (v - u)%R :: diff rest
  | _ => []
  end.

(** [np.linalg.norm(np.diff(coords, axis=0), axis=1)]. *)
Fixpoint diff_norm (coords : list (R * R)) : list R :=
  match coords with
  | p :: (q :: _) as rest =>
      sqrt ((fst q - fst p) ^ 2 + (snd q - snd p) ^ 2)%R :: diff_norm rest
  | _ => []
  end.

(** [np.clip(v, lo, hi)] is [minimum(maximum(v, lo), hi)]. *)
Definition clip (v lo hi : R) : R := Rmin (Rmax v lo) hi.

(** The velocity of one step, from its distance and time delta
    (lines 713-721). *)
Definition step_velocity (cfg : AnalysisConfig) (dist dt : R) : R :=
  let valid_move :=
    Rltb dist (max_distance_jump_m cfg)
    && Rltb dt (max_frame_gap_seconds cfg) in
  clip (if valid_move then (dist / dt)%R else 0%R) 0 (max_speed_ms cfg).

(** [_compute_velocity(coords, timestamps, fps)]; [None] when it raises
    ([1.0 / fps] at [fps = 0], arrays of different lengths). *)
Definition compute_velocity (cfg : AnalysisConfig) (coords : list (R * R))
           (timestamps : list R) (fps : R) : option (list R) :=
  if Reqb fps 0 then None
  else
    let fallback := (1 / fps)%R in
    let dt :=
      map (fun d => if Reqb d 0 then fallback else d)
          (diff timestamps) in
    let dist := diff_norm coords in
    if Nat.eqb (List.length dist) (List.length dt)
    then Some (0%R :: map (fun p => step_velocity cfg (fst p) (snd p))
                          (combine dist dt))
    else None.

(** A pair is set aside when its distance or its time delta is beyond the
    limit ... *)
Definition exceeds_limits (cfg : AnalysisConfig) (dist dt : R) : bool :=
  Rltb (max_distance_jump_m cfg) dist
  || Rltb (max_frame_gap_seconds cfg) dt.

(** ... or already when it reaches the limit. *)
Definition reaches_limits (cfg : AnalysisConfig) (dist dt : R) : bool :=
  Rleb (max_distance_jump_m cfg) dist
  || Rleb (max_frame_gap_seconds cfg) dt.

(** [_compute_velocity] returns a list whose first entry is 0 and whose
    entry for each consecutive pair is 0 when [reject] sets the pair aside
    and the clamped quotient otherwise; a zero time delta counts as
    [1 / fps]. *)
Definition velocity_follows (reject : AnalysisConfig -> R -> R -> bool)
           (cfg : AnalysisConfig) (coords : list (R * R))
           (timestamps : list R) (fps : R) : Prop :=
  exists v,
    compute_velocity cfg coords timestamps fps = Some v
    /\ nth_error v 0 = Some 0%R
    /\ forall i p q t1 t2,
         nth_error coords i = Some p ->
         nth_error coords (S i) = Some q ->
         nth_error timestamps i = Some t1 ->
         nth_error timestamps (S i) = Some t2 ->
         let dist := sqrt ((fst q - fst p) ^ 2 + (snd q - snd p) ^ 2)%R in
         let dt := if Reqb (t2 - t1) 0 then (1 / fps)%R else (t2 - t1)%R in
         nth_error v (S i)
         = Some (if reject cfg dist dt then 0%R
                 else clip (dist / dt) 0 (max_speed_ms cfg)).

(** [events.sort(key=lambda e: e.timestamp)]: a stable sort. *)
Fixpoint insert_event (e : PressingEvent) (l : list PressingEvent)
  : list PressingEvent :=
  match l with
  | [] => [e]
  | h :: l' =>
      if Qle_bool (pr_timestamp e) (pr_timestamp h)
      then e :: l
      else h :: insert_event e l'
  end.

Definition sort_by_timestamp (events : list PressingEvent)
  : list PressingEvent :=
  fold_right insert_event [] events.

(** The test of lines 864-866 against the last kept event. *)
Definition is_duplicate (time_window : Q) (last event : PressingEvent)
  : bool :=
  Z.eqb (defender_id event) (defender_id last)
  && Z.eqb (attacker_id event) (attacker_id last)
  && Qltb (pr_timestamp event - pr_timestamp last)%Q time_window.

(** The loop of lines 860-869, carrying [unique[-1]]. *)
Fixpoint dedup_loop (time_window : Q) (last : PressingEvent)
         (events : list PressingEvent) : list PressingEvent :=
  match events with
  | [] => []
  | event :: rest =>
      if is_duplicate time_window last event
      then dedup_loop time_window last rest
      else event :: dedup_loop time_window event rest
  end.

(** [_deduplicate_events(events, time_window)]. *)
Definition deduplicate_events (events : list PressingEvent)
           (time_window : Q) : list PressingEvent :=
  match events with
  | [] => events
  | _ =>
      match sort_by_timestamp events with
      | [] => []
      | first :: rest => first :: dedup_loop time_window first rest
      end
  end.

(** [a / b] on one-dimensional arrays: element by element when the
    lengths agree, a one-element array is stretched to the other's length,
    any other pair of shapes raises. *)
Definition broadcast_div (a b : list R) : option (list R) :=
  if Nat.eqb (List.length a) (List.length b)
  then Some (map (fun p => (fst p / snd p)%R) (combine a b))
  else
    match a, b with
    | [x], _ => Some (map (fun y => (x / y)%R) b)
    | _, [y] => Some (map (fun x => (x / y)%R) a)
    | _, _ => None
    end.

(** [_compute_acceleration(velocity, timestamps)]. *)
Definition compute_acceleration (velocity timestamps : list R)
  : option (list R) :=
  let dt :=
    map (fun d => if Reqb d 0 then (33 / 1000)%R else d) (diff timestamps) in
  obind (broadcast_div (diff velocity) dt) (fun accel =>
    Some (0%R :: map (fun a => clip a (-10) 10) accel)).

Section WithSavgol.

(** scipy's [savgol_filter(coords, window, 2, axis=0)]; [None] when it
    raises. *)
Variable savgol_filter : list (R * R) -> Z -> option (list (R * R)).

(** The window of [_smooth_trajectory]: the shorter of the track and
    [config.smoothing_window], made odd. *)
Definition smoothing_window_for (smoothing_window : Z)
           (coords : list (R * R)) : Z :=
  let window := Z.min (Z.of_nat (List.length coords)) smoothing_window in
  if Z.eqb (window mod 2) 0 then (window - 1)%Z else window.

(** [_smooth_trajectory(coords)], reading [config.smoothing_window]. *)
Definition smooth_trajectory (smoothing_window : Z)
           (coords : list (R * R)) : list (R * R) :=
  let window := smoothing_window_for smoothing_window coords in
  if Z.ltb window 3 then coords
  else
    match savgol_filter coords window with
    | Some smoothed => smoothed
    | None => coords
    end.

End WithSavgol.

(** The sprint counter of [compute_player_stats] (lines 763-770): the
    count a list of [is_sprinting] flags adds, starting from the value of
    [in_sprint]. *)
Fixpoint count_sprints (in_sprint : bool) (flags : list bool) : nat :=
  match flags with
  | [] => 0
  | sprinting :: rest =>
      if sprinting && negb in_sprint then S (count_sprints true rest)
      else if negb sprinting then count_sprints false rest
      else count_sprints in_sprint rest
  end.

End SoccerMatchAnalyzer.

(* ================================================================== *)
(** * soccer_analysis_core.py : SoccerMatchAnalyzer.parse_clips *)

Module ClipRanges.

(** One entry of [clips_data]: the values under ['start'] and ['end'] in
    seconds; [None] when the key is missing or its value is not a number,
    so that reading or multiplying it raises. *)
Record clip : Type := mk_clip {
  clip_start : option Q;
  clip_end : option Q
}.

(** The body of the [try] block for one clip: the range it adds, if any;
    an exception skips the clip as well. *)
Definition clip_range (fps : Q) (total_frames : Z) (c : clip)
  : option (Z * Z) :=
  obind (clip_start c) (fun s =>
    let start := Z.max 0 (XThreatGrid.py_int (s * fps)) in
    obind (clip_end c) (fun e =>
      let stop := Z.min total_frames (XThreatGrid.py_int (e * fps)) in
      if Z.geb start stop then None else Some (start, stop))).

Fixpoint clip_ranges (fps : Q) (total_frames : Z) (clips_data : list clip)
  : list (Z * Z) :=
  match clips_data with
  | [] => []
  | c :: rest =>
      match clip_range fps total_frames c with
      | Some r => r :: clip_ranges fps total_frames rest
      | None => clip_ranges fps total_frames rest
      end
  end.

(** [parse_clips(clips_data, fps, total_frames)]; no clips is [[]]. *)
Definition parse_clips (clips_data : list clip) (fps : Q)
           (total_frames : Z) : list (Z * Z) :=
  match clips_data with
  | [] => [(0%Z, total_frames)]
  | _ =>
      match clip_ranges fps total_frames clips_data with
      | [] => [(0%Z, total_frames)]
      | ranges => ranges
      end
  end.

End ClipRanges.

(* ================================================================== *)
(** * soccer_analysis_processor.py : class PassingNetworkAnalyzer *)

Module PassingNetworkAnalyzer.

Import String.

(** [counts[k] += 1] on a [defaultdict(int)], which keeps its keys in
    the order they were first used. *)
Fixpoint bump (k : Z) (counts : list (Z * nat)) : list (Z * nat) :=
  match counts with
  | [] => [(k, 1)]
  | (k', c) :: rest =>
      if Z.eqb k k' then (k', S c) :: rest else (k', c) :: bump k rest
  end.

(** [d.get(k, 0)]. *)
Fixpoint count_of (k : Z) (counts : list (Z * nat)) : nat :=
  match counts with
  | [] => 0
  | (k', c) :: rest => if Z.eqb k k' then c else count_of k rest
  end.

(** [sorted(items, key=lambda x: x[1], reverse=True)]: by count, largest
    first, ties in their original order. *)
Fixpoint insert_desc (x : Z * nat) (l : list (Z * nat)) : list (Z * nat) :=
  match l with
  | [] => [x]
  | h :: rest =>
      if Nat.leb (snd h) (snd x) then x :: l else h :: insert_desc x rest
  end.

Definition sort_desc (l : list (Z * nat)) : list (Z * nat) :=
  fold_right insert_desc [] l.

(** The player a pass counts for under [role]. *)
Definition role_player (role : String.string) (e : PassEvent) : Z :=
  if String.eqb role "passer"%string then passer_id e else receiver_id e.

(** [_find_key_players(passes, role)]. *)
Definition find_key_players (passes : list PassEvent)
           (role : String.string) : list (Z * nat) :=
  let counts :=
    fold_left (fun c e => bump (role_player role e) c) passes [] in
  firstn 5 (sort_desc counts).

(** [graph[p][r] += 1] on the nested [defaultdict]. *)
Fixpoint bump_edge (p r : Z) (graph : list (Z * list (Z * nat)))
  : list (Z * list (Z * nat)) :=
  match graph with
  | [] => [(p, [(r, 1)])]
  | (k, row) :: rest =>
      if Z.eqb p k then (k, bump r row) :: rest
      else (k, row) :: bump_edge p r rest
  end.

(** [_build_graph(passes)]. *)
Definition build_graph (passes : list PassEvent)
  : list (Z * list (Z * nat)) :=
  fold_left (fun g e => bump_edge (passer_id e) (receiver_id e) g) passes [].

(** [graph.get(p, {})]. *)
Fixpoint row_of (p : Z) (graph : list (Z * list (Z * nat)))
  : list (Z * nat) :=
  match graph with
  | [] => []
  | (k, row) :: rest => if Z.eqb p k then row else row_of p rest
  end.

(** [r in graph.get(p, {})]. *)
Definition has_edge (graph : list (Z * list (Z * nat))) (p r : Z) : bool :=
  existsb (fun kv => Z.eqb r (fst kv)) (row_of p graph).

(** The two inner loops of [_find_triangles] for a fixed [p1]. *)
Fixpoint triangles_with (graph : list (Z * list (Z * nat))) (p1 : Z)
         (players : list Z) : list (Z * Z * Z) :=
  match players with
  | [] => []
  | p2 :: rest =>
      map (fun p3 => (p1, p2, p3))
          (filter (fun p3 => has_edge graph p1 p2 && has_edge graph p2 p3
                             && has_edge graph p3 p1) rest)
      ++ triangles_with graph p1 rest
  end.

Fixpoint all_triangles (graph : list (Z * list (Z * nat)))
         (players : list Z) : list (Z * Z * Z) :=
  match players with
  | [] => []
  | p1 :: rest => triangles_with graph p1 rest ++ all_triangles graph rest
  end.

(** [_find_triangles(graph)]. *)
Definition find_triangles (graph : list (Z * list (Z * nat)))
  : list (Z * Z * Z) :=
  firstn 10 (all_triangles graph (map fst graph)).

End PassingNetworkAnalyzer.

(* ================================================================== *)
(** * Properties *)

Lemma Rltb_true (a b : R) : Rltb a b = true <-> (a < b)%R.
Proof. unfold Rltb. destruct (Rlt_dec a b); split; intros; try easy. Qed.

Lemma Rltb_false (a b : R) : Rltb a b = false <-> (b <= a)%R.
Proof.
  unfold Rltb. destruct (Rlt_dec a b); split; intros; try easy; lra.
Qed.

Lemma Rleb_true (a b : R) : Rleb a b = true <-> (a <= b)%R.
Proof. unfold Rleb. destruct (Rle_dec a b); split; intros; try easy. Qed.

Lemma Rleb_false (a b : R) : Rleb a b = false <-> (b < a)%R.
Proof.
  unfold Rleb. destruct (Rle_dec a b); split; intros; try easy; lra.
Qed.

Lemma Reqb_true (a b : R) : Reqb a b = true <-> a = b.
Proof. unfold Reqb. destruct (Req_dec_T a b); split; intros; try easy. Qed.

Lemma Reqb_false (a b : R) : Reqb a b = false <-> a <> b.
Proof. unfold Reqb. destruct (Req_dec_T a b); split; intros; try easy. Qed.

Lemma Qltb_true (a b : Q) : Qltb a b = true <-> (a < b)%Q.
Proof.
  unfold Qltb. rewrite negb_true_iff. split.
  - intros H. apply Qnot_le_lt. intros Hle.
    apply Qle_bool_iff in Hle. congruence.
  - intros H. destruct (Qle_bool b a) eqn:E; [|reflexivity].
    apply Qle_bool_iff in E. exfalso. exact (Qlt_not_le _ _ H E).
Qed.

Lemma Qltb_false (a b : Q) : Qltb a b = false <-> (b <= a)%Q.
Proof.
  unfold Qltb. rewrite negb_false_iff. apply Qle_bool_iff.
Qed.

(** Case split on the first call of a sequence that ran to completion. *)
Tactic Notation "obind_inv" hyp(H) "as" simple_intropattern(p) ident(E) :=
  match type of H with
  | obind ?x _ = Some _ =>
      destruct x as [p|] eqn:E; cbn [obind] in H; [|discriminate H]
  end.

(** ** Track *)

Module TrackFacts.

Import Track.

Section WithFilter.

Variable Feature : Type.
Variable Cov : Type.
Variable kf_fresh : Cov.
Variable kf_predict : kstate * Cov -> kstate * Cov.
Variable kf_update : kstate * Cov -> R * R * R * R -> kstate * Cov.

Local Abbreviation track := (Track.track Feature Cov).

Lemma sqrt_scale_ratio (w h : R) :
  (0 < w)%R -> (0 < h)%R -> sqrt (w * h * (w / h)) = w.
Proof.
  intros Hw Hh.
  replace (w * h * (w / h))%R with (w * w)%R by (field; lra).
  apply sqrt_square; lra.
Qed.

(** C9.  Encoding a box with positive width and height into the filter
    state (centre, scale, ratio) with [update_kf] and reading it back with
    [get_box] gives the box again, over the reals. *)
Theorem box_state_roundtrip (t : track) (xa ya xb yb : R) :
  (xa < xb)%R -> (ya < yb)%R ->
  get_box (update_kf t (xa, ya, xb, yb)) = (xa, ya, xb, yb).
Proof.
  intros Hx Hy.
  unfold get_box, update_kf, to_xysr, set_kf, b0, b1, b2, b3; cbn.
  rewrite sqrt_scale_ratio by lra.
  repeat f_equal; field; lra.
Qed.

Lemma push_feature_length (maxf : nat) (fs : list Feature)
      (feature : option Feature) :
  (List.length fs <= maxf)%nat ->
  (List.length (push_feature maxf fs feature) <= maxf)%nat.
Proof.
  intros Hlen. destruct feature as [f|]; unfold push_feature; [|exact Hlen].
  destruct (Nat.ltb maxf (List.length (fs ++ [f]))) eqn:E.
  - apply Nat.ltb_lt in E. rewrite length_app in E.
    destruct fs as [|a fs']; cbn in *; [lia|].
    rewrite length_app; cbn; lia.
  - apply Nat.ltb_ge in E. exact E.
Qed.

Lemma push_feature_full (maxf : nat) (oldest : Feature)
      (rest : list Feature) (f : Feature) :
  List.length (oldest :: rest) = maxf ->
  push_feature maxf (oldest :: rest) (Some f) = rest ++ [f].
Proof.
  intros Hlen. unfold push_feature.
  replace (Nat.ltb maxf (List.length ((oldest :: rest) ++ [f]))) with true.
  - reflexivity.
  - symmetry. apply Nat.ltb_lt. rewrite length_app. cbn in *. lia.
Qed.

Lemma init_buffer_ok (tid : Z) (bx : Box) (sc : R)
      (feature : option Feature) :
  buffer_ok (init kf_fresh tid bx sc feature).
Proof.
  unfold buffer_ok, init, update_kf, set_kf.
  destruct (to_xysr bx) as [[[x y] s] r]; cbn.
  destruct feature; cbn; split; try reflexivity; lia.
Qed.

Lemma run_op_buffer_ok (t : track) (o : op Feature) :
  buffer_ok t -> buffer_ok (run_op kf_predict kf_update t o).
Proof.
  intros [Hmax Hlen]. destruct o as [|bx sc f|bx].
  - split; assumption.
  - unfold buffer_ok, run_op, update; cbn [features max_features].
    split; [assumption|]. rewrite Hmax.
    apply push_feature_length. exact Hlen.
  - unfold update_kf, set_kf. destruct (to_xysr bx) as [[[x y] s] r]; cbn.
    split; assumption.
Qed.

Lemma run_ops_buffer_ok (os : list (op Feature)) (t : track) :
  buffer_ok t -> buffer_ok (run_ops kf_predict kf_update t os).
Proof.
  revert t. induction os as [|o os IH]; intros t Ht; cbn.
  - exact Ht.
  - apply IH. apply run_op_buffer_ok. exact Ht.
Qed.

(** C10.  After construction and any sequence of [predict], [update] and
    [update_kf] calls the embedding buffer holds at most 100 entries; and
    an [update] that brings an embedding to a buffer of 100 drops the
    oldest entry and puts the new one last. *)
Theorem features_bounded_fifo (tid : Z) (bx : Box) (sc : R)
        (feature : option Feature) (os : list (op Feature)) :
  let t := run_ops kf_predict kf_update (init kf_fresh tid bx sc feature) os in
  (List.length (features t) <= 100)%nat
  /\ forall (bx' : Box) (sc' : R) (f oldest : Feature) (rest : list Feature),
       features t = oldest :: rest ->
       List.length (features t) = 100%nat ->
       features (update kf_update t bx' sc' (Some f)) = rest ++ [f].
Proof.
  intros t.
  assert (Hok : buffer_ok t) by (apply run_ops_buffer_ok, init_buffer_ok).
  destruct Hok as [Hmax Hlen]. split; [exact Hlen|].
  intros bx' sc' f oldest rest Hfs Hfull.
  unfold update; cbn [features]. rewrite Hfs, Hmax. apply push_feature_full.
  rewrite <- Hfs. exact Hfull.
Qed.

End WithFilter.

Lemma box_state_roundtrip_witness :
  get_box (update_kf PlainRun.first_track (10, 20, 30, 60)%R)
  = (10, 20, 30, 60)%R.
Proof. apply box_state_roundtrip; lra. Defined.

(** A track fed 100 embeddings (0, then 99 times 1), then one more. *)
Lemma features_bounded_fifo_witness :
  let bx := (0, 0, 10, 20)%R in
  let t := run_ops PlainRun.kf_predict PlainRun.kf_update
                   (init PlainRun.kf_fresh 1 bx 1%R (Some 0%nat))
                   (repeat (OpUpdate bx 1%R (Some 1%nat)) 99) in
  (List.length (features t) <= 100)%nat
  /\ features (update PlainRun.kf_update t bx 1%R (Some 7%nat))
     = repeat 1%nat 99 ++ [7%nat].
Proof.
  intros bx t.
  pose proof (features_bounded_fifo nat unit PlainRun.kf_fresh
                PlainRun.kf_predict PlainRun.kf_update 1 bx 1%R
                (Some 0%nat) (repeat (OpUpdate bx 1%R (Some 1%nat)) 99))
    as [Hlen Hfifo].
  split; [exact Hlen|].
  apply (Hfifo bx 1%R 7%nat 0%nat (repeat 1%nat 99)); reflexivity.
Defined.

End TrackFacts.

(** ** HybridTracker *)

Module HybridTrackerFacts.

Import Track HybridTracker.

Section WithModels.

Variable Feature : Type.
Variable Cov : Type.
Variable kf_fresh : Cov.
Variable kf_predict : kstate * Cov -> kstate * Cov.
Variable kf_update : kstate * Cov -> R * R * R * R -> kstate * Cov.
Variable Frame : Type.
Variable extract_features : Frame -> list Box -> list Feature.
Variable reid_row : list Feature -> list Feature -> list R.
Variable linear_sum_assignment : list (list R) -> list (nat * nat).

Local Abbreviation track := (Track.track Feature Cov).
Local Abbreviation tracker := (HybridTracker.tracker Feature Cov).
Local Abbreviation update :=
  (HybridTracker.update Feature Cov kf_fresh kf_predict kf_update Frame
     extract_features reid_row linear_sum_assignment).
Local Abbreviation associate :=
  (HybridTracker.associate Feature Cov kf_fresh kf_predict kf_update Frame
     extract_features reid_row linear_sum_assignment).
Local Abbreviation reachable :=
  (HybridTracker.reachable Feature Cov kf_fresh kf_predict kf_update Frame
     extract_features reid_row linear_sum_assignment).

Local Open Scope Z_scope.

(** A track that has been seen or missed a non-negative number of frames. *)
Local Abbreviation fresh_enough :=
  (fun t : track => 0 <= time_since_update t).

Lemma init_fields (tid : Z) (bx : Box) (sc : R) (feat : option Feature) :
  hits (Track.init kf_fresh tid bx sc feat) = 1
  /\ time_since_update (Track.init kf_fresh tid bx sc feat) = 0.
Proof.
  unfold Track.init, update_kf, set_kf.
  destruct (to_xysr bx) as [[[x y] s] r]. split; reflexivity.
Qed.

Lemma predict_all_fresh (ts : list track) :
  Forall fresh_enough ts ->
  Forall fresh_enough (predict_all Feature Cov kf_predict ts).
Proof.
  intros H. unfold predict_all. apply Forall_map.
  eapply Forall_impl; [|exact H]. intros t Ht; cbn in *. lia.
Qed.

Lemma set_nth_Forall (P : track -> Prop) (ts : list track) (i : nat)
      (v : track) :
  Forall P ts -> P v -> Forall P (set_nth Feature Cov ts i v).
Proof.
  intros Hts Hv. revert i.
  induction Hts as [|t ts' Ht Hts' IH]; intros i; cbn.
  - destruct i; constructor.
  - destruct i; constructor; auto.
Qed.

Lemma set_nth_length (ts : list track) (i : nat) (v : track) :
  List.length (set_nth Feature Cov ts i v) = List.length ts.
Proof.
  revert i. induction ts as [|t ts' IH]; intros i; cbn.
  - destruct i; reflexivity.
  - destruct i; cbn; [reflexivity|]. rewrite IH. reflexivity.
Qed.

Lemma fold_update_matched_none (dets : list detection)
      (feats : list Feature) (ms : list (nat * nat)) :
  fold_left (update_matched Feature Cov kf_update dets feats) ms None = None.
Proof. induction ms as [|m ms IH]; cbn; [reflexivity|exact IH]. Qed.

Lemma fold_update_matched_keeps (dets : list detection)
      (feats : list Feature) (ms : list (nat * nat))
      (ts ts' : list track) :
  fold_left (update_matched Feature Cov kf_update dets feats) ms (Some ts)
  = Some ts' ->
  (Forall fresh_enough ts -> Forall fresh_enough ts')
  /\ List.length ts' = List.length ts.
Proof.
  revert ts. induction ms as [|m ms IH]; intros ts Hfold; cbn in Hfold.
  - injection Hfold as <-. split; [auto|reflexivity].
  - destruct (nth_error ts (fst m)) as [t|] eqn:Et; cbn in Hfold;
      [|rewrite fold_update_matched_none in Hfold; discriminate].
    destruct (nth_error dets (snd m)) as [d|] eqn:Ed; cbn in Hfold;
      [|rewrite fold_update_matched_none in Hfold; discriminate].
    destruct (feat_at Feature feats (snd m)) as [feat|] eqn:Ef; cbn in Hfold;
      [|rewrite fold_update_matched_none in Hfold; discriminate].
    apply IH in Hfold. destruct Hfold as [Hall Hlen]. split.
    + intros Hts. apply Hall. apply set_nth_Forall; [exact Hts|].
      cbn. lia.
    + rewrite Hlen. apply set_nth_length.
Qed.

Lemma spawn_fields (matched : list nat) (feats : list Feature)
      (ds : list detection) (i : nat) (nid nid' : Z) (nts : list track) :
  spawn Feature Cov kf_fresh matched feats ds i nid = Some (nts, nid') ->
  Forall (fun t : track => hits t = 1 /\ time_since_update t = 0) nts.
Proof.
  revert i nid nid' nts.
  induction ds as [|d ds IH]; intros i nid nid' nts Hs; cbn in Hs.
  - injection Hs as <- _. constructor.
  - destruct (existsb (Nat.eqb i) matched).
    + eapply IH. exact Hs.
    + destruct (feat_at Feature feats i) as [feat|]; cbn in Hs;
        [|discriminate].
      destruct (spawn Feature Cov kf_fresh matched feats ds (S i) (nid + 1))
        as [[nts0 nid0]|] eqn:Erec; cbn in Hs; [|discriminate].
      injection Hs as <- _. constructor.
      * apply init_fields.
      * eapply IH. exact Erec.
Qed.

(** What the association steps hand to the removal step. *)
Lemma associate_fields (T : tracker) (detections : list detection)
      (frame : Frame) (ts nts : list track) (nid : Z) :
  associate T detections frame = Some (ts, nts, nid) ->
  (Forall fresh_enough (tracks T) -> Forall fresh_enough ts)
  /\ List.length ts = List.length (tracks T)
  /\ Forall (fun t : track => hits t = 1 /\ time_since_update t = 0) nts.
Proof.
  unfold HybridTracker.associate. intros H.
  obind_inv H as a E1.
  obind_inv H as matches E2.
  obind_inv H as ts0 Efold.
  obind_inv H as [nts0 nid0] Espawn.
  injection H as <- <- <-.
  apply fold_update_matched_keeps in Efold. destruct Efold as [Hall Hlen].
  split; [|split].
  - intros HT. apply Hall. apply predict_all_fresh. exact HT.
  - rewrite Hlen. unfold predict_all. apply length_map.
  - eapply spawn_fields. exact Espawn.
Qed.

Lemma update_unfold (T T' : tracker) (detections : list detection)
      (frame : Frame) (out : list (Box * Z * R * Z)) :
  update T detections frame = Some (T', out) ->
  exists ts nts nid,
    associate T detections frame = Some (ts, nts, nid)
    /\ T' = set_tracks T (remove_dead T (ts ++ nts)) nid
    /\ out = active_results (remove_dead T (ts ++ nts)).
Proof.
  unfold HybridTracker.update. intros H.
  obind_inv H as [[ts nts] nid] E.
  injection H as <- <-. exists ts, nts, nid. auto.
Qed.

(** Every state of a run: [max_age] is twice the frame rate, and each
    track has missed a non-negative number of frames below [max_age]. *)
Lemma reachable_inv (T : tracker) :
  reachable T ->
  max_age T = frame_rate T * 2
  /\ Forall (fun t : track => 0 <= time_since_update t < max_age T)
            (tracks T).
Proof.
  induction 1 as [fr|T dets frame T' out Hreach [IHage IHts] Hupd].
  - cbn. split; [reflexivity|constructor].
  - apply update_unfold in Hupd.
    destruct Hupd as (ts & nts & nid & Hassoc & -> & _).
    apply associate_fields in Hassoc. destruct Hassoc as (Hts & _ & Hnts).
    cbn. split; [exact IHage|].
    assert (Hall : Forall fresh_enough (ts ++ nts)).
    { apply Forall_app. split.
      - apply Hts. eapply Forall_impl; [|exact IHts]. cbn. intros; lia.
      - eapply Forall_impl; [|exact Hnts]. cbn. intros t [_ ->]. lia. }
    unfold remove_dead. apply Forall_forall. intros t Hin.
    apply filter_In in Hin. destruct Hin as [Hin Hlt].
    apply Z.ltb_lt in Hlt.
    rewrite Forall_forall in Hall. specialize (Hall t Hin). cbn in Hall. lia.
Qed.

(** A frame without detections only predicts and prunes. *)
Lemma update_no_detections (T : tracker) (frame : Frame) :
  associate T [] frame
  = Some (predict_all Feature Cov kf_predict (tracks T), [], next_id T).
Proof.
  unfold HybridTracker.associate, stage1, stage2. cbn. reflexivity.
Qed.

(** C1 (amended).  In every state of a run [max_age] is twice the frame
    rate, and the removal step of [update] keeps exactly the tracks whose
    time since update is strictly below [max_age]: a track that reaches
    [max_age] is dropped. *)
Theorem removal_keeps_below_max_age (T T' : tracker)
        (detections : list detection) (frame : Frame)
        (out : list (Box * Z * R * Z)) :
  reachable T ->
  update T detections frame = Some (T', out) ->
  max_age T = frame_rate T * 2
  /\ exists ts nts nid,
       associate T detections frame = Some (ts, nts, nid)
       /\ forall t, In t (ts ++ nts) ->
            (In t (tracks T') <-> time_since_update t < max_age T).
Proof.
  intros Hreach Hupd.
  split; [apply (reachable_inv T Hreach)|].
  apply update_unfold in Hupd.
  destruct Hupd as (ts & nts & nid & Hassoc & -> & _).
  exists ts, nts, nid. split; [exact Hassoc|].
  intros t Hin. cbn. unfold remove_dead. rewrite filter_In, Z.ltb_lt.
  tauto.
Qed.

End WithModels.

End HybridTrackerFacts.

(** ** The tracker on concrete frames *)

Module PlainRunFacts.

Import Track HybridTracker PlainRun.

Local Open Scope Z_scope.

Lemma player_is_confident (T : tracker) :
  conf_thresh T = (5 / 10)%R -> filter_dets T [player] = [player].
Proof.
  intros Hc. unfold filter_dets. cbn [filter].
  rewrite (proj2 (Rleb_true _ _)); [reflexivity|].
  rewrite Hc. cbn. lra.
Qed.

Lemma seen_fields (n : nat) :
  max_features (seen n) = 100%nat
  /\ (1 <= List.length (features (seen n)))%nat
  /\ hits (seen n) = Z.of_nat n + 1
  /\ time_since_update (seen n) = 0.
Proof.
  induction n as [|n (Hmax & Hlen & Hhits & Htsu)].
  - cbn. repeat split; lia.
  - change (seen (S n))
      with (Track.update kf_update (fst (Track.predict kf_predict (seen n)))
              (det_box player) (det_score player) (Some 0%nat)).
    unfold Track.update, Track.predict.
    cbn [fst features max_features hits time_since_update].
    repeat split; try assumption; try lia.
    rewrite Hmax. unfold push_feature.
    destruct (features (seen n)) as [|f fs]; [cbn in Hlen; lia|].
    destruct (Nat.ltb _ _); cbn; rewrite ?length_app; cbn; lia.
Qed.

Lemma associate_followed (n : nat) :
  associate (followed n) [player] tt = Some ([seen (S n)], [], 2).
Proof.
  unfold associate, HybridTracker.associate.
  rewrite player_is_confident by reflexivity.
  cbn.
  assert (Hrow : match features (seen n) with
                 | [] => [1%R]
                 | _ :: _ => [0%R]
                 end = [0%R]).
  { destruct (features (seen n)) eqn:E; [|reflexivity].
    pose proof (seen_fields n) as (_ & Hlen & _). rewrite E in Hlen.
    cbn in Hlen. lia. }
  rewrite Hrow. cbn.
  rewrite (proj2 (Rltb_true _ _)) by lra.
  reflexivity.
Qed.

Lemma update_followed (n : nat) :
  update (followed n) [player] tt
  = Some (followed (S n), active_results [seen (S n)]).
Proof.
  unfold update, HybridTracker.update.
  fold (associate (followed n) [player] tt).
  rewrite associate_followed. cbn [obind app].
  unfold remove_dead. cbn [filter].
  destruct (seen_fields (S n)) as (_ & _ & _ & ->).
  reflexivity.
Qed.

Lemma followed_reachable (n : nat) : reachable (followed n).
Proof.
  induction n as [|n IH].
  - apply (reach_update _ _ _ _ _ _ _ _ _ (HybridTracker.init Feature Cov 30)
                        [player] tt (followed 0) []).
    + apply reach_init.
    + unfold HybridTracker.update, HybridTracker.associate.
      rewrite player_is_confident by reflexivity. reflexivity.
  - eapply reach_update; [exact IH|]. apply update_followed.
Qed.

Lemma missed_fields (n : nat) :
  time_since_update (missed n) = Z.of_nat n /\ hits (missed n) = 1.
Proof.
  induction n as [|n [Htsu Hhits]].
  - split; reflexivity.
  - change (missed (S n)) with (fst (Track.predict kf_predict (missed n))).
    unfold Track.predict. cbn [fst time_since_update hits]. split; lia.
Qed.

Lemma associate_lone (n : nat) :
  associate (lone n) [] tt = Some ([missed (S n)], [], 2).
Proof.
  unfold associate.
  rewrite HybridTrackerFacts.update_no_detections. reflexivity.
Qed.

(** While fewer than 60 frames have been missed the track stays. *)
Lemma update_lone (n : nat) :
  Z.of_nat (S n) < 60 -> update (lone n) [] tt = Some (lone (S n), []).
Proof.
  intros Hn. unfold update, HybridTracker.update.
  fold (associate (lone n) [] tt).
  rewrite associate_lone. cbn [obind app].
  unfold remove_dead, active_results. cbn [filter].
  destruct (missed_fields (S n)) as [Htsu Hhits].
  replace (Z.ltb (time_since_update (missed (S n))) (max_age (lone n)))
    with true.
  - cbn [filter]. unfold confirmed. rewrite Htsu, Hhits.
    replace (Z.ltb (Z.of_nat (S n)) 1) with false
      by (symmetry; apply Z.ltb_ge; lia).
    reflexivity.
  - symmetry. apply Z.ltb_lt. rewrite Htsu. cbn. lia.
Qed.

(** At the 60th missed frame the track is dropped. *)
Lemma update_lone_59 :
  update (lone 59) [] tt
  = Some (set_tracks (lone 59) [] 2, []).
Proof.
  unfold update, HybridTracker.update.
  fold (associate (lone 59) [] tt).
  rewrite associate_lone. cbn [obind app].
  unfold remove_dead, active_results. cbn [filter].
  destruct (missed_fields 60) as [Htsu _].
  rewrite Htsu. reflexivity.
Qed.

Lemma lone_reachable (n : nat) : (n <= 59)%nat -> reachable (lone n).
Proof.
  induction n as [|n IH]; intros Hn.
  - apply (followed_reachable 0).
  - eapply reach_update; [apply IH; lia|]. apply update_lone. lia.
Qed.

(** C1, as stated, fails: after 60 missed frames at 30 fps the time since
    update equals [max_age] = 60, and the track is removed. *)
Lemma removal_at_max_age_counterexample :
  ~ kept_through_max_age Feature Cov kf_fresh kf_predict kf_update Frame
      extract_features reid_row linear_sum_assignment (lone 59) [] tt.
Proof.
  intros H.
  specialize (H (lone_reachable 59 (le_n 59)) [missed 60] [] 2
                (set_tracks (lone 59) [] 2) []
                (associate_lone 59) update_lone_59
                (missed 60) (or_introl eq_refl)).
  destruct H as [_ H]. apply H.
  destruct (missed_fields 60) as [-> _]. cbn. lia.
Qed.

Lemma removal_keeps_below_max_age_witness :
  max_age (lone 0) = frame_rate (lone 0) * 2
  /\ exists ts nts nid,
       associate (lone 0) [] tt = Some (ts, nts, nid)
       /\ forall t, In t (ts ++ nts) ->
            (In t (tracks (lone 1)) <-> time_since_update t < max_age (lone 0)).
Proof.
  exact (HybridTrackerFacts.removal_keeps_below_max_age
           Feature Cov kf_fresh kf_predict kf_update Frame
           extract_features reid_row linear_sum_assignment
           (lone 0) (lone 1) [] tt []
           (lone_reachable 0 (Nat.le_0_l 59))
           (update_lone 0 ltac:(cbn; lia))).
Defined.

(** On its third matched frame the player's track is returned. *)
Example third_frame_emits :
  active_results [seen 3] = [result_row (seen 3)].
Proof.
  unfold active_results. cbn [filter].
  unfold confirmed. destruct (seen_fields 3) as (_ & _ & -> & ->).
  reflexivity.
Qed.

(** On its second matched frame it is not. *)
Example second_frame_silent : active_results [seen 1] = [].
Proof.
  unfold active_results. cbn [filter].
  unfold confirmed. destruct (seen_fields 1) as (_ & _ & -> & ->).
  reflexivity.
Qed.


End PlainRunFacts.

(** ** HomographyTransform *)

Module HomographyFacts.

Import Ascii HomographyTransform.

Local Open Scope Q_scope.

(** Over exact rationals: [transform] returns a point for every input.
    Disabled, it gives the input back.  Enabled, with third component [w] of
    matrix * (x, y, 1): it gives the input back when |w| < 1e-10, and
    (v0/w, v1/w) otherwise, where [w] is then not zero.  Whatever the
    transform holds, the result is the input or such a quotient with
    1e-10 <= |w|. *)
Lemma transform_cases (h : t) (x y : Q) :
  (enabled h = false -> transform h x y = (x, y))
  /\ (forall m v0 v1 w rest,
        enabled h = true ->
        matrix h = Some m ->
        dot m [x; y; 1] = Some (v0 :: v1 :: w :: rest) ->
        (Qabs w < 1 # 10000000000 -> transform h x y = (x, y))
        /\ (~ Qabs w < 1 # 10000000000 ->
            ~ w == 0 /\ transform h x y = (v0 / w, v1 / w)))
  /\ (transform h x y = (x, y)
      \/ exists m v0 v1 w rest,
           enabled h = true /\ matrix h = Some m
           /\ dot m [x; y; 1] = Some (v0 :: v1 :: w :: rest)
           /\ 1 # 10000000000 <= Qabs w
           /\ transform h x y = (v0 / w, v1 / w)).
Proof.
  split; [|split].
  - intros Hd. unfold transform. rewrite Hd. reflexivity.
  - intros m v0 v1 w rest He Hm Hdot. unfold transform, transform_try.
    rewrite He, Hm. cbn [negb obind]. rewrite Hdot. cbn [obind nth_error].
    split.
    + intros Hw. apply Qltb_true in Hw. rewrite Hw. reflexivity.
    + intros Hw. destruct (Qltb (Qabs w) (1 # 10000000000)) eqn:E.
      * apply Qltb_true in E. contradiction.
      * split; [|reflexivity]. intros Hz. apply Hw.
        rewrite Hz. reflexivity.
  - unfold transform, transform_try.
    destruct (enabled h) eqn:He; cbn [negb]; [|left; reflexivity].
    destruct (matrix h) as [m|] eqn:Hm; cbn [obind]; [|left; reflexivity].
    destruct (dot m [x; y; 1]) as [v|] eqn:Hdot; cbn [obind];
      [|left; reflexivity].
    destruct v as [|v0 [|v1 [|w rest]]]; cbn [obind nth_error];
      try (left; reflexivity).
    destruct (Qltb (Qabs w) (1 # 10000000000)) eqn:E; [left; reflexivity|].
    right. exists m, v0, v1, w, rest. apply Qltb_false in E.
    repeat split; auto.
Qed.

Lemma transform_cases_witness :
  let h := mk (Some [[2; 0; 1]; [0; 2; 3]; [0; 0; 1]]) true in
  transform h 5 7 = (11 / 1, 17 / 1).
Proof.
  intros h.
  refine (proj2 (proj2 (proj1 (proj2 (transform_cases h 5 7))
                          [[2; 0; 1]; [0; 2; 3]; [0; 0; 1]] 11 17 1 []
                          eq_refl eq_refl _) _)).
  - vm_compute. reflexivity.
  - vm_compute. discriminate.
Defined.

Lemma reshape_is_3x3 (values : list Q) :
  List.length values = 9%nat -> shape_is_3x3 (reshape_3x3 values) = true.
Proof.
  intros Hlen.
  do 9 (destruct values as [|? values]; [discriminate Hlen|]).
  destruct values; [reflexivity|discriminate Hlen].
Qed.

Section WithFloat.

Variable py_float : String.string -> option Q.

Local Abbreviation from_string := (HomographyTransform.from_string py_float).

Lemma from_string_parsed (s : String.string) (values : list Q) :
  map_raise py_float (split ","%char s) = Some values ->
  from_string s
  = if Nat.eqb (List.length values) 9
       && negb (allclose_zero (reshape_3x3 values))
    then mk (Some (reshape_3x3 values)) true
    else mk None false.
Proof.
  intros Hparse. unfold HomographyTransform.from_string, from_string_try.
  rewrite Hparse. cbn [obind].
  destruct (Nat.eqb (List.length values) 9) eqn:Elen; cbn [negb andb];
    [|reflexivity].
  apply Nat.eqb_eq in Elen. unfold init, validate_matrix.
  rewrite (reshape_is_3x3 values Elen). cbn [andb].
  destruct (allclose_zero (reshape_3x3 values)); reflexivity.
Qed.

(** C7.  [from_string] returns a transform for every string.  The
    transform is enabled exactly when the comma-separated pieces all read
    as numbers, there are 9 of them, and the 3x3 matrix they form is not
    all (close to) zero; it then holds that matrix.  In every other case
    it is the disabled transform, on which [transform] is the identity. *)
Theorem from_string_enabled_iff (s : String.string) :
  (enabled (from_string s) = true
   <-> exists values,
         map_raise py_float (split ","%char s) = Some values
         /\ List.length values = 9%nat
         /\ allclose_zero (reshape_3x3 values) = false)
  /\ (forall values,
        map_raise py_float (split ","%char s) = Some values ->
        List.length values = 9%nat ->
        allclose_zero (reshape_3x3 values) = false ->
        from_string s = mk (Some (reshape_3x3 values)) true)
  /\ (enabled (from_string s) = false ->
      from_string s = mk None false
      /\ forall x y, transform (from_string s) x y = (x, y)).
Proof.
  destruct (map_raise py_float (split ","%char s)) as [values|] eqn:Hparse.
  - rewrite (from_string_parsed s values Hparse).
    destruct (Nat.eqb (List.length values) 9) eqn:Elen;
      destruct (allclose_zero (reshape_3x3 values)) eqn:Eclose;
      cbn [negb andb enabled];
      first [apply Nat.eqb_eq in Elen | apply Nat.eqb_neq in Elen].
    all: split; [split|split].
    all: try discriminate; try reflexivity.
    all: try (intros (v & Hv & Hl & Hc); injection Hv as <-; congruence).
    all: try (intros v Hv Hl Hc; injection Hv as <-; congruence).
    all: try (intros _; split; reflexivity).
    intros _. exists values. auto.
  - assert (Hs : from_string s = mk None false).
    { unfold HomographyTransform.from_string, from_string_try.
      rewrite Hparse. reflexivity. }
    rewrite Hs. cbn [enabled]. split; [split|split].
    + discriminate.
    + intros (v & Hv & _). discriminate.
    + intros v Hv. discriminate.
    + intros _. split; reflexivity.
Qed.

End WithFloat.

End HomographyFacts.

(** [from_string] on a few strings, read with [decimal_float]. *)
Module HomographyExamples.

Import String HomographyTransform.

Local Open Scope string_scope.

Example identity_matrix_enabled :
  from_string decimal_float "1,0,0, 0,1,0, 0,0,1"
  = mk (Some [[1; 0; 0]; [0; 1; 0]; [0; 0; 1]]%Q) true.
Proof. vm_compute. reflexivity. Qed.

Example eight_values_disabled :
  from_string decimal_float "1,0,0,0,1,0,0,0" = mk None false.
Proof. vm_compute. reflexivity. Qed.

Example ten_values_disabled :
  from_string decimal_float "1,0,0,0,1,0,0,0,1,5" = mk None false.
Proof. vm_compute. reflexivity. Qed.

Example zero_matrix_disabled :
  from_string decimal_float "0,0,0,0,0,0,0,0,0" = mk None false.
Proof. vm_compute. reflexivity. Qed.

Example not_a_number_disabled :
  from_string decimal_float "1,0,0,0,x,0,0,0,1" = mk None false.
Proof. vm_compute. reflexivity. Qed.

Example empty_string_disabled :
  from_string decimal_float EmptyString = mk None false.
Proof. vm_compute. reflexivity. Qed.

Example from_string_enabled_iff_witness :
  from_string decimal_float "2,0,1,0,2,3,0,0,1"
  = mk (Some (reshape_3x3 [2; 0; 1; 0; 2; 3; 0; 0; 1]%Q)) true.
Proof.
  apply (proj1 (proj2 (HomographyFacts.from_string_enabled_iff
                         decimal_float "2,0,1,0,2,3,0,0,1"))).
  - vm_compute. reflexivity.
  - reflexivity.
  - vm_compute. reflexivity.
Defined.

End HomographyExamples.

(** ** HomographyTransform on binary64 numbers *)

Module HomographyDoubleFacts.

Import PrimFloat HomographyDouble.

Local Open Scope float_scope.
Local Set Warnings "-inexact-float".

(** The guard lets no zero through, of either sign. *)
Lemma guard_excludes_zero (w : float) :
  (abs w <? 1e-10) = false -> w <> zero /\ w <> neg_zero.
Proof.
  intros Hw. split; intros ->; vm_compute in Hw; discriminate Hw.
Qed.

Section WithDot.

Variable np_dot : ndarray -> list float -> option (list float).

Local Abbreviation transform := (HomographyDouble.transform np_dot).

(** C6 (amended).  [transform] returns a point for every input and never
    divides by a [w] with |w| < 1e-10, so never by zero.  Disabled, it gives
    the input back.  Enabled, with third component [w] of
    matrix * (x, y, 1): it gives the input back when |w| < 1e-10, and
    (v0/w, v1/w) otherwise, where [w] is then not a zero of either sign.
    Whatever the transform holds, the result is the input or such a
    quotient.  Nothing is said about the quotient being finite. *)
Theorem transform_guards_divide (h : t) (x y : float) :
  (enabled h = false -> transform h x y = (x, y))
  /\ (forall m v0 v1 w rest,
        enabled h = true ->
        matrix h = Some m ->
        np_dot m [x; y; 1] = Some (v0 :: v1 :: w :: rest) ->
        ((abs w <? 1e-10) = true -> transform h x y = (x, y))
        /\ ((abs w <? 1e-10) = false ->
            w <> zero /\ w <> neg_zero
            /\ transform h x y = (v0 / w, v1 / w)))
  /\ (transform h x y = (x, y)
      \/ exists m v0 v1 w rest,
           enabled h = true /\ matrix h = Some m
           /\ np_dot m [x; y; 1] = Some (v0 :: v1 :: w :: rest)
           /\ (abs w <? 1e-10) = false
           /\ transform h x y = (v0 / w, v1 / w)).
Proof.
  unfold HomographyDouble.transform, transform_try.
  split; [|split].
  - intros ->. reflexivity.
  - intros m v0 v1 w rest -> -> Hdot. cbn [negb obind].
    rewrite Hdot. cbn [obind nth_error]. split; intros Hw; rewrite Hw.
    + reflexivity.
    + destruct (guard_excludes_zero w Hw) as [Hz Hnz]. auto.
  - destruct (enabled h); cbn [negb]; [|left; reflexivity].
    destruct (matrix h) as [m|]; cbn [obind]; [|left; reflexivity].
    destruct (np_dot m [x; y; 1]) as [[|v0 [|v1 [|w rest]]]|] eqn:Hdot;
      cbn [obind nth_error]; try (left; reflexivity).
    destruct (abs w <? 1e-10) eqn:Hw; [left; reflexivity|].
    right. exists m, v0, v1, w, rest. auto.
Qed.

End WithDot.

Lemma transform_guards_divide_witness :
  let h := mk (Some [[2; 0; 1]; [0; 2; 3]; [0; 0; 1]]) true in
  1 <> zero /\ 1 <> neg_zero
  /\ HomographyDouble.transform dot h 5 7 = (11 / 1, 17 / 1).
Proof.
  intros h.
  exact (proj2 (proj1 (proj2 (transform_guards_divide dot h 5 7))
                  [[2; 0; 1]; [0; 2; 3]; [0; 0; 1]] 11 17 1 []
                  eq_refl eq_refl eq_refl) eq_refl).
Defined.

(** The calibration [steep] is accepted by the constructor and all its
    entries are finite. *)
Lemma steep_accepted :
  init (Some steep) = Some (mk (Some steep) true)
  /\ forallb (forallb is_finite) steep = true.
Proof. split; reflexivity. Qed.

(** Under [steep] the pixel (1, 1) has w = 1e-9, which passes the guard,
    and the first quotient 1e300 / 1e-9 overflows. *)
Example steep_overflows :
  dot steep [1; 1; 1] = Some [1e300; 1; 1e-9]
  /\ (abs 1e-9 <? 1e-10) = false
  /\ fst (HomographyDouble.transform dot (mk (Some steep) true) 1 1)
     = infinity.
Proof. repeat split; reflexivity. Qed.

(** C6 as first stated fails: [transform] sends the finite pixel (1, 1)
    to a point with an infinite coordinate. *)
Lemma divide_overflow_counterexample : ~ never_inf_nan steep 1 1.
Proof.
  intros Hclaim.
  specialize (Hclaim (mk (Some steep) true) eq_refl eq_refl eq_refl).
  vm_compute in Hclaim. discriminate Hclaim.
Qed.

(** A NaN entry passes the constructor and the guard alike, and comes out
    of the divide. *)
Example nan_entry_passes :
  let m := [[nan; 0; 0]; [0; 1; 0]; [0; 0; 1]] in
  init (Some m) = Some (mk (Some m) true)
  /\ is_nan (fst (HomographyDouble.transform dot (mk (Some m) true) 1 1))
     = true.
Proof. split; reflexivity. Qed.

End HomographyDoubleFacts.

(** ** XThreatGrid *)

Module XThreatFacts.

Import XThreatGrid.

Local Open Scope Q_scope.

Lemma nondecreasing_head (l : list Q) (a : Q) :
  nondecreasing (a :: l) = true ->
  forall j b, nth_error (a :: l) j = Some b -> a <= b.
Proof.
  revert a. induction l as [|c l IH]; intros a Hs j b Hj.
  - destruct j as [|[|j]]; cbn in Hj; try discriminate.
    injection Hj as <-. apply Qle_refl.
  - cbn [nondecreasing] in Hs. apply andb_true_iff in Hs.
    destruct Hs as [Hac Hrest]. apply Qle_bool_iff in Hac.
    destruct j as [|j]; cbn in Hj.
    + injection Hj as <-. apply Qle_refl.
    + eapply Qle_trans; [exact Hac|]. eapply IH; eauto.
Qed.

Lemma nondecreasing_nth (l : list Q) :
  nondecreasing l = true ->
  forall i j a b,
    (i <= j)%nat -> nth_error l i = Some a -> nth_error l j = Some b ->
    a <= b.
Proof.
  induction l as [|c l IH]; intros Hs i j a b Hij Hi Hj.
  - destruct i; discriminate.
  - destruct i as [|i].
    + cbn in Hi. injection Hi as <-. eapply nondecreasing_head; eauto.
    + destruct j as [|j]; [lia|]. cbn in Hi, Hj.
      eapply (IH ltac:(destruct l; [reflexivity|
                cbn [nondecreasing] in Hs; apply andb_true_iff in Hs;
                apply Hs]) i j); eauto. lia.
Qed.

Lemma grid_rows_nondecreasing (fl fw : Q) :
  forallb nondecreasing (grid (init fl fw)) = true.
Proof. vm_compute. reflexivity. Qed.

Lemma py_int_floor (q : Q) : 0 <= q -> py_int q = Qfloor q.
Proof.
  destruct q as [n d]. unfold Qle, py_int, Qfloor; cbn. intros Hn.
  apply Z.quot_div_nonneg; lia.
Qed.

Lemma clip_between (q lo hi : Q) : lo <= hi -> lo <= clip q lo hi <= hi.
Proof.
  intros H. unfold clip. split.
  - apply Q.min_glb; [apply Q.le_max_r|exact H].
  - apply Q.le_min_r.
Qed.

Lemma clip_monotone (p q lo hi : Q) :
  p <= q -> clip p lo hi <= clip q lo hi.
Proof.
  intros H. unfold clip.
  apply Q.min_le_compat_r. apply Q.max_le_compat_r. exact H.
Qed.

Lemma grid_rows_shape (fl fw : Q) :
  List.length (grid (init fl fw)) = 8%nat
  /\ forallb (fun r => Nat.eqb (List.length r) 12) (grid (init fl fw)) = true.
Proof. split; reflexivity. Qed.

Lemma item_nonneg {A : Type} (l : list A) (i : Z) :
  (0 <= i)%Z -> item l i = nth_error l (Z.to_nat i).
Proof.
  intros Hi. unfold item.
  replace (Z.ltb i 0) with false by (symmetry; apply Z.ltb_ge; lia).
  reflexivity.
Qed.

(** The index computed from a coordinate: absent when the cell size is 0,
    otherwise the floor of the clipped quotient. *)
Lemma cell_index_value (v extent cells last : Q) :
  ~ cells == 0 ->
  0 <= last ->
  cell_index v extent cells last
  = if Qeq_bool (extent / cells) 0 then None
    else Some (Qfloor (clip (v / (extent / cells)) 0 last)).
Proof.
  intros Hcells Hlast. unfold cell_index, py_div.
  destruct (Qeq_bool cells 0) eqn:Ec.
  - apply Qeq_bool_iff in Ec. contradiction.
  - cbn [obind]. destruct (Qeq_bool (extent / cells) 0); cbn [obind];
      [reflexivity|].
    rewrite py_int_floor; [reflexivity|].
    apply (clip_between _ 0 last Hlast).
Qed.

Lemma floor_clip_range (q : Q) (last : Z) :
  (0 <= last)%Z ->
  (0 <= Qfloor (clip q 0 (inject_Z last)) <= last)%Z.
Proof.
  intros Hlast.
  assert (Hl : 0 <= inject_Z last).
  { change 0 with (inject_Z 0). rewrite <- Zle_Qle. exact Hlast. }
  destruct (clip_between q 0 (inject_Z last) Hl) as [Hlo Hhi].
  split.
  - change 0%Z with (Qfloor 0). apply Qfloor_resp_le. exact Hlo.
  - rewrite <- (Qfloor_Z last) at 2. apply Qfloor_resp_le. exact Hhi.
Qed.

(** C8.  On a pitch of non-negative length the xThreat value does not
    decrease with x: for a fixed y and x1 <= x2,
    [get_value x1 y <= get_value x2 y]. *)
Theorem get_value_monotone (fl fw x1 x2 y : Q) :
  0 <= fl ->
  x1 <= x2 ->
  get_value (init fl fw) x1 y <= get_value (init fl fw) x2 y.
Proof.
  intros Hfl Hx. unfold get_value, get_value_try.
  change (field_length (init fl fw)) with fl.
  change (field_width (init fl fw)) with fw.
  rewrite !cell_index_value by (try discriminate; intros H; discriminate H).
  destruct (Qeq_bool (fl / 12) 0) eqn:Esize; cbn [obind];
    [apply Qle_refl|].
  destruct (Qeq_bool (fw / 8) 0) eqn:Erow; cbn [obind]; [apply Qle_refl|].
  apply Qeq_bool_neq in Esize.
  assert (Hsize : 0 < fl / 12).
  { apply Qlt_shift_div_l; [reflexivity|].
    destruct (Qle_lt_or_eq _ _ Hfl) as [Hlt|Heq].
    - rewrite Qmult_0_l. exact Hlt.
    - exfalso. apply Esize. rewrite <- Heq. reflexivity. }
  set (col1 := Qfloor (clip (x1 / (fl / 12)) 0 11)).
  set (col2 := Qfloor (clip (x2 / (fl / 12)) 0 11)).
  set (row := Qfloor (clip (y / (fw / 8)) 0 7)).
  assert (Hc1 : (0 <= col1 <= 11)%Z) by (apply (floor_clip_range _ 11); lia).
  assert (Hc2 : (0 <= col2 <= 11)%Z) by (apply (floor_clip_range _ 11); lia).
  assert (Hr : (0 <= row <= 7)%Z) by (apply (floor_clip_range _ 7); lia).
  assert (Hcols : (col1 <= col2)%Z).
  { apply Qfloor_resp_le. apply clip_monotone.
    apply Qmult_le_compat_r; [exact Hx|].
    apply Qlt_le_weak. apply Qinv_lt_0_compat. exact Hsize. }
  destruct (grid_rows_shape fl fw) as [Hlen Hshape].
  rewrite item_nonneg by lia.
  destruct (nth_error (grid (init fl fw)) (Z.to_nat row)) as [r|] eqn:Er.
  - cbn [obind]. rewrite !item_nonneg by lia.
    assert (Hin : In r (grid (init fl fw))) by (eapply nth_error_In; eauto).
    pose proof (proj1 (forallb_forall _ _) (grid_rows_nondecreasing fl fw)
                      r Hin) as Hnd.
    pose proof (proj1 (forallb_forall _ _) Hshape r Hin) as Hr12.
    apply Nat.eqb_eq in Hr12.
    destruct (nth_error r (Z.to_nat col1)) as [a|] eqn:Ea.
    + destruct (nth_error r (Z.to_nat col2)) as [b|] eqn:Eb.
      * apply (nondecreasing_nth r Hnd (Z.to_nat col1) (Z.to_nat col2));
          auto. lia.
      * apply nth_error_None in Eb. lia.
    + apply nth_error_None in Ea. lia.
  - apply nth_error_None in Er. lia.
Qed.

Lemma get_value_monotone_witness :
  get_value (init 105 68) 10 30 <= get_value (init 105 68) 50 30.
Proof.
  apply get_value_monotone.
  - vm_compute. discriminate.
  - vm_compute. discriminate.
Defined.

Example get_value_midfield : get_value (init 105 68) 50 30 = 18 # 100.
Proof. vm_compute. reflexivity. Qed.

Example get_value_near_goal : get_value (init 105 68) 104 30 = 75 # 100.
Proof. vm_compute. reflexivity. Qed.

Example get_value_zero_length : get_value (init 0 68) 50 30 = 0.
Proof. vm_compute. reflexivity. Qed.

End XThreatFacts.

(** ** Pressing de-duplication *)

Module DedupFacts.

Import SoccerMatchAnalyzer.

Local Open Scope Q_scope.

(** Ordered by timestamp. *)
Local Abbreviation earlier :=
  (fun a b : PressingEvent => pr_timestamp a <= pr_timestamp b).

Lemma insert_event_perm (e : PressingEvent) (l : list PressingEvent) :
  Permutation (e :: l) (insert_event e l).
Proof.
  induction l as [|h l IH]; cbn.
  - apply Permutation_refl.
  - destruct (Qle_bool (pr_timestamp e) (pr_timestamp h)).
    + apply Permutation_refl.
    + eapply perm_trans; [apply perm_swap|]. apply perm_skip. exact IH.
Qed.

Lemma sort_perm (events : list PressingEvent) :
  Permutation events (sort_by_timestamp events).
Proof.
  induction events as [|e l IH]; cbn.
  - apply perm_nil.
  - eapply perm_trans; [apply perm_skip; exact IH|].
    apply insert_event_perm.
Qed.

Lemma insert_event_sorted (e : PressingEvent) (l : list PressingEvent) :
  StronglySorted earlier l -> StronglySorted earlier (insert_event e l).
Proof.
  induction 1 as [|h l Hl IH Hh]; cbn.
  - constructor; constructor.
  - destruct (Qle_bool (pr_timestamp e) (pr_timestamp h)) eqn:E.
    + apply Qle_bool_iff in E. constructor.
      * constructor; assumption.
      * constructor; [exact E|].
        eapply Forall_impl; [|exact Hh]. cbn. intros a Ha.
        eapply Qle_trans; eauto.
    + assert (Hhe : pr_timestamp h <= pr_timestamp e).
      { apply Qlt_le_weak. apply Qnot_le_lt. intros Hle.
        apply Qle_bool_iff in Hle. congruence. }
      constructor; [exact IH|].
      apply (Permutation_Forall (insert_event_perm e l)).
      constructor; assumption.
Qed.

Lemma sort_sorted (events : list PressingEvent) :
  StronglySorted earlier (sort_by_timestamp events).
Proof.
  induction events as [|e l IH]; cbn.
  - constructor.
  - apply insert_event_sorted. exact IH.
Qed.

Lemma last_any_default (a : PressingEvent) (l : list PressingEvent)
      (d d' : PressingEvent) :
  List.last (a :: l) d = List.last (a :: l) d'.
Proof.
  revert a. induction l as [|b l IH]; intros a; [reflexivity|].
  change (List.last (b :: l) d = List.last (b :: l) d'). apply IH.
Qed.

(** The loop, one event at a time: the event is compared with the last
    kept one and appended unless it repeats it. *)
Lemma dedup_loop_snoc (w : Q) (first : PressingEvent)
      (pre : list PressingEvent) (e : PressingEvent) :
  let kept := first :: dedup_loop w first pre in
  first :: dedup_loop w first (pre ++ [e])
  = if is_duplicate w (List.last kept first) e then kept else kept ++ [e].
Proof.
  revert first. induction pre as [|a pre IH]; intros first kept.
  - subst kept. cbn. destruct (is_duplicate w first e); reflexivity.
  - subst kept. cbn [app dedup_loop].
    destruct (is_duplicate w first a) eqn:Ea.
    + apply IH.
    + specialize (IH a). cbn zeta in IH.
      change (List.last (first :: a :: dedup_loop w a pre) first)
        with (List.last (a :: dedup_loop w a pre) first).
      replace (List.last (a :: dedup_loop w a pre) first)
        with (List.last (a :: dedup_loop w a pre) a)
        by (apply last_any_default).
      destruct (is_duplicate w (List.last (a :: dedup_loop w a pre) a) e);
        cbn [app]; f_equal; exact IH.
Qed.

Lemma is_duplicate_iff (w : Q) (last event : PressingEvent) :
  is_duplicate w last event = true
  <-> defender_id event = defender_id last
      /\ attacker_id event = attacker_id last
      /\ pr_timestamp event - pr_timestamp last < w.
Proof.
  unfold is_duplicate.
  rewrite !andb_true_iff, !Z.eqb_eq, Qltb_true. tauto.
Qed.

Lemma deduplicate_unfold (events : list PressingEvent) (w : Q) :
  deduplicate_events events w
  = match sort_by_timestamp events with
    | [] => []
    | first :: rest => first :: dedup_loop w first rest
    end.
Proof. destruct events; reflexivity. Qed.

Lemma deduplicate_pair (w : Q) (e1 e2 : PressingEvent) :
  pr_timestamp e1 <= pr_timestamp e2 ->
  deduplicate_events [e1; e2] w
  = if is_duplicate w e1 e2 then [e1] else [e1; e2].
Proof.
  intros Hle. unfold deduplicate_events, sort_by_timestamp. cbn.
  apply Qle_bool_iff in Hle. rewrite Hle. cbn.
  destruct (is_duplicate w e1 e2); reflexivity.
Qed.

Lemma deduplicate_pair_swapped (w : Q) (e1 e2 : PressingEvent) :
  pr_timestamp e1 < pr_timestamp e2 ->
  deduplicate_events [e2; e1] w
  = if is_duplicate w e1 e2 then [e1] else [e1; e2].
Proof.
  intros Hlt. unfold deduplicate_events, sort_by_timestamp. cbn.
  replace (Qle_bool (pr_timestamp e2) (pr_timestamp e1)) with false.
  - cbn. destruct (is_duplicate w e1 e2); reflexivity.
  - symmetry. destruct (Qle_bool _ _) eqn:E; [|reflexivity].
    apply Qle_bool_iff in E. exfalso. exact (Qlt_not_le _ _ Hlt E).
Qed.

(** C5.  [_deduplicate_events] first sorts the events by timestamp (the
    sorted list is a timestamp-ordered rearrangement of the input), then
    walks it keeping the first event and dropping an event exactly when it
    has the defender and attacker of the most recently kept event and a
    timestamp less than the window after it.  With the 1-second window two
    events of one pair less than a second apart become one, and two events
    a second or more apart both stay. *)
Theorem deduplicate_events_spec (events : list PressingEvent) (w : Q) :
  (Permutation events (sort_by_timestamp events)
   /\ StronglySorted earlier (sort_by_timestamp events)
   /\ deduplicate_events events w
      = match sort_by_timestamp events with
        | [] => []
        | first :: rest => first :: dedup_loop w first rest
        end)
  /\ (forall first pre e,
        let kept := first :: dedup_loop w first pre in
        let last := List.last kept first in
        (is_duplicate w last e = true
         <-> defender_id e = defender_id last
             /\ attacker_id e = attacker_id last
             /\ pr_timestamp e - pr_timestamp last < w)
        /\ first :: dedup_loop w first (pre ++ [e])
           = if is_duplicate w last e then kept else kept ++ [e])
  /\ (forall e1 e2,
        defender_id e2 = defender_id e1 ->
        attacker_id e2 = attacker_id e1 ->
        pr_timestamp e1 < pr_timestamp e2 ->
        (pr_timestamp e2 - pr_timestamp e1 < 1 ->
         deduplicate_events [e1; e2] 1 = [e1]
         /\ deduplicate_events [e2; e1] 1 = [e1])
        /\ (1 <= pr_timestamp e2 - pr_timestamp e1 ->
            deduplicate_events [e1; e2] 1 = [e1; e2]
            /\ deduplicate_events [e2; e1] 1 = [e1; e2])).
Proof.
  split; [|split].
  - split; [apply sort_perm|]. split; [apply sort_sorted|].
    apply deduplicate_unfold.
  - intros first pre e kept last. split.
    + apply is_duplicate_iff.
    + apply dedup_loop_snoc.
  - intros e1 e2 Hd Ha Hlt.
    rewrite (deduplicate_pair 1 e1 e2) by (apply Qlt_le_weak; exact Hlt).
    rewrite (deduplicate_pair_swapped 1 e1 e2 Hlt).
    split; intros Hgap.
    + replace (is_duplicate 1 e1 e2) with true; [split; reflexivity|].
      symmetry. apply is_duplicate_iff. auto.
    + replace (is_duplicate 1 e1 e2) with false; [split; reflexivity|].
      symmetry. destruct (is_duplicate 1 e1 e2) eqn:E; [|reflexivity].
      apply is_duplicate_iff in E. destruct E as (_ & _ & E).
      exfalso. exact (Qlt_not_le _ _ E Hgap).
Qed.

(** Defender 7 pressing attacker 9 at 10.0 s, 10.5 s and 11.5 s. *)
Lemma deduplicate_events_spec_witness :
  let e := fun ts => mk_pressing 300 ts 7 9 (3 # 1) (4 # 1) in
  (deduplicate_events [e (100 # 10); e (105 # 10)] 1 = [e (100 # 10)]
   /\ deduplicate_events [e (105 # 10); e (100 # 10)] 1 = [e (100 # 10)])
  /\ (deduplicate_events [e (100 # 10); e (115 # 10)] 1
      = [e (100 # 10); e (115 # 10)]
      /\ deduplicate_events [e (115 # 10); e (100 # 10)] 1
         = [e (100 # 10); e (115 # 10)]).
Proof.
  intros e. split.
  - apply (proj2 (proj2 (deduplicate_events_spec [] 1))
             (e (100 # 10)) (e (105 # 10)) eq_refl eq_refl);
      reflexivity.
  - apply (proj2 (proj2 (deduplicate_events_spec [] 1))
             (e (100 # 10)) (e (115 # 10)) eq_refl eq_refl).
    + reflexivity.
    + vm_compute. discriminate.
Defined.

(** Three raw events in arrival order 11.5 s, 10.0 s, 10.5 s. *)
Example deduplicate_unsorted :
  let e := fun ts => mk_pressing 300 ts 7 9 (3 # 1) (4 # 1) in
  deduplicate_events [e (115 # 10); e (100 # 10); e (105 # 10)] 1
  = [e (100 # 10); e (115 # 10)].
Proof. vm_compute. reflexivity. Qed.

End DedupFacts.

(** ** Velocity *)

Module VelocityFacts.

Import SoccerMatchAnalyzer.

Local Open Scope R_scope.

Lemma diff_length (a : list R) : List.length (diff a) = (List.length a - 1)%nat.
Proof.
  induction a as [|u [|v rest] IH]; try reflexivity.
  change (S (List.length (diff (v :: rest))) = List.length (v :: rest)).
  rewrite IH. cbn. lia.
Qed.

Lemma diff_norm_length (coords : list (R * R)) :
  List.length (diff_norm coords) = (List.length coords - 1)%nat.
Proof.
  induction coords as [|p [|q rest] IH]; try reflexivity.
  change (S (List.length (diff_norm (q :: rest))) = List.length (q :: rest)).
  rewrite IH. cbn. lia.
Qed.

(** Entry [i] of the per-step list comes from points [i] and [i + 1]. *)
Lemma steps_nth (f : R * R -> R) (g : R -> R) (coords : list (R * R))
      (timestamps : list R) (i : nat) (p q : R * R) (t1 t2 : R) :
  nth_error coords i = Some p ->
  nth_error coords (S i) = Some q ->
  nth_error timestamps i = Some t1 ->
  nth_error timestamps (S i) = Some t2 ->
  nth_error (map f (combine (diff_norm coords) (map g (diff timestamps)))) i
  = Some (f (sqrt ((fst q - fst p) ^ 2 + (snd q - snd p) ^ 2),
             g (t2 - t1))).
Proof.
  revert timestamps i.
  induction coords as [|c0 coords IH]; intros timestamps i Hp Hq Ht1 Ht2.
  - destruct i; discriminate.
  - destruct coords as [|c1 coords]; [destruct i; discriminate|].
    destruct timestamps as [|s0 [|s1 timestamps]];
      [destruct i; discriminate|destruct i; discriminate|].
    destruct i as [|i].
    + cbn in Hp, Hq, Ht1, Ht2.
      injection Hp as <-. injection Hq as <-.
      injection Ht1 as <-. injection Ht2 as <-. reflexivity.
    + apply (IH (s1 :: timestamps) i); assumption.
Qed.

Lemma clip_range (v hi : R) : 0 <= hi -> 0 <= clip v 0 hi <= hi.
Proof.
  intros H. unfold clip, Rmin, Rmax.
  destruct (Rle_dec v 0); destruct (Rle_dec _ hi); lra.
Qed.

Lemma clip_zero (hi : R) : 0 <= hi -> clip 0 0 hi = 0.
Proof.
  intros H. unfold clip, Rmin, Rmax.
  destruct (Rle_dec 0 0); destruct (Rle_dec _ hi); lra.
Qed.

(** The code's test for a valid move is the negation of [reaches_limits]. *)
Lemma step_velocity_reaches (cfg : AnalysisConfig) (dist dt : R) :
  0 <= max_speed_ms cfg ->
  step_velocity cfg dist dt
  = if reaches_limits cfg dist dt then 0
    else clip (dist / dt) 0 (max_speed_ms cfg).
Proof.
  intros Hms. unfold step_velocity, reaches_limits.
  destruct (Rltb dist (max_distance_jump_m cfg)) eqn:Ed;
    destruct (Rltb dt (max_frame_gap_seconds cfg)) eqn:Et;
    destruct (Rleb (max_distance_jump_m cfg) dist) eqn:Ed';
    destruct (Rleb (max_frame_gap_seconds cfg) dt) eqn:Et';
    cbn [andb orb];
    try apply Rltb_true in Ed; try apply Rltb_false in Ed;
    try apply Rltb_true in Et; try apply Rltb_false in Et;
    try apply Rleb_true in Ed'; try apply Rleb_false in Ed';
    try apply Rleb_true in Et'; try apply Rleb_false in Et';
    try lra; try reflexivity; apply clip_zero; exact Hms.
Qed.

Lemma post_init_max_speed (cfg : AnalysisConfig) :
  post_init cfg = Some cfg -> 0 < max_speed_ms cfg.
Proof.
  unfold post_init. intros H.
  destruct (negb _); [discriminate|].
  destruct (Rleb (max_speed_ms cfg) 0) eqn:E; [discriminate|].
  apply Rleb_false in E. exact E.
Qed.

Lemma default_config_valid : post_init default_config = Some default_config.
Proof.
  unfold post_init, default_config; cbn.
  rewrite (proj2 (Rltb_true _ _)) by lra.
  rewrite (proj2 (Rleb_true (3 / 10) 1)) by lra. cbn.
  rewrite (proj2 (Rleb_false (125 / 10) 0)) by lra.
  rewrite (proj2 (Rleb_false 1 0)) by lra. reflexivity.
Qed.

(** C3 (amended).  With a validated configuration, a frame rate other than
    0 and as many timestamps as points, [_compute_velocity] returns a list
    that starts with 0 and whose entry for each consecutive pair is 0 when
    the pair's distance is at least [max_distance_jump_m] or its time delta
    is at least [max_frame_gap_seconds], and distance / delta clamped into
    [0, max_speed_ms] otherwise, a zero delta counting as 1 / fps.  Every
    entry lies in [0, max_speed_ms]. *)
Theorem compute_velocity_steps (cfg : AnalysisConfig)
        (coords : list (R * R)) (timestamps : list R) (fps : R) :
  post_init cfg = Some cfg ->
  fps <> 0 ->
  List.length coords = List.length timestamps ->
  velocity_follows reaches_limits cfg coords timestamps fps
  /\ forall v, compute_velocity cfg coords timestamps fps = Some v ->
       Forall (fun s => 0 <= s <= max_speed_ms cfg) v.
Proof.
  intros Hcfg Hfps Hlen.
  pose proof (post_init_max_speed cfg Hcfg) as Hms.
  assert (Hrun : compute_velocity cfg coords timestamps fps
                 = Some (0 :: map (fun p => step_velocity cfg (fst p) (snd p))
                           (combine (diff_norm coords)
                              (map (fun d => if Reqb d 0 then 1 / fps else d)
                                   (diff timestamps))))).
  { unfold compute_velocity.
    rewrite (proj2 (Reqb_false fps 0) Hfps).
    rewrite length_map, diff_norm_length, diff_length, Hlen, Nat.eqb_refl.
    reflexivity. }
  split.
  - eexists. split; [exact Hrun|]. split; [reflexivity|].
    intros i p q t1 t2 Hp Hq Ht1 Ht2 dist dt.
    cbn [nth_error].
    rewrite (steps_nth (fun p => step_velocity cfg (fst p) (snd p))
               (fun d => if Reqb d 0 then 1 / fps else d)
               coords timestamps i p q t1 t2 Hp Hq Ht1 Ht2).
    cbn [fst snd]. f_equal. apply step_velocity_reaches. lra.
  - intros v Hv. rewrite Hrun in Hv. injection Hv as <-.
    constructor; [lra|]. apply Forall_map. apply Forall_forall.
    intros [d t] _. cbn [fst snd]. unfold step_velocity.
    apply clip_range. lra.
Qed.

Lemma compute_velocity_steps_witness :
  velocity_follows reaches_limits default_config
                   [(0, 0); (3, 4)] [0; 4 / 10] 30
  /\ forall v,
       compute_velocity default_config [(0, 0); (3, 4)] [0; 4 / 10] 30
       = Some v ->
       Forall (fun s => 0 <= s <= max_speed_ms default_config) v.
Proof.
  apply compute_velocity_steps.
  - exact default_config_valid.
  - lra.
  - reflexivity.
Defined.

Lemma sqrt_100 (e : R) : e = 100 -> sqrt e = 10.
Proof.
  intros ->. replace 100 with (10 * 10) by ring. apply sqrt_square. lra.
Qed.

(** C3, as stated, fails on the boundary: a step of exactly 10 m (the
    default [max_distance_jump_m]) in 0.1 s does not exceed the limit, yet
    its velocity is 0 and not the clamped 100 m/s. *)
Lemma velocity_at_jump_limit_counterexample :
  ~ velocity_follows exceeds_limits default_config
                     [(0, 0); (10, 0)] [0; 1 / 10] 30.
Proof.
  intros (v & Hv & _ & Hstated).
  destruct (compute_velocity_steps default_config
              [(0, 0); (10, 0)] [0; 1 / 10] 30 default_config_valid
              ltac:(lra) eq_refl) as [(v' & Hv' & _ & Hcode) _].
  rewrite Hv in Hv'. injection Hv' as <-.
  specialize (Hstated 0%nat (0, 0) (10, 0) 0 (1 / 10)
                      eq_refl eq_refl eq_refl eq_refl).
  specialize (Hcode 0%nat (0, 0) (10, 0) 0 (1 / 10)
                    eq_refl eq_refl eq_refl eq_refl).
  cbn zeta in Hstated, Hcode. rewrite Hstated in Hcode.
  injection Hcode as Hcode. revert Hcode.
  cbn [fst snd]. rewrite !sqrt_100 by ring.
  rewrite (proj2 (Reqb_false (1 / 10 - 0) 0)) by lra.
  unfold exceeds_limits, reaches_limits, default_config; cbn.
  rewrite (proj2 (Rltb_false 10 10)) by lra.
  rewrite (proj2 (Rltb_false (5 / 10) (1 / 10 - 0))) by lra.
  rewrite (proj2 (Rleb_true 10 10)) by lra.
  cbn [orb]. unfold clip, Rmin, Rmax.
  destruct (Rle_dec (10 / (1 / 10 - 0)) 0); [lra|].
  destruct (Rle_dec (10 / (1 / 10 - 0)) (125 / 10)); lra.
Qed.

(** The same step on the source: velocities 0 and 0. *)
Example velocity_at_jump_limit :
  compute_velocity default_config [(0, 0); (10, 0)] [0; 1 / 10] 30
  = Some [0; 0].
Proof.
  unfold compute_velocity.
  rewrite (proj2 (Reqb_false 30 0)) by lra. cbn.
  rewrite !sqrt_100 by ring.
  rewrite (proj2 (Reqb_false (1 / 10 - 0) 0)) by lra.
  unfold step_velocity, default_config; cbn.
  rewrite (proj2 (Rltb_false 10 10)) by lra. cbn.
  rewrite clip_zero by lra. reflexivity.
Qed.

End VelocityFacts.

(** ** Pass validation *)

Module PassFacts.

Import PassDetector.

Local Open Scope R_scope.

(** [_validate_pass] accepts exactly the candidates within all bounds. *)
Lemma validate_pass_iff (cfg : AnalysisConfig) (pp : potential)
      (rcv : TrackPoint) (dist duration : R) :
  validate_pass cfg pp rcv dist duration = true
  <-> pass_min_distance_m cfg <= pass_distance_of pp rcv
      /\ pass_distance_of pp rcv <= pass_max_distance_m cfg
      /\ 0 < duration
      /\ duration <= pass_max_duration_s cfg
      /\ 5 / 10 <= tp_velocity rcv.
Proof.
  unfold validate_pass.
  destruct (Rltb (pass_distance_of pp rcv) (pass_min_distance_m cfg)) eqn:E1;
    [apply Rltb_true in E1|apply Rltb_false in E1].
  { split; [discriminate|lra]. }
  destruct (Rltb (pass_max_distance_m cfg) (pass_distance_of pp rcv)) eqn:E2;
    [apply Rltb_true in E2|apply Rltb_false in E2].
  { split; [discriminate|lra]. }
  destruct (Rleb duration 0) eqn:E3;
    [apply Rleb_true in E3|apply Rleb_false in E3]; cbn [orb].
  { split; [discriminate|lra]. }
  destruct (Rltb (pass_max_duration_s cfg) duration) eqn:E4;
    [apply Rltb_true in E4|apply Rltb_false in E4].
  { split; [discriminate|lra]. }
  destruct (Rltb (tp_velocity rcv) (5 / 10)) eqn:E5;
    [apply Rltb_true in E5|apply Rltb_false in E5].
  { split; [discriminate|lra]. }
  split; [intros _; lra|reflexivity].
Qed.

Section WithRound.

Variable round : R -> nat -> R.

Local Abbreviation step_potential := (PassDetector.step_potential round).
Local Abbreviation update_and_complete_passes :=
  (PassDetector.update_and_complete_passes round).
Local Abbreviation make_event := (PassDetector.make_event round).

(** The passes a frame completes are those its entries complete. *)
Lemma completed_passes (cfg : AnalysisConfig) (pps : list potential)
      (players : list (Z * TrackPoint)) (frame : Z) (ev : PassEvent) :
  In ev (snd (update_and_complete_passes cfg pps players frame))
  <-> exists pp, In pp pps
                 /\ snd (step_potential cfg players frame pp) = Some ev.
Proof.
  induction pps as [|pp pps IH]; cbn [PassDetector.update_and_complete_passes].
  - cbn. split; [intros []|intros (pp & [] & _)].
  - destruct (step_potential cfg players frame pp) as [pp' o] eqn:Estep.
    destruct (update_and_complete_passes cfg pps players frame)
      as [rest evs] eqn:Erest.
    cbn [snd] in *. split.
    + intros Hin. destruct o as [e|].
      * destruct Hin as [<-|Hin].
        -- exists pp. split; [left; reflexivity|]. rewrite Estep. reflexivity.
        -- apply IH in Hin. destruct Hin as (q & Hq & Hs).
           exists q. split; [right; exact Hq|exact Hs].
      * apply IH in Hin. destruct Hin as (q & Hq & Hs).
        exists q. split; [right; exact Hq|exact Hs].
    + intros (q & [->|Hq] & Hs).
      * rewrite Estep in Hs. cbn in Hs. subst o. left. reflexivity.
      * assert (Hin : In ev evs) by (apply IH; exists q; auto).
        destruct o; [right|]; exact Hin.
Qed.

(** An active entry whose players have separated is decided by
    [_validate_pass]. *)
Lemma step_potential_separated (cfg : AnalysisConfig)
      (players : list (Z * TrackPoint)) (frame : Z) (pp : potential)
      (psr rcv : TrackPoint) :
  is_active pp = true ->
  players_dict players (passer pp) = Some psr ->
  players_dict players (receiver pp) = Some rcv ->
  let dist := sqrt ((xm_smooth psr - xm_smooth rcv) ^ 2
                    + (ym_smooth psr - ym_smooth rcv) ^ 2) in
  let duration := tp_timestamp psr - start_time pp in
  pass_proximity_threshold_m cfg < dist ->
  snd (step_potential cfg players frame pp)
  = if validate_pass cfg pp rcv dist duration
    then Some (make_event cfg pp rcv frame duration)
    else None.
Proof.
  intros Hact Hp Hr dist duration Hsep.
  unfold PassDetector.step_potential. rewrite Hact, Hp, Hr. cbn [negb].
  fold dist. rewrite (proj2 (Rltb_true _ _) Hsep). reflexivity.
Qed.

(** C4.  For a pass candidate that completes in this frame (an active
    entry, both players present, now further apart than the proximity
    threshold): when the receiver's displacement equals
    [pass_min_distance_m] and the other conditions hold (displacement at
    most [pass_max_distance_m], duration positive and at most
    [pass_max_duration_s], receiver velocity at least 0.5) the candidate
    validates and its [PassEvent] is among the completed passes; when the
    displacement is below [pass_min_distance_m] it is rejected and gives
    no event. *)
Theorem pass_min_distance_inclusive (cfg : AnalysisConfig)
        (pps : list potential) (players : list (Z * TrackPoint))
        (frame : Z) (pp : potential) (psr rcv : TrackPoint) :
  In pp pps ->
  is_active pp = true ->
  players_dict players (passer pp) = Some psr ->
  players_dict players (receiver pp) = Some rcv ->
  let dist := sqrt ((xm_smooth psr - xm_smooth rcv) ^ 2
                    + (ym_smooth psr - ym_smooth rcv) ^ 2) in
  let duration := tp_timestamp psr - start_time pp in
  let d := pass_distance_of pp rcv in
  pass_proximity_threshold_m cfg < dist ->
  (d = pass_min_distance_m cfg ->
   d <= pass_max_distance_m cfg ->
   0 < duration ->
   duration <= pass_max_duration_s cfg ->
   5 / 10 <= tp_velocity rcv ->
   validate_pass cfg pp rcv dist duration = true
   /\ exists ev,
        In ev (snd (update_and_complete_passes cfg pps players frame))
        /\ ev = make_event cfg pp rcv frame duration
        /\ passer_id ev = passer pp
        /\ receiver_id ev = receiver pp)
  /\ (d < pass_min_distance_m cfg ->
      validate_pass cfg pp rcv dist duration = false
      /\ snd (step_potential cfg players frame pp) = None).
Proof.
  intros Hin Hact Hp Hr dist duration d Hsep.
  pose proof (step_potential_separated cfg players frame pp psr rcv
                Hact Hp Hr Hsep) as Hstep.
  fold dist duration in Hstep.
  split.
  - intros Hd Hmax Hpos Hdur Hvel.
    assert (Hval : validate_pass cfg pp rcv dist duration = true).
    { apply validate_pass_iff. fold d. repeat split; try assumption. lra. }
    split; [exact Hval|].
    rewrite Hval in Hstep.
    exists (make_event cfg pp rcv frame duration).
    split; [|repeat split].
    apply completed_passes. exists pp. split; assumption.
  - intros Hd.
    assert (Hval : validate_pass cfg pp rcv dist duration = false).
    { destruct (validate_pass cfg pp rcv dist duration) eqn:E;
        [|reflexivity].
      apply validate_pass_iff in E. fold d in E. lra. }
    split; [exact Hval|]. rewrite Hval in Hstep. exact Hstep.
Qed.

End WithRound.

Lemma sqrt_of_square (e a : R) : 0 <= a -> e = a * a -> sqrt e = a.
Proof. intros Ha ->. apply sqrt_square. exact Ha. Qed.

(** The receiver exactly 2 m (the default [pass_min_distance_m]) from the
    start position, 4 m from the passer. *)
Lemma pass_min_distance_inclusive_witness :
  let psr := mk_point 30 1 (-2) 0 0 (1 / 100) TeamColor.TEAM_A in
  let rcv := mk_point 30 1 2 0 1 (2 / 100) TeamColor.TEAM_A in
  let dist := sqrt ((xm_smooth psr - xm_smooth rcv) ^ 2
                    + (ym_smooth psr - ym_smooth rcv) ^ 2) in
  let duration := tp_timestamp psr - start_time sample_potential in
  validate_pass default_config sample_potential rcv dist duration = true
  /\ exists ev,
       In ev (snd (update_and_complete_passes (fun x _ => x) default_config
                     [sample_potential] (sample_players 2) 30))
       /\ ev = make_event (fun x _ => x) default_config sample_potential
                          rcv 30 duration
       /\ passer_id ev = passer sample_potential
       /\ receiver_id ev = receiver sample_potential.
Proof.
  intros psr rcv dist duration.
  refine (proj1 (pass_min_distance_inclusive (fun x _ => x) default_config
                   [sample_potential] (sample_players 2) 30
                   sample_potential psr rcv
                   (or_introl eq_refl) eq_refl eq_refl eq_refl _)
                _ _ _ _ _).
  - cbn. rewrite (sqrt_of_square _ 4) by (lra || ring). lra.
  - unfold pass_distance_of; cbn.
    rewrite (sqrt_of_square _ 2) by (lra || ring). reflexivity.
  - unfold pass_distance_of; cbn.
    rewrite (sqrt_of_square _ 2) by (lra || ring). lra.
  - cbn. lra.
  - cbn. lra.
  - cbn. lra.
Defined.

(** The receiver 1.9 m from the start position: no pass. *)
Example pass_below_min_distance :
  snd (update_and_complete_passes (fun x _ => x) default_config
         [sample_potential] (sample_players (19 / 10)) 30) = [].
Proof.
  set (psr := mk_point 30 1 (-2) 0 0 (1 / 100) TeamColor.TEAM_A).
  set (rcv := mk_point 30 1 (19 / 10) 0 1 (2 / 100) TeamColor.TEAM_A).
  assert (Hd : pass_distance_of sample_potential rcv = 19 / 10).
  { unfold pass_distance_of; cbn.
    apply sqrt_of_square; [lra|field]. }
  pose proof (step_potential_separated (fun x _ => x) default_config
                (sample_players (19 / 10)) 30 sample_potential psr rcv
                eq_refl eq_refl eq_refl) as Hstep.
  cbn zeta in Hstep.
  assert (Hsep : pass_proximity_threshold_m default_config
                 < sqrt ((xm_smooth psr - xm_smooth rcv) ^ 2
                         + (ym_smooth psr - ym_smooth rcv) ^ 2)).
  { cbn. rewrite (sqrt_of_square _ (39 / 10)) by (lra || field). lra. }
  specialize (Hstep Hsep).
  replace (validate_pass _ _ _ _ _) with false in Hstep.
  - cbn [PassDetector.update_and_complete_passes].
    destruct (PassDetector.step_potential _ _ _ _ _) as [pp' o].
    cbn in Hstep. subst o. reflexivity.
  - symmetry.
    destruct (validate_pass default_config sample_potential rcv _ _) eqn:E;
      [|reflexivity].
    apply validate_pass_iff in E. rewrite Hd in E. cbn in E. lra.
Qed.

End PassFacts.

(* ================================================================== *)
(** * Further properties of the tracker *)

Module OverlapFacts.

Import Track HybridTracker.

Local Open Scope R_scope.

(** A box whose corners are in order. *)
Local Abbreviation ordered :=
  (fun b : Box => b0 b <= b2 b /\ b1 b <= b3 b).

Lemma overlap_side (lo hi lo' hi' : R) :
  lo <= hi -> lo' <= hi' ->
  0 <= Rmax 0 (Rmin hi hi' - Rmax lo lo')
  /\ Rmax 0 (Rmin hi hi' - Rmax lo lo') <= hi - lo
  /\ Rmax 0 (Rmin hi hi' - Rmax lo lo') <= hi' - lo'.
Proof.
  intros H H'. unfold Rmax, Rmin.
  destruct (Rle_dec hi hi'); destruct (Rle_dec lo lo');
    destruct (Rle_dec 0 _); lra.
Qed.

(** [_iou] of two ordered boxes lies in [0, 1). *)
Theorem iou_range (box1 box2 : Box) :
  ordered box1 -> ordered box2 -> 0 <= iou box1 box2 < 1.
Proof.
  intros [Hx1 Hy1] [Hx2 Hy2]. unfold iou.
  destruct (overlap_side (b0 box1) (b2 box1) (b0 box2) (b2 box2) Hx1 Hx2)
    as (Hw0 & Hw1 & Hw2).
  destruct (overlap_side (b1 box1) (b3 box1) (b1 box2) (b3 box2) Hy1 Hy2)
    as (Hh0 & Hh1 & Hh2).
  set (w := Rmax 0 (Rmin (b2 box1) (b2 box2) - Rmax (b0 box1) (b0 box2)))
    in *.
  set (h := Rmax 0 (Rmin (b3 box1) (b3 box2) - Rmax (b1 box1) (b1 box2)))
    in *.
  set (w1 := b2 box1 - b0 box1) in *. set (h1 := b3 box1 - b1 box1) in *.
  set (w2 := b2 box2 - b0 box2) in *. set (h2 := b3 box2 - b1 box2) in *.
  assert (Hi : 0 <= w * h) by (apply Rmult_le_pos; assumption).
  assert (Ha1 : w * h <= w1 * h1) by (apply Rmult_le_compat; assumption).
  assert (Ha2 : w * h <= w2 * h2) by (apply Rmult_le_compat; assumption).
  assert (Hden : 0 < w1 * h1 + w2 * h2 - w * h + 1 / 1000000) by lra.
  split.
  - apply Rmult_le_pos; [exact Hi|].
    apply Rlt_le. apply Rinv_0_lt_compat. exact Hden.
  - apply (Rmult_lt_reg_r (w1 * h1 + w2 * h2 - w * h + 1 / 1000000));
      [exact Hden|].
    unfold Rdiv at 1. rewrite Rmult_assoc, Rinv_l by lra. lra.
Qed.

Lemma iou_range_witness :
  0 <= iou (0, 0, 10, 20) (5, 5, 15, 25) < 1.
Proof. apply iou_range; cbn; lra. Defined.

(** [_iou] does not depend on the order of its arguments. *)
Theorem iou_symmetric (box1 box2 : Box) : iou box1 box2 = iou box2 box1.
Proof.
  unfold iou.
  rewrite (Rmax_comm (b0 box1)), (Rmax_comm (b1 box1)),
          (Rmin_comm (b2 box1)), (Rmin_comm (b3 box1)).
  f_equal. f_equal. ring.
Qed.

(** Boxes that do not overlap horizontally or vertically have [_iou] 0. *)
Theorem iou_disjoint (box1 box2 : Box) :
  b2 box1 <= b0 box2 \/ b2 box2 <= b0 box1
  \/ b3 box1 <= b1 box2 \/ b3 box2 <= b1 box1 ->
  iou box1 box2 = 0.
Proof.
  intros H. unfold iou.
  assert (Hz : Rmax 0 (Rmin (b2 box1) (b2 box2) - Rmax (b0 box1) (b0 box2))
               * Rmax 0 (Rmin (b3 box1) (b3 box2)
                         - Rmax (b1 box1) (b1 box2)) = 0).
  { destruct H as [H|[H|[H|H]]].
    1,2: replace (Rmax 0 (Rmin (b2 box1) (b2 box2)
                          - Rmax (b0 box1) (b0 box2))) with 0;
         [ring|unfold Rmax, Rmin;
               destruct (Rle_dec (b2 box1) (b2 box2));
               destruct (Rle_dec (b0 box1) (b0 box2));
               destruct (Rle_dec 0 _); lra].
    1,2: replace (Rmax 0 (Rmin (b3 box1) (b3 box2)
                          - Rmax (b1 box1) (b1 box2))) with 0;
         [ring|unfold Rmax, Rmin;
               destruct (Rle_dec (b3 box1) (b3 box2));
               destruct (Rle_dec (b1 box1) (b1 box2));
               destruct (Rle_dec 0 _); lra]. }
  rewrite Hz. unfold Rdiv. ring.
Qed.

Lemma iou_disjoint_witness : iou (0, 0, 10, 20) (10, 0, 30, 20) = 0.
Proof. apply iou_disjoint. left. cbn. lra. Defined.

End OverlapFacts.

Module TrackerRunFacts.

Import Track HybridTracker.

Section WithModels.

Variable Feature : Type.
Variable Cov : Type.
Variable kf_fresh : Cov.
Variable kf_predict : kstate * Cov -> kstate * Cov.
Variable kf_update : kstate * Cov -> R * R * R * R -> kstate * Cov.
Variable Frame : Type.
Variable extract_features : Frame -> list Box -> list Feature.
Variable reid_row : list Feature -> list Feature -> list R.
Variable linear_sum_assignment : list (list R) -> list (nat * nat).

Local Abbreviation track := (Track.track Feature Cov).
Local Abbreviation tracker := (HybridTracker.tracker Feature Cov).
Local Abbreviation update :=
  (HybridTracker.update Feature Cov kf_fresh kf_predict kf_update Frame
     extract_features reid_row linear_sum_assignment).
Local Abbreviation associate :=
  (HybridTracker.associate Feature Cov kf_fresh kf_predict kf_update Frame
     extract_features reid_row linear_sum_assignment).
Local Abbreviation reachable :=
  (HybridTracker.reachable Feature Cov kf_fresh kf_predict kf_update Frame
     extract_features reid_row linear_sum_assignment).
Local Abbreviation idle :=
  (HybridTracker.idle Feature Cov kf_fresh kf_predict kf_update Frame
     extract_features reid_row linear_sum_assignment).
Local Abbreviation ids := (map (fun t : track => track_id t)).

Local Open Scope Z_scope.

Lemma init_id (tid : Z) (bx : Box) (sc : R) (feat : option Feature) :
  track_id (Track.init kf_fresh tid bx sc feat) = tid.
Proof.
  unfold Track.init, update_kf, set_kf.
  destruct (to_xysr bx) as [[[x y] s] r]. reflexivity.
Qed.

Lemma predict_all_ids (ts : list track) :
  ids (predict_all Feature Cov kf_predict ts) = ids ts.
Proof.
  unfold predict_all. rewrite map_map. apply map_ext. reflexivity.
Qed.

Lemma set_nth_ids (ts : list track) (i : nat) (t v : track) :
  nth_error ts i = Some t -> track_id v = track_id t ->
  ids (set_nth Feature Cov ts i v) = ids ts.
Proof.
  revert i. induction ts as [|a ts IH]; intros i Hi Hv.
  - destruct i; discriminate.
  - destruct i as [|i]; cbn in Hi |- *.
    + injection Hi as ->. rewrite Hv. reflexivity.
    + rewrite (IH i Hi Hv). reflexivity.
Qed.

Lemma fold_update_matched_ids (dets : list detection) (feats : list Feature)
      (ms : list (nat * nat)) (ts ts' : list track) :
  fold_left (update_matched Feature Cov kf_update dets feats) ms (Some ts)
  = Some ts' ->
  ids ts' = ids ts.
Proof.
  revert ts. induction ms as [|m ms IH]; intros ts Hfold; cbn in Hfold.
  - injection Hfold as <-. reflexivity.
  - destruct (nth_error ts (fst m)) as [t|] eqn:Et; cbn in Hfold;
      [|rewrite HybridTrackerFacts.fold_update_matched_none in Hfold;
        discriminate].
    destruct (nth_error dets (snd m)) as [d|]; cbn in Hfold;
      [|rewrite HybridTrackerFacts.fold_update_matched_none in Hfold;
        discriminate].
    destruct (feat_at Feature feats (snd m)) as [feat|]; cbn in Hfold;
      [|rewrite HybridTrackerFacts.fold_update_matched_none in Hfold;
        discriminate].
    rewrite (IH _ Hfold). eapply set_nth_ids; [exact Et|reflexivity].
Qed.

(** The tracks made for unmatched detections carry consecutive new
    identities starting at the counter. *)
Lemma spawn_ids (matched : list nat) (feats : list Feature)
      (ds : list detection) (i : nat) (nid nid' : Z) (nts : list track) :
  spawn Feature Cov kf_fresh matched feats ds i nid = Some (nts, nid') ->
  nid' = nid + Z.of_nat (List.length nts)
  /\ Forall (fun t : track => nid <= track_id t < nid') nts
  /\ NoDup (ids nts).
Proof.
  revert i nid nid' nts.
  induction ds as [|d ds IH]; intros i nid nid' nts Hs; cbn [spawn] in Hs.
  - injection Hs as <- <-. cbn. repeat split; [lia|constructor|constructor].
  - destruct (existsb (Nat.eqb i) matched).
    + eapply IH. exact Hs.
    + destruct (feat_at Feature feats i) as [feat|]; cbn [obind] in Hs;
        [|discriminate].
      destruct (spawn Feature Cov kf_fresh matched feats ds (S i) (nid + 1))
        as [[nts0 nid0]|] eqn:Erec; cbn [obind] in Hs; [|discriminate].
      injection Hs as <- <-.
      destruct (IH _ _ _ _ Erec) as (Hnid & Hall & Hnd).
      cbn [List.length map]. cbn beta. rewrite init_id.
      split; [lia|]. split.
      * constructor; [rewrite init_id; lia|].
        eapply Forall_impl; [|exact Hall]. cbn. intros; lia.
      * constructor; [|exact Hnd].
        intros Hin. apply in_map_iff in Hin. destruct Hin as (t & Ht & Hin).
        rewrite Forall_forall in Hall. specialize (Hall t Hin). cbn in Hall.
        lia.
Qed.

Lemma associate_ids (T : tracker) (detections : list detection)
      (frame : Frame) (ts nts : list track) (nid : Z) :
  associate T detections frame = Some (ts, nts, nid) ->
  ids ts = ids (tracks T)
  /\ nid = next_id T + Z.of_nat (List.length nts)
  /\ Forall (fun t : track => next_id T <= track_id t < nid) nts
  /\ NoDup (ids nts).
Proof.
  unfold HybridTracker.associate. intros H.
  obind_inv H as a E1.
  obind_inv H as matches E2.
  obind_inv H as ts0 Efold.
  obind_inv H as [nts0 nid0] Espawn.
  injection H as <- <- <-.
  split.
  - rewrite (fold_update_matched_ids _ _ _ _ _ Efold).
    apply predict_all_ids.
  - eapply spawn_ids. exact Espawn.
Qed.

(** Dropping tracks keeps their identities distinct. *)
Lemma filter_keeps_distinct_ids (keep : track -> bool) (ts : list track) :
  NoDup (ids ts) -> NoDup (ids (filter keep ts)).
Proof.
  intros Hnd. induction ts as [|t ts IH]; cbn; [constructor|].
  cbn in Hnd. apply NoDup_cons_iff in Hnd. destruct Hnd as [Hfresh Hrest].
  destruct (keep t); cbn; [|apply IH; exact Hrest].
  apply NoDup_cons; [|apply IH; exact Hrest].
  intros Hin. apply Hfresh. apply in_map_iff in Hin.
  destruct Hin as (u & Hu & Hin). apply filter_In in Hin.
  apply in_map_iff. exists u. tauto.
Qed.

(** In every state of a run the tracks carry pairwise different
    identities, all at least 1 and below the counter [next_id]. *)
Theorem track_ids_unique (T : tracker) :
  reachable T ->
  NoDup (ids (tracks T))
  /\ Forall (fun t : track => 1 <= track_id t < next_id T) (tracks T).
Proof.
  induction 1 as [fr|T dets frame T' out Hreach [IHnd IHall] Hupd].
  - cbn. split; constructor.
  - apply HybridTrackerFacts.update_unfold in Hupd.
    destruct Hupd as (ts & nts & nid & Hassoc & -> & _).
    apply associate_ids in Hassoc.
    destruct Hassoc as (Hids & Hnid & Hnew & Hnd).
    assert (Hold : Forall (fun i => 1 <= i < next_id T) (ids ts)).
    { rewrite Hids. apply Forall_map. exact IHall. }
    cbn [tracks next_id set_tracks]. unfold remove_dead. split.
    + apply filter_keeps_distinct_ids. rewrite map_app. apply NoDup_app.
      repeat split.
      * rewrite Hids. exact IHnd.
      * exact Hnd.
      * intros i Hi Hi'. rewrite Forall_forall in Hold.
        specialize (Hold i Hi). apply in_map_iff in Hi'.
        destruct Hi' as (t & <- & Ht). rewrite Forall_forall in Hnew.
        specialize (Hnew t Ht). cbn in Hnew. lia.
    + apply Forall_forall. intros t Hin. apply filter_In in Hin.
      destruct Hin as [Hin _]. apply in_app_or in Hin.
      destruct Hin as [Hin|Hin].
      * rewrite Forall_forall in Hold.
        specialize (Hold (track_id t) (in_map _ _ _ Hin)). lia.
      * rewrite Forall_forall in Hnew. specialize (Hnew t Hin).
        rewrite Forall_forall in IHall. cbn in Hnew.
        assert (1 <= next_id T).
        { clear - Hreach. induction Hreach as [fr|T d f T' o Hr IH Hu].
          - cbn. lia.
          - apply HybridTrackerFacts.update_unfold in Hu.
            destruct Hu as (ts & nts & nid & Ha & -> & _).
            apply associate_ids in Ha. cbn. lia. }
        lia.
Qed.

(** Identities are never handed out twice: after [update] every track
    either kept the identity of a track that was there before, or carries
    a new identity at or above the old counter; the counter grows by the
    number of tracks created. *)
Theorem track_ids_fresh (T T' : tracker) (detections : list detection)
        (frame : Frame) (out : list (Box * Z * R * Z)) :
  update T detections frame = Some (T', out) ->
  next_id T <= next_id T'
  /\ forall t', In t' (tracks T') ->
       In (track_id t') (ids (tracks T))
       \/ next_id T <= track_id t' < next_id T'.
Proof.
  intros Hupd. apply HybridTrackerFacts.update_unfold in Hupd.
  destruct Hupd as (ts & nts & nid & Hassoc & -> & _).
  apply associate_ids in Hassoc.
  destruct Hassoc as (Hids & Hnid & Hnew & _).
  cbn [tracks next_id set_tracks]. split; [lia|].
  intros t' Hin. unfold remove_dead in Hin. apply filter_In in Hin.
  destruct Hin as [Hin _]. apply in_app_or in Hin. destruct Hin as [Hin|Hin].
  - left. rewrite <- Hids. apply in_map_iff. exists t'. auto.
  - right. rewrite Forall_forall in Hnew. apply (Hnew t' Hin).
Qed.

(** Detections below the confidence threshold are as good as none. *)
Theorem low_confidence_ignored (T : tracker) (detections : list detection)
        (frame : Frame) :
  Forall (fun d => (det_score d < conf_thresh T)%R) detections ->
  update T detections frame = update T [] frame.
Proof.
  intros Hlow.
  assert (Hf : filter_dets T detections = []).
  { unfold filter_dets. induction Hlow as [|d ds Hd _ IH]; cbn;
      [reflexivity|].
    rewrite (proj2 (Rleb_false _ _) Hd). exact IH. }
  unfold HybridTracker.update, HybridTracker.associate.
  rewrite Hf. reflexivity.
Qed.

Lemma update_blank (T : tracker) (frame : Frame) :
  update T [] frame
  = Some (set_tracks T
            (remove_dead T (predict_all Feature Cov kf_predict (tracks T)))
            (next_id T),
          active_results
            (remove_dead T (predict_all Feature Cov kf_predict (tracks T)))).
Proof.
  unfold HybridTracker.update.
  rewrite HybridTrackerFacts.update_no_detections. cbn [obind].
  rewrite app_nil_r. reflexivity.
Qed.

(** Every track has missed at least [k] frames and fewer than [max_age]. *)
Local Abbreviation missed_between :=
  (fun (k : Z) (T : tracker) =>
     Forall (fun t : track => k <= time_since_update t < max_age T)
            (tracks T)).

Lemma idle_missed (frames : list Frame) (T : tracker) (k : Z) :
  missed_between k T ->
  exists T',
    idle T frames = Some T'
    /\ missed_between (k + Z.of_nat (List.length frames)) T'
    /\ max_age T' = max_age T
    /\ next_id T' = next_id T.
Proof.
  revert T k. induction frames as [|f frames IH]; intros T k HT.
  - exists T. cbn. rewrite Z.add_0_r. auto.
  - cbn [HybridTracker.idle]. rewrite update_blank. cbn [obind fst].
    set (T1 := set_tracks T
                 (remove_dead T
                    (predict_all Feature Cov kf_predict (tracks T)))
                 (next_id T)).
    assert (H1 : missed_between (k + 1) T1).
    { subst T1. cbn [tracks max_age set_tracks]. unfold remove_dead.
      apply Forall_forall. intros t Hin. apply filter_In in Hin.
      destruct Hin as [Hin Hlt]. apply Z.ltb_lt in Hlt.
      unfold predict_all in Hin. apply in_map_iff in Hin.
      destruct Hin as (t0 & <- & Hin0).
      rewrite Forall_forall in HT. specialize (HT t0 Hin0).
      cbn in Hlt |- *. lia. }
    destruct (IH T1 (k + 1) H1) as (T' & Hidle & Hm & Hage & Hnid).
    exists T'. split; [exact Hidle|]. split; [|split].
    + replace (k + Z.of_nat (List.length (f :: frames)))
        with (k + 1 + Z.of_nat (List.length frames))
        by (cbn [List.length]; lia).
      exact Hm.
    + rewrite Hage. reflexivity.
    + rewrite Hnid. reflexivity.
Qed.

(** A run of [max_age] or more frames without detections never fails and
    leaves no track; the identity counter is untouched. *)
Theorem idle_forgets_all (T : tracker) (frames : list Frame) :
  reachable T ->
  max_age T <= Z.of_nat (List.length frames) ->
  exists T',
    idle T frames = Some T' /\ tracks T' = [] /\ next_id T' = next_id T.
Proof.
  intros Hreach Hlen.
  destruct (HybridTrackerFacts.reachable_inv _ _ _ _ _ _ _ _ _ T Hreach)
    as [_ Hinv].
  destruct (idle_missed frames T 0 Hinv) as (T' & Hidle & Hm & Hage & Hnid).
  exists T'. split; [exact Hidle|]. split; [|exact Hnid].
  destruct (tracks T') as [|t rest]; [reflexivity|].
  inversion Hm as [|? ? Ht _]; subst. lia.
Qed.

Lemma iou_row_get (t : track) (dets : list detection) (ud : list nat)
      (row : list R) (c : nat) (v : R) :
  fold_right
    (fun (d_idx : nat) (row : option (list R)) =>
       obind (nth_error dets d_idx) (fun d : detection =>
       obind row (fun row' : list R =>
         Some ((1 - iou (get_box t) (det_box d))%R :: row'))))
    (Some []) ud = Some row ->
  nth_error row c = Some v ->
  exists d_idx d,
    nth_error ud c = Some d_idx /\ nth_error dets d_idx = Some d
    /\ v = (1 - iou (get_box t) (det_box d))%R.
Proof.
  revert row c.
  induction ud as [|d_idx ud IHd]; intros row c Erow Hget;
    cbn [fold_right] in Erow.
  - injection Erow as <-. destruct c; discriminate.
  - obind_inv Erow as d Ed.
    destruct (fold_right _ (Some []) ud) as [row'|] eqn:Erow';
      cbn [obind] in Erow; [|discriminate].
    injection Erow as <-.
    destruct c as [|c].
    + cbn in Hget. injection Hget as <-. exists d_idx, d. auto.
    + cbn [nth_error] in Hget.
      destruct (IHd row' c eq_refl Hget) as (di & d1 & H2 & H4 & H5).
      exists di, d1. auto.
Qed.

(** Row [r], column [c] of the stage-2 cost matrix is one minus the
    overlap of the [r]-th unmatched track and [c]-th unmatched detection. *)
Lemma iou_matrix_get (ts : list track) (dets : list detection)
      (ud ut : list nat) (m : list (list R)) (r c : nat) (v : R) :
  iou_matrix Feature Cov ts dets ud ut = Some m ->
  mat_get m r c = Some v ->
  exists t_idx d_idx t d,
    nth_error ut r = Some t_idx /\ nth_error ud c = Some d_idx
    /\ nth_error ts t_idx = Some t /\ nth_error dets d_idx = Some d
    /\ v = (1 - iou (get_box t) (det_box d))%R.
Proof.
  revert m r. unfold iou_matrix.
  induction ut as [|t_idx ut IH]; intros m r Hm Hget; cbn [fold_right] in Hm.
  - injection Hm as <-. unfold mat_get in Hget.
    destruct r; discriminate.
  - obind_inv Hm as t Et.
    obind_inv Hm as row Erow.
    destruct (fold_right _ (Some []) ut) as [m'|] eqn:Em';
      cbn [obind] in Hm; [|discriminate].
    injection Hm as <-.
    destruct r as [|r].
    + unfold mat_get in Hget. cbn [nth_error obind] in Hget.
      destruct (iou_row_get t dets ud row c v Erow Hget)
        as (di & d1 & H2 & H4 & H5).
      exists t_idx, di, t, d1. auto.
    + unfold mat_get in Hget. cbn [nth_error] in Hget.
      destruct (IH m' r eq_refl Hget)
        as (ti & di & t1 & d1 & H1 & H2 & H3 & H4 & H5).
      exists ti, di, t1, d1. auto.
Qed.

Lemma fold_stage2_none (T : tracker) (m : list (list R)) (ud ut : list nat)
      (l : list (nat * nat)) :
  fold_left (stage2_step Feature Cov T m ud ut) l None = None.
Proof. induction l as [|rc l IH]; cbn; [reflexivity|exact IH]. Qed.

(** What stage 2 requires of a pair before it joins the matches. *)
Local Abbreviation overlapping :=
  (fun (T : tracker) (ts : list track) (dets : list detection)
       (ud ut : list nat) (p : nat * nat) =>
     exists t d,
       In (fst p) ut /\ In (snd p) ud
       /\ nth_error ts (fst p) = Some t /\ nth_error dets (snd p) = Some d
       /\ (iou_thresh T < iou (get_box t) (det_box d))%R).

Lemma fold_stage2_overlap (T : tracker) (ts : list track)
      (dets : list detection) (ud ut : list nat) (m : list (list R))
      (l : list (nat * nat)) (acc ms : list (nat * nat)) :
  iou_matrix Feature Cov ts dets ud ut = Some m ->
  fold_left (stage2_step Feature Cov T m ud ut) l (Some acc) = Some ms ->
  exists added,
    ms = acc ++ added /\ Forall (overlapping T ts dets ud ut) added.
Proof.
  intros Hm. revert acc.
  induction l as [|rc l IH]; intros acc Hfold; cbn [fold_left] in Hfold.
  - injection Hfold as <-. exists []. rewrite app_nil_r. split; auto.
  - unfold stage2_step at 2 in Hfold. cbn [obind] in Hfold.
    destruct (mat_get m (fst rc) (snd rc)) as [v|] eqn:Ev;
      cbn [obind] in Hfold;
      [|rewrite fold_stage2_none in Hfold; discriminate].
    destruct (Rltb v (1 - iou_thresh T)) eqn:Elt.
    + destruct (nth_error ut (fst rc)) as [t_idx|] eqn:Et;
        cbn [obind] in Hfold;
        [|rewrite fold_stage2_none in Hfold; discriminate].
      destruct (nth_error ud (snd rc)) as [d_idx|] eqn:Ed;
        cbn [obind] in Hfold;
        [|rewrite fold_stage2_none in Hfold; discriminate].
      destruct (IH _ Hfold) as (added & -> & Hall).
      exists ((t_idx, d_idx) :: added). split.
      * rewrite <- app_assoc. reflexivity.
      * constructor; [|exact Hall].
        destruct (iou_matrix_get ts dets ud ut m _ _ v Hm Ev)
          as (ti & di & t & d & H1 & H2 & H3 & H4 & H5).
        rewrite Et in H1. injection H1 as <-.
        rewrite Ed in H2. injection H2 as <-.
        exists t, d. cbn [fst snd].
        apply Rltb_true in Elt.
        repeat split; try assumption;
          try (eapply nth_error_In; eassumption).
        lra.
    + apply IH. exact Hfold.
Qed.

(** Stage 2 only adds pairs of a still unmatched track and a still
    unmatched detection whose boxes overlap by more than [iou_thresh];
    the matches of stage 1 stay as they are. *)
Theorem stage2_matches_overlap (T : tracker) (ts : list track)
        (dets : list detection) (matches ms : list (nat * nat))
        (ud ut : list nat) :
  stage2 Feature Cov linear_sum_assignment T ts dets (matches, ud, ut)
  = Some ms ->
  exists added,
    ms = matches ++ added /\ Forall (overlapping T ts dets ud ut) added.
Proof.
  unfold stage2. intros H.
  destruct (Nat.ltb 0 (List.length ud) && Nat.ltb 0 (List.length ut)).
  - obind_inv H as m Em.
    eapply fold_stage2_overlap; eauto.
  - injection H as <-. exists []. rewrite app_nil_r. split; auto.
Qed.

End WithModels.

Lemma track_ids_unique_witness :
  NoDup (map (fun t : PlainRun.track => track_id t)
             (tracks (PlainRun.followed 2)))
  /\ Forall (fun t : PlainRun.track =>
               (1 <= track_id t < next_id (PlainRun.followed 2))%Z)
            (tracks (PlainRun.followed 2)).
Proof.
  exact (track_ids_unique _ _ _ _ _ _ _ _ _ (PlainRun.followed 2)
           (PlainRunFacts.followed_reachable 2)).
Defined.

Lemma first_frame_update :
  PlainRun.update (HybridTracker.init PlainRun.Feature PlainRun.Cov 30)
                  [PlainRun.player] tt
  = Some (PlainRun.followed 0, []).
Proof.
  unfold PlainRun.update, HybridTracker.update, HybridTracker.associate.
  rewrite PlainRunFacts.player_is_confident by reflexivity. reflexivity.
Qed.

(** The first player seen by a fresh tracker gets identity 1. *)
Lemma track_ids_fresh_witness :
  (next_id (HybridTracker.init PlainRun.Feature PlainRun.Cov 30)
   <= next_id (PlainRun.followed 0))%Z
  /\ forall t', In t' (tracks (PlainRun.followed 0)) ->
       In (track_id t')
          (map (fun t : PlainRun.track => track_id t)
               (tracks (HybridTracker.init PlainRun.Feature PlainRun.Cov 30)))
       \/ (next_id (HybridTracker.init PlainRun.Feature PlainRun.Cov 30)
           <= track_id t' < next_id (PlainRun.followed 0))%Z.
Proof.
  exact (track_ids_fresh _ _ _ _ _ _ _ _ _ _ _ _ _ _ first_frame_update).
Defined.

Lemma low_confidence_ignored_witness :
  PlainRun.update (PlainRun.followed 1)
                  [mk_detection (0, 0, 10, 20)%R (1 / 10)%R 0] tt
  = PlainRun.update (PlainRun.followed 1) [] tt.
Proof.
  apply low_confidence_ignored.
  constructor; [cbn; lra|constructor].
Defined.

Lemma idle_forgets_all_witness :
  exists T',
    HybridTracker.idle PlainRun.Feature PlainRun.Cov PlainRun.kf_fresh
      PlainRun.kf_predict PlainRun.kf_update PlainRun.Frame
      PlainRun.extract_features PlainRun.reid_row
      PlainRun.linear_sum_assignment (PlainRun.followed 1) (repeat tt 60)
    = Some T'
    /\ tracks T' = [] /\ next_id T' = next_id (PlainRun.followed 1).
Proof.
  apply idle_forgets_all.
  - apply PlainRunFacts.followed_reachable.
  - cbn. lia.
Defined.

Lemma first_track_box :
  get_box PlainRun.first_track = (0, 0, 10, 20)%R.
Proof.
  unfold PlainRun.first_track, Track.init, PlainRun.player.
  cbn [det_box det_score].
  unfold get_box, update_kf, to_xysr, set_kf, b0, b1, b2, b3; cbn.
  rewrite TrackFacts.sqrt_scale_ratio by lra.
  repeat f_equal; field.
Qed.

Lemma player_overlaps_own_track :
  Rltb (1 - iou (get_box PlainRun.first_track) (det_box PlainRun.player))
       (1 - iou_thresh (PlainRun.followed 0)) = true.
Proof.
  apply Rltb_true. rewrite first_track_box.
  unfold iou, PlainRun.player; cbn.
  rewrite (Rmax_left 0 0), (Rmin_left 10 10), (Rmin_left 20 20) by lra.
  rewrite (Rmax_right 0 (10 - 0)), (Rmax_right 0 (20 - 0)) by lra.
  lra.
Qed.

Lemma stage2_matches_overlap_witness :
  exists added,
    [(0%nat, 0%nat)] = [] ++ added
    /\ Forall
         (fun p : nat * nat =>
            exists t d,
              In (fst p) [0%nat] /\ In (snd p) [0%nat]
              /\ nth_error [PlainRun.first_track] (fst p) = Some t
              /\ nth_error [PlainRun.player] (snd p) = Some d
              /\ (iou_thresh (PlainRun.followed 0)
                  < iou (get_box t) (det_box d))%R)
         added.
Proof.
  apply (stage2_matches_overlap _ _ PlainRun.linear_sum_assignment
           (PlainRun.followed 0) [PlainRun.first_track] [PlainRun.player]
           [] [(0%nat, 0%nat)] [0%nat] [0%nat]).
  unfold stage2. cbn [List.length Nat.ltb Nat.leb andb].
  cbn [iou_matrix fold_right nth_error obind].
  cbn [PlainRun.linear_sum_assignment fold_left stage2_step fst snd
       mat_get nth_error obind].
  rewrite player_overlaps_own_track. reflexivity.
Defined.

End TrackerRunFacts.

(* ================================================================== *)
(** * What [update] returns *)

Module EmissionFacts.

Import Track HybridTracker.

Section WithModels.

Variable Feature : Type.
Variable Cov : Type.
Variable kf_fresh : Cov.
Variable kf_predict : kstate * Cov -> kstate * Cov.
Variable kf_update : kstate * Cov -> R * R * R * R -> kstate * Cov.
Variable Frame : Type.
Variable extract_features : Frame -> list Box -> list Feature.
Variable reid_row : list Feature -> list Feature -> list R.
Variable linear_sum_assignment : list (list R) -> list (nat * nat).

Local Abbreviation track := (Track.track Feature Cov).
Local Abbreviation tracker := (HybridTracker.tracker Feature Cov).
Local Abbreviation update :=
  (HybridTracker.update Feature Cov kf_fresh kf_predict kf_update Frame
     extract_features reid_row linear_sum_assignment).
Local Abbreviation associate :=
  (HybridTracker.associate Feature Cov kf_fresh kf_predict kf_update Frame
     extract_features reid_row linear_sum_assignment).
Local Abbreviation reachable :=
  (HybridTracker.reachable Feature Cov kf_fresh kf_predict kf_update Frame
     extract_features reid_row linear_sum_assignment).
Local Abbreviation ids := (map (fun t : track => track_id t)).

Local Open Scope Z_scope.






End WithModels.


End EmissionFacts.

(* ================================================================== *)
(** * Further properties of the pressing de-duplication *)

Module DedupMoreFacts.

Import SoccerMatchAnalyzer.

Local Open Scope Q_scope.

Local Abbreviation earlier :=
  (fun a b : PressingEvent => pr_timestamp a <= pr_timestamp b).

Lemma dedup_loop_In (w : Q) (last e : PressingEvent)
      (l : list PressingEvent) :
  In e (dedup_loop w last l) -> In e l.
Proof.
  revert last. induction l as [|a l IH]; intros last Hin; cbn in Hin.
  - exact Hin.
  - destruct (is_duplicate w last a).
    + right. eapply IH. exact Hin.
    + destruct Hin as [->|Hin]; [left; reflexivity|right; eapply IH; eauto].
Qed.

Lemma dedup_loop_sorted (w : Q) (last : PressingEvent)
      (l : list PressingEvent) :
  StronglySorted earlier l -> StronglySorted earlier (dedup_loop w last l).
Proof.
  intros Hs. revert last.
  induction Hs as [|a l Hl IH Ha]; intros last; cbn.
  - constructor.
  - destruct (is_duplicate w last a); [apply IH|].
    constructor; [apply IH|].
    apply Forall_forall. intros e He. apply dedup_loop_In in He.
    rewrite Forall_forall in Ha. apply (Ha e He).
Qed.

Lemma deduplicate_sorted (events : list PressingEvent) (w : Q) :
  StronglySorted earlier (deduplicate_events events w).
Proof.
  rewrite DedupFacts.deduplicate_unfold.
  pose proof (DedupFacts.sort_sorted events) as Hs.
  destruct (sort_by_timestamp events) as [|first rest]; [constructor|].
  inversion Hs as [|? ? Hrest Hfirst]; subst.
  constructor; [apply dedup_loop_sorted; exact Hrest|].
  apply Forall_forall. intros e He. apply dedup_loop_In in He.
  rewrite Forall_forall in Hfirst. apply (Hfirst e He).
Qed.

(** The result of [_deduplicate_events] is in timestamp order, holds only
    events of the input, and starts with an earliest input event: it is
    empty only for an empty input. *)
Theorem deduplicate_sorted_selection (events : list PressingEvent) (w : Q) :
  StronglySorted earlier (deduplicate_events events w)
  /\ (forall e, In e (deduplicate_events events w) -> In e events)
  /\ (events <> [] ->
      exists first rest,
        deduplicate_events events w = first :: rest
        /\ In first events
        /\ Forall (fun e => pr_timestamp first <= pr_timestamp e) events).
Proof.
  rewrite DedupFacts.deduplicate_unfold.
  pose proof (DedupFacts.sort_sorted events) as Hs.
  pose proof (DedupFacts.sort_perm events) as Hp.
  destruct (sort_by_timestamp events) as [|first rest] eqn:Es.
  - split; [constructor|]. split; [intros e []|].
    intros Hne. apply Permutation_sym, Permutation_nil in Hp. contradiction.
  - inversion Hs as [|? ? Hrest Hfirst]; subst. split; [|split].
    + constructor; [apply dedup_loop_sorted; exact Hrest|].
      apply Forall_forall. intros e He. apply dedup_loop_In in He.
      rewrite Forall_forall in Hfirst. apply (Hfirst e He).
    + intros e [<-|He].
      * eapply Permutation_in; [apply Permutation_sym; exact Hp|].
        left. reflexivity.
      * apply dedup_loop_In in He.
        eapply Permutation_in; [apply Permutation_sym; exact Hp|].
        right. exact He.
    + intros _. exists first, (dedup_loop w first rest).
      split; [reflexivity|]. split.
      * eapply Permutation_in; [apply Permutation_sym; exact Hp|].
        left. reflexivity.
      * apply (Permutation_Forall (Permutation_sym Hp)).
        constructor; [apply Qle_refl|exact Hfirst].
Qed.

Lemma sort_of_sorted (l : list PressingEvent) :
  StronglySorted earlier l -> sort_by_timestamp l = l.
Proof.
  unfold sort_by_timestamp.
  induction 1 as [|a l Hl IH Ha]; cbn [fold_right]; [reflexivity|].
  rewrite IH. destruct l as [|b l]; [reflexivity|].
  cbn. inversion Ha as [|? ? Hab _]; subst.
  apply Qle_bool_iff in Hab. rewrite Hab. reflexivity.
Qed.

Lemma dedup_loop_twice (w : Q) (last : PressingEvent)
      (l : list PressingEvent) :
  dedup_loop w last (dedup_loop w last l) = dedup_loop w last l.
Proof.
  revert last. induction l as [|a l IH]; intros last; cbn; [reflexivity|].
  destruct (is_duplicate w last a) eqn:E; [apply IH|].
  cbn. rewrite E, IH. reflexivity.
Qed.

(** De-duplicating an already de-duplicated list changes nothing. *)
Theorem deduplicate_idempotent (events : list PressingEvent) (w : Q) :
  deduplicate_events (deduplicate_events events w) w
  = deduplicate_events events w.
Proof.
  pose proof (deduplicate_sorted events w) as Hs.
  rewrite (DedupFacts.deduplicate_unfold (deduplicate_events events w)).
  rewrite (sort_of_sorted _ Hs).
  rewrite DedupFacts.deduplicate_unfold.
  destruct (sort_by_timestamp events) as [|first rest]; [reflexivity|].
  rewrite dedup_loop_twice. reflexivity.
Qed.

Lemma deduplicate_sorted_selection_witness :
  let e := fun ts => mk_pressing 300 ts 7 9 (3 # 1) (4 # 1) in
  exists first rest,
    deduplicate_events [e (115 # 10); e (100 # 10); e (105 # 10)] 1
    = first :: rest
    /\ In first [e (115 # 10); e (100 # 10); e (105 # 10)]
    /\ Forall (fun x => pr_timestamp first <= pr_timestamp x)
              [e (115 # 10); e (100 # 10); e (105 # 10)].
Proof.
  intros e.
  apply (proj2 (proj2 (deduplicate_sorted_selection
                         [e (115 # 10); e (100 # 10); e (105 # 10)] 1))).
  discriminate.
Defined.

End DedupMoreFacts.

(* ================================================================== *)
(** * Further properties of the trajectory metrics *)

Module MetricsFacts.

Import SoccerMatchAnalyzer.

Local Open Scope R_scope.

Lemma clip_within (v lo hi : R) : lo <= hi -> lo <= clip v lo hi <= hi.
Proof.
  intros H. unfold clip, Rmin, Rmax.
  destruct (Rle_dec v lo); destruct (Rle_dec _ hi); lra.
Qed.

(** Whenever [_compute_acceleration] returns, its first entry is 0 and
    every entry lies in [-10, 10]. *)
Theorem acceleration_bounded (velocity timestamps accel : list R) :
  compute_acceleration velocity timestamps = Some accel ->
  nth_error accel 0 = Some 0
  /\ Forall (fun a => -10 <= a <= 10) accel.
Proof.
  unfold compute_acceleration. intros H.
  obind_inv H as raw E. injection H as <-.
  split; [reflexivity|]. constructor; [lra|].
  apply Forall_map. apply Forall_forall. intros a _.
  apply clip_within. lra.
Qed.

Lemma broadcast_div_same_length (a b : list R) :
  List.length a = List.length b ->
  exists q, broadcast_div a b = Some q /\ List.length q = List.length a.
Proof.
  intros Hlen. unfold broadcast_div. rewrite Hlen, Nat.eqb_refl.
  eexists. split; [reflexivity|].
  rewrite length_map, length_combine, Hlen. apply Nat.min_id.
Qed.

(** For a non-empty track with as many timestamps as points and a frame
    rate other than 0, velocity and acceleration are both computed and
    have one entry per point. *)
Theorem metrics_one_per_point (cfg : AnalysisConfig)
        (coords : list (R * R)) (timestamps : list R) (fps : R) :
  fps <> 0 ->
  coords <> [] ->
  List.length coords = List.length timestamps ->
  exists velocity accel,
    compute_velocity cfg coords timestamps fps = Some velocity
    /\ compute_acceleration velocity timestamps = Some accel
    /\ List.length velocity = List.length coords
    /\ List.length accel = List.length coords.
Proof.
  intros Hfps Hne Hlen.
  assert (Hpos : (0 < List.length coords)%nat)
    by (destruct coords; [contradiction|cbn; lia]).
  unfold compute_velocity.
  rewrite (proj2 (Reqb_false fps 0) Hfps).
  rewrite length_map, VelocityFacts.diff_norm_length,
          VelocityFacts.diff_length, Hlen, Nat.eqb_refl.
  eexists. 
  set (velocity := 0 :: map _ _).
  assert (Hv : List.length velocity = List.length coords).
  { subst velocity. cbn [List.length].
    rewrite length_map, length_combine, length_map,
            VelocityFacts.diff_norm_length, VelocityFacts.diff_length.
    rewrite <- Hlen. lia. }
  unfold compute_acceleration.
  destruct (broadcast_div_same_length (diff velocity)
              (map (fun d => if Reqb d 0 then 33 / 1000 else d)
                   (diff timestamps))) as (q & Hq & Hql).
  { rewrite length_map, !VelocityFacts.diff_length. lia. }
  rewrite Hq. cbn [obind].
  eexists. split; [reflexivity|]. split; [reflexivity|].
  fold velocity. split; [lia|].
  cbn [List.length]. rewrite length_map, Hql, VelocityFacts.diff_length.
  lia.
Qed.

Lemma acceleration_bounded_witness :
  nth_error [0; 10; -10] 0 = Some 0
  /\ Forall (fun a => -10 <= a <= 10) [0; 10; -10].
Proof.
  apply (acceleration_bounded [0; 5; 0] [0; 1 / 10; 2 / 10]).
  unfold compute_acceleration. cbn.
  rewrite !(proj2 (Reqb_false _ 0)) by lra. cbn.
  unfold clip.
  rewrite (Rmax_left ((5 - 0) / (1 / 10 - 0)) (-10)) by lra.
  rewrite (Rmin_right ((5 - 0) / (1 / 10 - 0)) 10) by lra.
  rewrite (Rmax_right ((0 - 5) / (2 / 10 - 1 / 10)) (-10)) by lra.
  rewrite (Rmin_left (-10) 10) by lra. reflexivity.
Defined.

Lemma metrics_one_per_point_witness :
  exists velocity accel,
    compute_velocity default_config [(0, 0); (3, 4)] [0; 4 / 10] 30
    = Some velocity
    /\ compute_acceleration velocity [0; 4 / 10] = Some accel
    /\ List.length velocity = 2%nat
    /\ List.length accel = 2%nat.
Proof.
  apply (metrics_one_per_point default_config [(0, 0); (3, 4)]
                               [0; 4 / 10] 30).
  - lra.
  - discriminate.
  - reflexivity.
Defined.

Local Open Scope Z_scope.

Lemma smoothing_window_odd (sw : Z) (coords : list (R * R)) :
  let w := smoothing_window_for sw coords in
  w <= Z.of_nat (List.length coords) /\ w <= sw
  /\ w mod 2 = 1
  /\ (Z.of_nat (List.length coords) < 3 \/ sw < 3 -> w < 3).
Proof.
  unfold smoothing_window_for.
  set (m := Z.min (Z.of_nat (List.length coords)) sw).
  assert (Hm : m <= Z.of_nat (List.length coords) /\ m <= sw)
    by (subst m; lia).
  pose proof (Z.div_mod m 2 ltac:(lia)) as Hdm.
  pose proof (Z.mod_pos_bound m 2 ltac:(lia)) as Hb.
  destruct (Z.eqb (m mod 2) 0) eqn:E.
  - apply Z.eqb_eq in E.
    pose proof (Z.div_mod (m - 1) 2 ltac:(lia)) as Hdm'.
    pose proof (Z.mod_pos_bound (m - 1) 2 ltac:(lia)) as Hb'.
    repeat split; lia.
  - apply Z.eqb_neq in E. repeat split; lia.
Qed.

Section WithSavgol.

Variable savgol_filter : list (R * R) -> Z -> option (list (R * R)).

(** [_smooth_trajectory] returns a track shorter than 3 points, or any
    track when [smoothing_window] is below 3, unchanged; and whenever it
    returns something else, that is the output of the filter for an odd
    window of at least 3 that exceeds neither the track length nor
    [smoothing_window]. *)
Theorem smooth_trajectory_window (smoothing_window : Z)
        (coords : list (R * R)) :
  (Z.of_nat (List.length coords) < 3 \/ smoothing_window < 3 ->
   smooth_trajectory savgol_filter smoothing_window coords = coords)
  /\ (smooth_trajectory savgol_filter smoothing_window coords = coords
      \/ exists w,
           savgol_filter coords w
           = Some (smooth_trajectory savgol_filter smoothing_window coords)
           /\ w mod 2 = 1 /\ 3 <= w
           /\ w <= Z.of_nat (List.length coords)
           /\ w <= smoothing_window).
Proof.
  destruct (smoothing_window_odd smoothing_window coords)
    as (Hlen & Hsw & Hodd & Hshort).
  unfold smooth_trajectory. split.
  - intros H. specialize (Hshort H). apply Z.ltb_lt in Hshort.
    rewrite Hshort. reflexivity.
  - destruct (Z.ltb (smoothing_window_for smoothing_window coords) 3)
      eqn:E; [left; reflexivity|].
    apply Z.ltb_ge in E.
    destruct (savgol_filter coords _) as [smoothed|] eqn:Es;
      [|left; reflexivity].
    right. eexists. split; [exact Es|]. auto.
Qed.

End WithSavgol.

Lemma smooth_trajectory_window_witness :
  smooth_trajectory (fun c _ => Some (rev c)) 15 [(0, 0); (1, 1)]%R
  = [(0, 0); (1, 1)]%R.
Proof.
  apply (proj1 (smooth_trajectory_window (fun c _ => Some (rev c)) 15
                  [(0, 0); (1, 1)]%R)).
  left. cbn. lia.
Defined.

Local Open Scope nat_scope.

(** The sprint counter never exceeds the number of sprinting frames, and
    starting outside a sprint it is 0 exactly when no frame is sprinting. *)
Theorem sprint_count_bounds (in_sprint : bool) (flags : list bool) :
  count_sprints in_sprint flags <= List.length (filter (fun b => b) flags)
  /\ (count_sprints false flags = 0 <-> Forall (fun b => b = false) flags).
Proof.
  split.
  - revert in_sprint. induction flags as [|b flags IH]; intros s; cbn;
      [lia|].
    destruct b, s; cbn; try apply le_n_S; try apply IH.
    eapply Nat.le_trans; [apply IH|]. lia.
  - induction flags as [|b flags IH]; cbn.
    + split; [constructor|reflexivity].
    + destruct b; cbn.
      * split; [discriminate|]. intros H. inversion H. discriminate.
      * rewrite IH. split; [intros H; constructor; auto|].
        intros H. inversion H. assumption.
Qed.

(** A frame without sprinting separates sprints: the count of a track
    is the count before that frame plus the count after it. *)
Theorem sprint_count_additive (in_sprint : bool) (before after : list bool) :
  count_sprints in_sprint (before ++ false :: after)
  = count_sprints in_sprint before + count_sprints false after.
Proof.
  revert in_sprint. induction before as [|b before IH]; intros s; cbn.
  - reflexivity.
  - destruct b, s; cbn; rewrite IH; reflexivity.
Qed.

Lemma count_sprints_inside_run (n : nat) (after : list bool) :
  count_sprints true (repeat true n ++ false :: after)
  = count_sprints false after.
Proof. induction n as [|n IH]; cbn; [reflexivity|exact IH]. Qed.

(** An unbroken run of sprinting frames counts as one sprint. *)
Theorem sprint_run_counts_once (n : nat) (after : list bool) :
  count_sprints false (repeat true (S n) ++ false :: after)
  = S (count_sprints false after).
Proof.
  cbn [repeat app count_sprints andb negb]. f_equal.
  apply count_sprints_inside_run.
Qed.

End MetricsFacts.

(* ================================================================== *)
(** * Further properties of the pass detector *)

Module PassRunFacts.

Import PassDetector.

Local Open Scope R_scope.

Section WithRound.

Variable round : R -> nat -> R.

Local Abbreviation step_potential := (PassDetector.step_potential round).
Local Abbreviation update_and_complete_passes :=
  (PassDetector.update_and_complete_passes round).
Local Abbreviation make_event := (PassDetector.make_event round).
Local Abbreviation detect_frames := (PassDetector.detect_frames round).

(** One step leaves the pair of a candidate alone and never wakes it. *)
Lemma step_potential_keeps (cfg : AnalysisConfig)
      (players : list (Z * TrackPoint)) (frame : Z) (pp : potential) :
  let pp' := fst (step_potential cfg players frame pp) in
  passer pp' = passer pp /\ receiver pp' = receiver pp
  /\ team pp' = team pp
  /\ (is_active pp' = true -> is_active pp = true).
Proof.
  unfold PassDetector.step_potential.
  destruct (is_active pp) eqn:Ea; cbn [negb]; [|cbn; rewrite Ea; auto].
  destruct (players_dict players (passer pp)) as [psr|];
    [|cbn; auto].
  destruct (players_dict players (receiver pp)) as [rcv|];
    [|cbn; auto].
  destruct (Rltb _ _); [cbn; auto|].
  destruct (Rltb _ _); cbn; auto.
Qed.

(** A candidate completes at most once: a finished candidate is left as
    it is and gives no event, and a candidate that gives an event is
    finished by that step. *)
Theorem candidate_completes_once (cfg : AnalysisConfig)
        (players : list (Z * TrackPoint)) (frame : Z) (pp : potential) :
  (is_active pp = false ->
   forall players' frame',
     step_potential cfg players' frame' pp = (pp, None))
  /\ (forall ev,
        snd (step_potential cfg players frame pp) = Some ev ->
        is_active (fst (step_potential cfg players frame pp)) = false).
Proof.
  split.
  - intros Ha players' frame'. unfold PassDetector.step_potential.
    rewrite Ha. reflexivity.
  - intros ev. unfold PassDetector.step_potential.
    destruct (is_active pp); cbn [negb]; [|discriminate].
    destruct (players_dict players (passer pp)) as [psr|];
      [|discriminate].
    destruct (players_dict players (receiver pp)) as [rcv|];
      [|discriminate].
    destruct (Rltb _ _); [reflexivity|].
    destruct (Rltb _ _); discriminate.
Qed.

(** Every pass a frame reports comes from an active candidate whose two
    players are in the frame and further apart than the proximity
    threshold, and whose displacement, duration and receiver velocity are
    within the validation bounds. *)
Theorem reported_passes_are_valid (cfg : AnalysisConfig)
        (pps : list potential) (players : list (Z * TrackPoint))
        (frame : Z) (ev : PassEvent) :
  In ev (snd (update_and_complete_passes cfg pps players frame)) ->
  exists pp psr rcv,
    In pp pps /\ is_active pp = true
    /\ players_dict players (passer pp) = Some psr
    /\ players_dict players (receiver pp) = Some rcv
    /\ ev = make_event cfg pp rcv frame (tp_timestamp psr - start_time pp)
    /\ pass_proximity_threshold_m cfg
       < sqrt ((xm_smooth psr - xm_smooth rcv) ^ 2
               + (ym_smooth psr - ym_smooth rcv) ^ 2)
    /\ pass_min_distance_m cfg <= pass_distance_of pp rcv
       <= pass_max_distance_m cfg
    /\ 0 < tp_timestamp psr - start_time pp <= pass_max_duration_s cfg
    /\ 5 / 10 <= tp_velocity rcv.
Proof.
  intros Hin. apply PassFacts.completed_passes in Hin.
  destruct Hin as (pp & Hpp & Hstep).
  unfold PassDetector.step_potential in Hstep.
  destruct (is_active pp) eqn:Ea; cbn [negb] in Hstep; [|discriminate].
  destruct (players_dict players (passer pp)) as [psr|] eqn:Ep;
    [|discriminate].
  destruct (players_dict players (receiver pp)) as [rcv|] eqn:Er;
    [|discriminate].
  destruct (Rltb (pass_proximity_threshold_m cfg) _) eqn:Esep.
  - cbn [snd] in Hstep.
    destruct (validate_pass _ _ _ _ _) eqn:Ev; [|discriminate].
    injection Hstep as <-.
    apply PassFacts.validate_pass_iff in Ev.
    apply Rltb_true in Esep.
    exists pp, psr, rcv. cbn in Ev.
    repeat split; try assumption; try tauto.
  - match type of Hstep with
    | context [if ?c then _ else _] => destruct c
    end; cbn in Hstep; discriminate.
Qed.

Lemma try_start_pairs (cfg : AnalysisConfig) (frame : Z)
      (a b : Z * TrackPoint) (pps : list potential) :
  NoDup (active_pairs pps) ->
  NoDup (active_pairs (try_start cfg frame a b pps)).
Proof.
  intros Hnd. unfold try_start. destruct a as [pid1 p1], b as [pid2 p2].
  destruct (_ || _); [exact Hnd|].
  destruct (Rltb _ _); [|exact Hnd].
  destruct (existsb _ pps) eqn:Eex; cbn [negb]; [exact Hnd|].
  unfold active_pairs. rewrite filter_app, map_app. cbn.
  apply NoDup_app. repeat split.
  - exact Hnd.
  - constructor; [intros []|constructor].
  - intros k Hk [<-|[]].
    apply in_map_iff in Hk. destruct Hk as (pp & Hkey & Hpp).
    apply filter_In in Hpp. destruct Hpp as [Hpp Hact].
    injection Hkey as Hp Hr.
    assert (Hex : existsb (fun pp => Z.eqb (passer pp) pid1
                                     && Z.eqb (receiver pp) pid2
                                     && is_active pp) pps = true).
    { apply existsb_exists. exists pp. split; [exact Hpp|].
      rewrite Hp, Hr, Hact, !Z.eqb_refl. reflexivity. }
    congruence.
Qed.

Lemma detect_pass_starts_pairs (cfg : AnalysisConfig) (frame : Z)
      (players : list (Z * TrackPoint)) (pps : list potential) :
  NoDup (active_pairs pps) ->
  NoDup (active_pairs (detect_pass_starts cfg frame pps players)).
Proof.
  revert pps. induction players as [|a rest IH]; intros pps Hnd; cbn.
  - exact Hnd.
  - apply IH. clear IH. revert pps Hnd.
    induction rest as [|b rest IHr]; intros pps Hnd; cbn; [exact Hnd|].
    apply IHr. apply try_start_pairs. exact Hnd.
Qed.

Lemma update_and_complete_pairs (cfg : AnalysisConfig)
      (pps : list potential) (players : list (Z * TrackPoint)) (frame : Z) :
  NoDup (active_pairs pps) ->
  NoDup (active_pairs
           (fst (update_and_complete_passes cfg pps players frame)))
  /\ incl (active_pairs
             (fst (update_and_complete_passes cfg pps players frame)))
          (active_pairs pps).
Proof.
  induction pps as [|pp pps IH]; intros Hnd;
    cbn [PassDetector.update_and_complete_passes].
  - cbn. split; [constructor|intros k []].
  - pose proof (step_potential_keeps cfg players frame pp)
      as (Hp & Hr & _ & Hact).
    destruct (step_potential cfg players frame pp) as [pp' o].
    destruct (update_and_complete_passes cfg pps players frame)
      as [rest evs].
    cbn [fst] in *.
    assert (Hrest : NoDup (active_pairs pps)).
    { unfold active_pairs in Hnd |- *. cbn [filter] in Hnd.
      destruct (is_active pp); [|exact Hnd].
      cbn in Hnd. apply NoDup_cons_iff in Hnd. apply Hnd. }
    destruct (IH Hrest) as [IHnd IHincl].
    unfold active_pairs in *. cbn [filter] in Hnd |- *.
    destruct (is_active pp') eqn:Ea'.
    + rewrite (Hact eq_refl) in Hnd |- *. cbn [map] in Hnd |- *.
      rewrite Hp, Hr. split.
      * apply NoDup_cons_iff in Hnd. destruct Hnd as [Hnotin _].
        apply NoDup_cons; [|exact IHnd].
        intros Hin. apply Hnotin. apply IHincl. exact Hin.
      * intros k [<-|Hk]; [left; reflexivity|right; apply IHincl; exact Hk].
    + split; [exact IHnd|].
      intros k Hk. destruct (is_active pp); [right|]; apply IHincl; exact Hk.
Qed.

(** At most one active candidate per (passer, receiver) pair: if that
    holds before a frame, it holds after [_detect_pass_starts] and after
    [_update_and_complete_passes]. *)
Theorem one_active_candidate_per_pair (cfg : AnalysisConfig)
        (pps : list potential) (players : list (Z * TrackPoint))
        (frame : Z) :
  NoDup (active_pairs pps) ->
  NoDup (active_pairs (detect_pass_starts cfg frame pps players))
  /\ NoDup (active_pairs
             (fst (update_and_complete_passes cfg
                     (detect_pass_starts cfg frame pps players)
                     players frame))).
Proof.
  intros Hnd.
  pose proof (detect_pass_starts_pairs cfg frame players pps Hnd) as H1.
  split; [exact H1|].
  apply update_and_complete_pairs. exact H1.
Qed.

(** What [_detect_pass_starts] records about a new candidate of
    [frame]. *)
Local Abbreviation started :=
  (fun (cfg : AnalysisConfig) (frame : Z)
       (players : list (Z * TrackPoint)) (pp : potential) =>
     is_active pp = true /\ start_frame pp = frame
     /\ team pp <> TeamColor.UNKNOWN
     /\ min_distance pp < pass_proximity_threshold_m cfg
     /\ exists p1 p2,
          In (passer pp, p1) players /\ In (receiver pp, p2) players
          /\ tp_team p1 = team pp /\ tp_team p2 = team pp
          /\ start_pos pp = (xm_smooth p1, ym_smooth p1)
          /\ start_time pp = tp_timestamp p1).

Lemma try_start_appends (cfg : AnalysisConfig) (frame : Z)
      (players : list (Z * TrackPoint)) (a b : Z * TrackPoint)
      (pps : list potential) :
  In a players -> In b players ->
  exists added,
    try_start cfg frame a b pps = pps ++ added
    /\ Forall (started cfg frame players) added.
Proof.
  intros Ha Hb. unfold try_start.
  destruct a as [pid1 p1], b as [pid2 p2].
  destruct (negb (String.eqb (tp_team p1) (tp_team p2))
            || String.eqb (tp_team p1) TeamColor.UNKNOWN) eqn:Eteam;
    [exists []; rewrite app_nil_r; auto|].
  apply orb_false_iff in Eteam. destruct Eteam as [Esame Eknown].
  apply negb_false_iff, String.eqb_eq in Esame.
  apply String.eqb_neq in Eknown.
  destruct (Rltb _ (pass_proximity_threshold_m cfg)) eqn:Eclose;
    [|exists []; rewrite app_nil_r; auto].
  apply Rltb_true in Eclose.
  destruct (existsb _ pps); cbn [negb];
    [exists []; rewrite app_nil_r; auto|].
  eexists. split; [reflexivity|]. constructor; [|constructor].
  cbn. repeat split; try assumption.
  exists p1, p2. repeat split; auto.
Qed.

(** [_detect_pass_starts] only appends: the candidates it was given stay
    in place, and each one it adds is active, starts in this frame, joins
    two players of the frame that share a known team, and records a
    starting distance below the proximity threshold. *)
Theorem detect_pass_starts_appends (cfg : AnalysisConfig) (frame : Z)
        (players : list (Z * TrackPoint)) (pps : list potential) :
  exists added,
    detect_pass_starts cfg frame pps players = pps ++ added
    /\ Forall (started cfg frame players) added.
Proof.
  assert (Hgen : forall rest pps,
             incl rest players ->
             exists added,
               detect_pass_starts cfg frame pps rest = pps ++ added
               /\ Forall (started cfg frame players) added).
  { induction rest as [|a rest IH]; intros pps0 Hincl; cbn.
    - exists []. rewrite app_nil_r. auto.
    - assert (Ha : In a players) by (apply Hincl; left; reflexivity).
      assert (Hrest : incl rest players)
        by (intros x Hx; apply Hincl; right; exact Hx).
      assert (Hinner : forall l pps1,
                 incl l players ->
                 exists added,
                   fold_left (fun acc b => try_start cfg frame a b acc)
                             l pps1 = pps1 ++ added
                   /\ Forall (started cfg frame players) added).
      { induction l as [|b l IHl]; intros pps1 Hl; cbn.
        - exists []. rewrite app_nil_r. auto.
        - destruct (try_start_appends cfg frame players a b pps1 Ha
                      (Hl b (or_introl eq_refl))) as (ad1 & -> & H1).
          destruct (IHl (pps1 ++ ad1)
                        (fun x Hx => Hl x (or_intror Hx)))
            as (ad2 & -> & H2).
          exists (ad1 ++ ad2). rewrite app_assoc. split; [reflexivity|].
          apply Forall_app. auto. }
      destruct (Hinner rest pps0 Hrest) as (ad1 & -> & H1).
      destruct (IH (pps0 ++ ad1) Hrest) as (ad2 & -> & H2).
      exists (ad1 ++ ad2). rewrite app_assoc. split; [reflexivity|].
      apply Forall_app. auto. }
  apply Hgen. apply incl_refl.
Qed.

Lemma update_and_complete_teams (cfg : AnalysisConfig)
      (pps : list potential) (players : list (Z * TrackPoint)) (frame : Z) :
  Forall (fun pp => team pp <> TeamColor.UNKNOWN) pps ->
  Forall (fun pp => team pp <> TeamColor.UNKNOWN)
         (fst (update_and_complete_passes cfg pps players frame)).
Proof.
  induction 1 as [|pp pps Hpp Hpps IH];
    cbn [PassDetector.update_and_complete_passes]; [constructor|].
  pose proof (step_potential_keeps cfg players frame pp) as (_ & _ & Ht & _).
  destruct (step_potential cfg players frame pp) as [pp' o].
  destruct (update_and_complete_passes cfg pps players frame)
    as [rest evs].
  cbn [fst] in *. constructor; [rewrite Ht; exact Hpp|exact IH].
Qed.

Lemma try_start_teams (cfg : AnalysisConfig) (frame : Z)
      (a b : Z * TrackPoint) (pps : list potential) :
  Forall (fun pp => team pp <> TeamColor.UNKNOWN) pps ->
  Forall (fun pp => team pp <> TeamColor.UNKNOWN)
         (try_start cfg frame a b pps).
Proof.
  intros Hpps. unfold try_start. destruct a as [pid1 p1], b as [pid2 p2].
  destruct (negb (String.eqb (tp_team p1) (tp_team p2))
            || String.eqb (tp_team p1) TeamColor.UNKNOWN) eqn:Eteam;
    [exact Hpps|].
  apply orb_false_iff in Eteam. destruct Eteam as [_ Eknown].
  apply String.eqb_neq in Eknown.
  destruct (Rltb _ _); [|exact Hpps].
  destruct (existsb _ pps); cbn [negb]; [exact Hpps|].
  apply Forall_app. split; [exact Hpps|].
  constructor; [exact Eknown|constructor].
Qed.

Lemma detect_pass_starts_teams (cfg : AnalysisConfig) (frame : Z)
      (players : list (Z * TrackPoint)) (pps : list potential) :
  Forall (fun pp => team pp <> TeamColor.UNKNOWN) pps ->
  Forall (fun pp => team pp <> TeamColor.UNKNOWN)
         (detect_pass_starts cfg frame pps players).
Proof.
  revert pps. induction players as [|a rest IH]; intros pps Hpps; cbn.
  - exact Hpps.
  - apply IH. clear IH. revert pps Hpps.
    induction rest as [|b rest IHr]; intros pps Hpps; cbn; [exact Hpps|].
    apply IHr. apply try_start_teams. exact Hpps.
Qed.

Lemma reported_pass_team (cfg : AnalysisConfig) (pps : list potential)
      (players : list (Z * TrackPoint)) (frame : Z) (ev : PassEvent) :
  In ev (snd (update_and_complete_passes cfg pps players frame)) ->
  exists pp, In pp pps /\ pe_team ev = team pp.
Proof.
  intros Hin. apply PassFacts.completed_passes in Hin.
  destruct Hin as (pp & Hpp & Hstep). exists pp. split; [exact Hpp|].
  unfold PassDetector.step_potential in Hstep.
  destruct (is_active pp); cbn [negb] in Hstep; [|discriminate].
  destruct (players_dict players (passer pp)) as [psr|]; [|discriminate].
  destruct (players_dict players (receiver pp)) as [rcv|]; [|discriminate].
  match type of Hstep with
  | context [if ?c then _ else _] => destruct c
  end.
  - cbn [snd] in Hstep.
    destruct (validate_pass _ _ _ _ _); [|discriminate].
    injection Hstep as <-. reflexivity.
  - match type of Hstep with
    | context [if ?c then _ else _] => destruct c
    end; cbn in Hstep; discriminate.
Qed.

(** No pass is reported for players whose team is unknown: when the
    candidates a run starts from (none, for [detect_passes]) have known
    teams, so has every pass the frame loop reports. *)
Theorem reported_passes_have_team (cfg : AnalysisConfig)
        (frames : list (Z * list (Z * TrackPoint)))
        (pps : list potential) (ev : PassEvent) :
  Forall (fun pp => team pp <> TeamColor.UNKNOWN) pps ->
  In ev (detect_frames cfg pps frames) ->
  pe_team ev <> TeamColor.UNKNOWN.
Proof.
  revert pps. induction frames as [|[frame players] frames IH];
    intros pps Hpps Hin; cbn [PassDetector.detect_frames] in Hin.
  - destruct Hin.
  - pose proof (detect_pass_starts_teams cfg frame players pps Hpps) as H1.
    pose proof (update_and_complete_teams cfg _ players frame H1) as H2.
    pose proof (reported_pass_team cfg
                  (detect_pass_starts cfg frame pps players)
                  players frame ev) as Hteam.
    destruct (update_and_complete_passes cfg
                (detect_pass_starts cfg frame pps players) players frame)
      as [pps2 completed].
    cbn [fst snd] in *. apply in_app_or in Hin. destruct Hin as [Hin|Hin].
    + destruct (Hteam Hin) as (pp & Hpp & ->).
      rewrite Forall_forall in H1. apply (H1 pp Hpp).
    + apply (IH pps2 H2 Hin).
Qed.

End WithRound.

(** The sample candidate completes in the sample frame. *)
Lemma sample_pass_reported :
  In (make_event (fun x _ => x) default_config sample_potential
        (mk_point 30 1 2 0 1 (2 / 100) TeamColor.TEAM_A) 30 (1 - 0))
     (snd (update_and_complete_passes (fun x _ => x) default_config
             [sample_potential] (sample_players 2) 30)).
Proof.
  apply PassFacts.completed_passes. exists sample_potential.
  split; [left; reflexivity|].
  rewrite (PassFacts.step_potential_separated (fun x _ => x) default_config
             (sample_players 2) 30 sample_potential
             (mk_point 30 1 (-2) 0 0 (1 / 100) TeamColor.TEAM_A)
             (mk_point 30 1 2 0 1 (2 / 100) TeamColor.TEAM_A)
             eq_refl eq_refl eq_refl).
  - replace (validate_pass _ _ _ _ _) with true; [reflexivity|].
    symmetry. apply PassFacts.validate_pass_iff.
    unfold pass_distance_of; cbn.
    rewrite (PassFacts.sqrt_of_square _ 2) by (lra || ring). lra.
  - cbn. rewrite (PassFacts.sqrt_of_square _ 4) by (lra || ring). lra.
Qed.

Lemma reported_passes_are_valid_witness :
  exists pp psr rcv,
    In pp [sample_potential] /\ is_active pp = true
    /\ players_dict (sample_players 2) (passer pp) = Some psr
    /\ players_dict (sample_players 2) (receiver pp) = Some rcv
    /\ make_event (fun x _ => x) default_config sample_potential
                  (mk_point 30 1 2 0 1 (2 / 100) TeamColor.TEAM_A) 30
                  (1 - 0)
       = make_event (fun x _ => x) default_config pp rcv 30
                    (tp_timestamp psr - start_time pp)
    /\ pass_proximity_threshold_m default_config
       < sqrt ((xm_smooth psr - xm_smooth rcv) ^ 2
               + (ym_smooth psr - ym_smooth rcv) ^ 2)
    /\ pass_min_distance_m default_config <= pass_distance_of pp rcv
       <= pass_max_distance_m default_config
    /\ 0 < tp_timestamp psr - start_time pp
       <= pass_max_duration_s default_config
    /\ 5 / 10 <= tp_velocity rcv.
Proof.
  apply (reported_passes_are_valid (fun x _ => x) default_config
           [sample_potential] (sample_players 2) 30).
  exact sample_pass_reported.
Defined.

Lemma one_active_candidate_per_pair_witness :
  NoDup (active_pairs
           (detect_pass_starts default_config 30 [sample_potential]
                               (sample_players 2)))
  /\ NoDup (active_pairs
              (fst (update_and_complete_passes (fun x _ => x)
                      default_config
                      (detect_pass_starts default_config 30
                                          [sample_potential]
                                          (sample_players 2))
                      (sample_players 2) 30))).
Proof.
  apply one_active_candidate_per_pair.
  cbn. constructor; [intros []|constructor].
Defined.

Lemma sample_no_start :
  detect_pass_starts default_config 30 [sample_potential] (sample_players 2)
  = [sample_potential].
Proof.
  cbn [detect_pass_starts sample_players fold_left].
  unfold try_start. cbn.
  rewrite (PassFacts.sqrt_of_square _ 4) by (lra || ring).
  rewrite (proj2 (Rltb_false 4 3)) by lra. reflexivity.
Qed.

Lemma reported_passes_have_team_witness :
  pe_team (make_event (fun x _ => x) default_config sample_potential
             (mk_point 30 1 2 0 1 (2 / 100) TeamColor.TEAM_A) 30 (1 - 0))
  <> TeamColor.UNKNOWN.
Proof.
  apply (reported_passes_have_team (fun x _ => x) default_config
           [(30%Z, sample_players 2)] [sample_potential]).
  - constructor; [discriminate|constructor].
  - cbn [detect_frames]. rewrite sample_no_start.
    pose proof sample_pass_reported as Hin.
    destruct (update_and_complete_passes _ _ _ _ _) as [pps2 completed].
    apply in_or_app. left. exact Hin.
Defined.

End PassRunFacts.

(* ================================================================== *)
(** * Clip ranges *)

Module ClipFacts.

Import ClipRanges.

Local Open Scope Z_scope.

Lemma clip_range_inside (fps : Q) (total_frames : Z) (c : clip)
      (s e : Z) :
  clip_range fps total_frames c = Some (s, e) ->
  0 <= s < e /\ e <= total_frames.
Proof.
  unfold clip_range. intros H.
  obind_inv H as cs Es. obind_inv H as ce Ee.
  destruct (Z.geb _ _) eqn:Eg; [discriminate|].
  injection H as <- <-.
  rewrite Z.geb_leb in Eg. apply Z.leb_gt in Eg. lia.
Qed.

Lemma clip_ranges_inside (fps : Q) (total_frames : Z)
      (clips_data : list clip) (s e : Z) :
  In (s, e) (clip_ranges fps total_frames clips_data) ->
  0 <= s < e /\ e <= total_frames.
Proof.
  induction clips_data as [|c rest IH]; cbn; [intros []|].
  destruct (clip_range fps total_frames c) as [[s0 e0]|] eqn:Ec;
    [|exact IH].
  intros [Heq|Hin]; [|exact (IH Hin)].
  injection Heq as <- <-. eapply clip_range_inside. exact Ec.
Qed.

(** [parse_clips] always returns at least one range.  Every range is
    either the whole video (0, total_frames), used when no clip is given
    or none survives, or a clip's range with 0 <= start < end <=
    total_frames; for a video with at least one frame all returned ranges
    satisfy these bounds. *)
Theorem parse_clips_ranges (clips_data : list clip) (fps : Q)
        (total_frames : Z) :
  parse_clips clips_data fps total_frames <> []
  /\ (forall s e,
        In (s, e) (parse_clips clips_data fps total_frames) ->
        (s, e) = (0, total_frames) \/ (0 <= s < e /\ e <= total_frames))
  /\ (0 < total_frames ->
      forall s e,
        In (s, e) (parse_clips clips_data fps total_frames) ->
        0 <= s < e /\ e <= total_frames).
Proof.
  assert (Hall : forall s e,
             In (s, e) (parse_clips clips_data fps total_frames) ->
             (s, e) = (0, total_frames)
             \/ (0 <= s < e /\ e <= total_frames)).
  { intros s e. unfold parse_clips.
    destruct clips_data as [|c rest]; [intros [H|[]]; left; auto|].
    destruct (clip_ranges fps total_frames (c :: rest)) as [|r rs] eqn:Er.
    - intros [H|[]]; left; auto.
    - intros Hin. right. rewrite <- Er in Hin.
      eapply clip_ranges_inside. exact Hin. }
  split; [|split].
  - unfold parse_clips. destruct clips_data; [discriminate|].
    destruct (clip_ranges _ _ _); discriminate.
  - exact Hall.
  - intros Hpos s e Hin. destruct (Hall s e Hin) as [Heq|H]; [|exact H].
    injection Heq as -> ->. lia.
Qed.

(** Clips from 2 s to 4 s, from 5 s to 3 s, and one without an end, at
    25 fps in a 90-frame video. *)
Example parse_clips_sample :
  parse_clips [mk_clip (Some 2%Q) (Some 4%Q);
               mk_clip (Some 5%Q) (Some 3%Q);
               mk_clip (Some 1%Q) None] 25 90
  = [(50, 90)].
Proof. vm_compute. reflexivity. Qed.

Lemma parse_clips_ranges_witness : 0 <= 50 < 90 /\ 90 <= 90.
Proof.
  apply (proj2 (proj2 (parse_clips_ranges
                         [mk_clip (Some 2%Q) (Some 4%Q);
                          mk_clip (Some 5%Q) (Some 3%Q)] 25 90))
               ltac:(lia) 50 90).
  vm_compute. left. reflexivity.
Defined.

End ClipFacts.

(* ================================================================== *)
(** * Passing network *)

Module NetworkFacts.

Import PassingNetworkAnalyzer.

Lemma count_of_bump (k k' : Z) (counts : list (Z * nat)) :
  count_of k (bump k' counts)
  = if Z.eqb k k' then S (count_of k counts) else count_of k counts.
Proof.
  induction counts as [|[k0 c0] rest IH]; cbn.
  - destruct (Z.eqb k k'); reflexivity.
  - destruct (Z.eqb k' k0) eqn:E0; cbn.
    + apply Z.eqb_eq in E0. subst k0.
      destruct (Z.eqb k k'); reflexivity.
    + destruct (Z.eqb k k0) eqn:E1.
      * apply Z.eqb_eq in E1. subst k0.
        rewrite Z.eqb_sym in E0. rewrite E0. reflexivity.
      * exact IH.
Qed.

Lemma bump_keys (k : Z) (counts : list (Z * nat)) :
  NoDup (map fst counts) ->
  NoDup (map fst (bump k counts))
  /\ forall x, In x (map fst (bump k counts))
               <-> x = k \/ In x (map fst counts).
Proof.
  induction counts as [|[k0 c0] rest IH]; cbn; intros Hnd.
  - split; [constructor; [intros []|constructor]|].
    intros x. split; [intros [H|[]]; auto|intros [H|[]]; auto].
  - apply NoDup_cons_iff in Hnd. destruct Hnd as [Hnotin Hrest].
    destruct (IH Hrest) as [IHnd IHin].
    destruct (Z.eqb k k0) eqn:E; cbn.
    + apply Z.eqb_eq in E. subst k0.
      split; [apply NoDup_cons; assumption|].
      intros x. intuition (subst; auto).
    + apply Z.eqb_neq in E. split.
      * apply NoDup_cons; [|exact IHnd].
        rewrite IHin. intros [H|H]; [congruence|contradiction].
      * intros x. rewrite IHin. intuition (subst; auto).
Qed.

Lemma bump_positive (k : Z) (counts : list (Z * nat)) :
  Forall (fun kv => 1 <= snd kv) counts ->
  Forall (fun kv => 1 <= snd kv) (bump k counts).
Proof.
  induction 1 as [|[k0 c0] rest H0 Hrest IH]; cbn.
  - constructor; [cbn; lia|constructor].
  - destruct (Z.eqb k k0); constructor; cbn in *; auto; lia.
Qed.

(** Under distinct keys an entry of the table holds the count of its
    key. *)
Lemma count_of_entry (k : Z) (c : nat) (counts : list (Z * nat)) :
  NoDup (map fst counts) -> In (k, c) counts -> count_of k counts = c.
Proof.
  induction counts as [|[k0 c0] rest IH]; cbn; intros Hnd Hin;
    [destruct Hin|].
  apply NoDup_cons_iff in Hnd. destruct Hnd as [Hnotin Hrest].
  destruct Hin as [Heq|Hin].
  - injection Heq as -> ->. rewrite Z.eqb_refl. reflexivity.
  - destruct (Z.eqb k k0) eqn:E.
    + apply Z.eqb_eq in E. subst k0. exfalso. apply Hnotin.
      apply in_map_iff. exists (k, c). auto.
    + apply IH; assumption.
Qed.

Lemma count_of_positive (k : Z) (counts : list (Z * nat)) :
  Forall (fun kv => 1 <= snd kv) counts ->
  (In k (map fst counts) <-> 1 <= count_of k counts).
Proof.
  induction 1 as [|[k0 c0] rest H0 Hrest IH]; cbn.
  - split; [intros []|lia].
  - destruct (Z.eqb k k0) eqn:E.
    + apply Z.eqb_eq in E. subst k0. cbn in H0. split; auto.
    + apply Z.eqb_neq in E. rewrite <- IH. split; [|auto].
      intros [H|H]; [congruence|exact H].
Qed.

(** The table built from a list of players: distinct keys, positive
    counts, and each key's count is its number of occurrences. *)
Lemma tally (ids : list Z) (start : list (Z * nat)) :
  NoDup (map fst start) ->
  Forall (fun kv => 1 <= snd kv) start ->
  let counts := fold_left (fun c k => bump k c) ids start in
  NoDup (map fst counts)
  /\ Forall (fun kv => 1 <= snd kv) counts
  /\ forall k, count_of k counts
               = count_of k start + count_occ Z.eq_dec ids k.
Proof.
  revert start. induction ids as [|i ids IH]; intros start Hnd Hpos; cbn.
  - repeat split; auto.
  - destruct (bump_keys i start Hnd) as [Hnd' _].
    destruct (IH (bump i start) Hnd' (bump_positive i start Hpos))
      as (H1 & H2 & H3).
    repeat split; auto. intros k. rewrite H3, count_of_bump.
    destruct (Z.eq_dec i k) as [->|Hne].
    + rewrite Z.eqb_refl. lia.
    + replace (Z.eqb k i) with false; [lia|].
      symmetry. apply Z.eqb_neq. congruence.
Qed.

Local Abbreviation more := (fun a b : Z * nat => snd b <= snd a).

Lemma insert_desc_perm (x : Z * nat) (l : list (Z * nat)) :
  Permutation (x :: l) (insert_desc x l).
Proof.
  induction l as [|h l IH]; cbn; [apply Permutation_refl|].
  destruct (Nat.leb (snd h) (snd x)); [apply Permutation_refl|].
  eapply perm_trans; [apply perm_swap|]. apply perm_skip. exact IH.
Qed.

Lemma sort_desc_perm (l : list (Z * nat)) : Permutation l (sort_desc l).
Proof.
  induction l as [|x l IH]; cbn; [apply perm_nil|].
  eapply perm_trans; [apply perm_skip; exact IH|]. apply insert_desc_perm.
Qed.

Lemma insert_desc_sorted (x : Z * nat) (l : list (Z * nat)) :
  StronglySorted more l -> StronglySorted more (insert_desc x l).
Proof.
  induction 1 as [|h l Hl IH Hh]; cbn.
  - constructor; constructor.
  - destruct (Nat.leb (snd h) (snd x)) eqn:E.
    + apply Nat.leb_le in E. constructor; [constructor; assumption|].
      constructor; [exact E|].
      eapply Forall_impl; [|exact Hh]. cbn. intros; lia.
    + apply Nat.leb_gt in E. constructor; [exact IH|].
      apply (Permutation_Forall (insert_desc_perm x l)).
      constructor; [cbn; lia|exact Hh].
Qed.

Lemma sort_desc_sorted (l : list (Z * nat)) :
  StronglySorted more (sort_desc l).
Proof.
  induction l as [|x l IH]; cbn; [constructor|].
  apply insert_desc_sorted. exact IH.
Qed.

Lemma in_firstn {A : Type} (n : nat) (l : list A) (a : A) :
  In a (firstn n l) -> In a l.
Proof.
  intros H. rewrite <- (firstn_skipn n l). apply in_or_app. left. exact H.
Qed.

Lemma in_skipn {A : Type} (n : nat) (l : list A) (a : A) :
  In a (skipn n l) -> In a l.
Proof.
  intros H. rewrite <- (firstn_skipn n l). apply in_or_app. right. exact H.
Qed.

Lemma sorted_split (n : nat) (l : list (Z * nat)) :
  StronglySorted more l ->
  StronglySorted more (firstn n l)
  /\ forall a b, In a (firstn n l) -> In b (skipn n l) -> more a b.
Proof.
  intros Hs. revert n. induction Hs as [|h l Hl IH Hh]; intros n.
  - rewrite firstn_nil, skipn_nil. split; [constructor|intros a b []].
  - destruct n as [|n]; cbn.
    + split; [constructor|intros a b []].
    + destruct (IH n) as [IH1 IH2]. split.
      * constructor; [exact IH1|].
        apply Forall_forall. intros a Ha. rewrite Forall_forall in Hh.
        apply Hh. eapply in_firstn. exact Ha.
      * intros a b [<-|Ha] Hb.
        -- rewrite Forall_forall in Hh. apply Hh.
           eapply in_skipn. exact Hb.
        -- apply IH2; assumption.
Qed.

Lemma NoDup_firstn {A : Type} (n : nat) (l : list A) :
  NoDup l -> NoDup (firstn n l).
Proof.
  intros H. rewrite <- (firstn_skipn n l) in H.
  apply NoDup_app_remove_r in H. exact H.
Qed.

(** [_find_key_players] returns at most five (player, count) pairs, one
    per player, largest count first; each count is the number of passes
    the player made (or received, by [role]) and is at least 1; and no
    player left out has more passes than a player listed. *)
Theorem key_players_top_five (passes : list PassEvent)
        (role : String.string) :
  let listed := find_key_players passes role in
  let volume :=
    fun k => count_occ Z.eq_dec (map (role_player role) passes) k in
  List.length listed <= 5
  /\ NoDup (map fst listed)
  /\ StronglySorted more listed
  /\ (forall k c, In (k, c) listed -> c = volume k /\ 1 <= c)
  /\ (forall k, ~ In k (map fst listed) ->
       forall k' c', In (k', c') listed -> volume k <= c').
Proof.
  intros listed volume. unfold find_key_players in listed.
  set (counts := fold_left (fun c e => bump (role_player role e) c)
                           passes []) in *.
  assert (Hcounts : counts
                    = fold_left (fun c k => bump k c)
                                (map (role_player role) passes) []).
  { subst counts. generalize (@nil (Z * nat)).
    induction passes as [|e passes IH]; intros start; cbn;
      [reflexivity|apply IH]. }
  destruct (tally (map (role_player role) passes) [])
    as (Hnd & Hpos & Hcount); [constructor|constructor|].
  rewrite <- Hcounts in Hnd, Hpos, Hcount. cbn in Hcount.
  pose proof (sort_desc_perm counts) as Hperm.
  destruct (sorted_split 5 (sort_desc counts) (sort_desc_sorted counts))
    as [Hsorted Hsplit].
  assert (Hentry : forall k c, In (k, c) (sort_desc counts) ->
                               c = volume k /\ 1 <= c).
  { intros k c Hin.
    apply (Permutation_in _ (Permutation_sym Hperm)) in Hin.
    split.
    - rewrite <- (count_of_entry k c counts Hnd Hin). apply Hcount.
    - rewrite Forall_forall in Hpos. apply (Hpos (k, c) Hin). }
  split; [apply firstn_le_length|]. split; [|split; [exact Hsorted|split]].
  - subst listed. rewrite <- firstn_map. apply NoDup_firstn.
    apply (Permutation_NoDup (Permutation_map fst Hperm)). exact Hnd.
  - intros k c Hin. apply Hentry. eapply in_firstn. exact Hin.
  - intros k Hout k' c' Hin'.
    destruct (Nat.eq_dec (volume k) 0) as [->|Hpos']; [lia|].
    assert (Hk : In k (map fst counts)).
    { apply (count_of_positive k counts Hpos). rewrite Hcount.
      fold (volume k). lia. }
    apply in_map_iff in Hk. destruct Hk as ([k0 c] & Hfst & Hin).
    cbn in Hfst. subst k0.
    apply (Permutation_in _ Hperm) in Hin.
    destruct (Hentry k c Hin) as [Hc _].
    rewrite <- (firstn_skipn 5 (sort_desc counts)) in Hin.
    apply in_app_or in Hin. destruct Hin as [Hin|Hin].
    + exfalso. apply Hout. apply in_map_iff. exists (k, c). auto.
    + specialize (Hsplit (k', c') (k, c) Hin' Hin). cbn in Hsplit. lia.
Qed.

Lemma row_of_bump_edge (p p' r' : Z) (graph : list (Z * list (Z * nat))) :
  row_of p (bump_edge p' r' graph)
  = if Z.eqb p p' then bump r' (row_of p graph) else row_of p graph.
Proof.
  induction graph as [|[k row] rest IH]; cbn.
  - destruct (Z.eqb p p'); reflexivity.
  - destruct (Z.eqb p' k) eqn:E0; cbn.
    + apply Z.eqb_eq in E0. subst k.
      destruct (Z.eqb p p'); reflexivity.
    + destruct (Z.eqb p k) eqn:E1.
      * apply Z.eqb_eq in E1. subst k.
        rewrite Z.eqb_sym in E0. rewrite E0. reflexivity.
      * exact IH.
Qed.

Lemma bump_edge_keys (p r : Z) (graph : list (Z * list (Z * nat))) :
  NoDup (map fst graph) ->
  NoDup (map fst (bump_edge p r graph))
  /\ forall x, In x (map fst (bump_edge p r graph))
               <-> x = p \/ In x (map fst graph).
Proof.
  induction graph as [|[k row] rest IH]; cbn; intros Hnd.
  - split; [constructor; [intros []|constructor]|].
    intros x. split; [intros [H|[]]; auto|intros [H|[]]; auto].
  - apply NoDup_cons_iff in Hnd. destruct Hnd as [Hnotin Hrest].
    destruct (IH Hrest) as [IHnd IHin].
    destruct (Z.eqb p k) eqn:E; cbn.
    + apply Z.eqb_eq in E. subst k.
      split; [apply NoDup_cons; assumption|].
      intros x. intuition (subst; auto).
    + apply Z.eqb_neq in E. split.
      * apply NoDup_cons; [|exact IHnd].
        rewrite IHin. intros [H|H]; [congruence|contradiction].
      * intros x. rewrite IHin. intuition (subst; auto).
Qed.

(** The passes from [p] to [r]. *)
Local Abbreviation from_to :=
  (fun (p r : Z) (e : PassEvent) =>
     Z.eqb (passer_id e) p && Z.eqb (receiver_id e) r).

Lemma graph_fold (passes : list PassEvent)
      (start : list (Z * list (Z * nat))) :
  NoDup (map fst start) ->
  (forall p, Forall (fun kv => 1 <= snd kv) (row_of p start)) ->
  let graph :=
    fold_left (fun g e => bump_edge (passer_id e) (receiver_id e) g)
              passes start in
  NoDup (map fst graph)
  /\ (forall p, Forall (fun kv => 1 <= snd kv) (row_of p graph))
  /\ forall p r,
       count_of r (row_of p graph)
       = count_of r (row_of p start)
         + List.length (filter (from_to p r) passes).
Proof.
  revert start. induction passes as [|e passes IH]; intros start Hnd Hpos;
    cbn [fold_left].
  - repeat split; auto; try (intros p r; cbn; lia).
  - destruct (bump_edge_keys (passer_id e) (receiver_id e) start Hnd)
      as [Hnd' _].
    assert (Hpos' : forall p,
               Forall (fun kv => 1 <= snd kv)
                      (row_of p (bump_edge (passer_id e) (receiver_id e)
                                           start))).
    { intros p. rewrite row_of_bump_edge.
      destruct (Z.eqb p (passer_id e)); [apply bump_positive|]; apply Hpos. }
    destruct (IH _ Hnd' Hpos') as (H1 & H2 & H3).
    repeat split; auto. intros p r. rewrite H3, row_of_bump_edge.
    cbn [filter]. rewrite (Z.eqb_sym (passer_id e) p).
    destruct (Z.eqb p (passer_id e)); cbn [andb].
    + rewrite count_of_bump. rewrite (Z.eqb_sym (receiver_id e) r).
      destruct (Z.eqb r (receiver_id e)); cbn [List.length]; lia.
    + lia.
Qed.

(** [_build_graph] has one row per passer, and the weight it stores for
    (p, r) is the number of passes from p to r; so r is in the row of p
    exactly when some pass went from p to r. *)
Theorem build_graph_counts (passes : list PassEvent) :
  NoDup (map fst (build_graph passes))
  /\ (forall p r,
        count_of r (row_of p (build_graph passes))
        = List.length (filter (from_to p r) passes))
  /\ (forall p r,
        has_edge (build_graph passes) p r = true
        <-> exists e, In e passes /\ passer_id e = p /\ receiver_id e = r).
Proof.
  destruct (graph_fold passes []) as (Hnd & Hpos & Hcount);
    [constructor|intros p; constructor|].
  fold (build_graph passes) in Hnd, Hpos, Hcount.
  split; [exact Hnd|]. split; [intros p r; rewrite Hcount; reflexivity|].
  intros p r. unfold has_edge.
  assert (Hex : existsb (fun kv : Z * nat => Z.eqb r (fst kv))
                        (row_of p (build_graph passes)) = true
                <-> In r (map fst (row_of p (build_graph passes)))).
  { rewrite existsb_exists. split.
    - intros (kv & Hin & Heq). apply Z.eqb_eq in Heq. subst r.
      apply in_map. exact Hin.
    - intros Hin. apply in_map_iff in Hin. destruct Hin as (kv & <- & Hin).
      exists kv. split; [exact Hin|apply Z.eqb_refl]. }
  rewrite Hex, (count_of_positive r _ (Hpos p)), Hcount. cbn [count_of].
  split.
  - intros Hlen.
    destruct (filter (from_to p r) passes) as [|e l] eqn:Ef;
      [cbn in Hlen; lia|].
    assert (Hin : In e (filter (from_to p r) passes))
      by (rewrite Ef; left; reflexivity).
    apply filter_In in Hin. destruct Hin as [Hin Hpr].
    apply andb_true_iff in Hpr. destruct Hpr as [Hp Hr].
    apply Z.eqb_eq in Hp, Hr. exists e. auto.
  - intros (e & Hin & Hp & Hr).
    assert (Hf : In e (filter (from_to p r) passes)).
    { apply filter_In. split; [exact Hin|].
      rewrite Hp, Hr, !Z.eqb_refl. reflexivity. }
    destruct (filter (from_to p r) passes); [destruct Hf|cbn; lia].
Qed.

Lemma triangles_with_spec (graph : list (Z * list (Z * nat)))
      (p1 : Z) (players : list Z) (a b c : Z) :
  In (a, b, c) (triangles_with graph p1 players) ->
  a = p1 /\ In b players /\ In c players
  /\ (NoDup players -> b <> c)
  /\ has_edge graph a b = true /\ has_edge graph b c = true
  /\ has_edge graph c a = true.
Proof.
  induction players as [|p2 rest IH]; cbn; [intros []|].
  intros Hin. apply in_app_or in Hin. destruct Hin as [Hin|Hin].
  - apply in_map_iff in Hin. destruct Hin as (p3 & Heq & Hin).
    injection Heq as <- <- <-. apply filter_In in Hin.
    destruct Hin as [Hin Hedges].
    apply andb_true_iff in Hedges. destruct Hedges as [Hedges H31].
    apply andb_true_iff in Hedges. destruct Hedges as [H12 H23].
    repeat split; auto.
    intros Hnd Heq. apply NoDup_cons_iff in Hnd. subst. tauto.
  - destruct (IH Hin) as (H1 & H2 & H3 & H4 & H5).
    repeat split; auto; try tauto.
    intros Hnd. apply NoDup_cons_iff in Hnd. tauto.
Qed.

Lemma all_triangles_spec (graph : list (Z * list (Z * nat)))
      (players : list Z) (a b c : Z) :
  NoDup players ->
  In (a, b, c) (all_triangles graph players) ->
  a <> b /\ a <> c /\ b <> c
  /\ In a players /\ In b players /\ In c players
  /\ has_edge graph a b = true /\ has_edge graph b c = true
  /\ has_edge graph c a = true.
Proof.
  induction players as [|p1 rest IH]; cbn; [intros _ []|].
  intros Hnd Hin. apply NoDup_cons_iff in Hnd. destruct Hnd as [Hnotin Hnd].
  apply in_app_or in Hin. destruct Hin as [Hin|Hin].
  - apply triangles_with_spec in Hin.
    destruct Hin as (-> & Hb & Hc & Hbc & H12 & H23 & H31).
    split; [intros ->; contradiction|].
    split; [intros ->; contradiction|].
    split; [exact (Hbc Hnd)|].
    repeat split; auto.
  - destruct (IH Hnd Hin) as (H1 & H2 & H3 & H4 & H5 & H6 & H7).
    repeat split; auto; tauto.
Qed.

(** For a graph with one row per passer (as [_build_graph] makes it),
    [_find_triangles] returns at most ten triples; each is made of three
    different passers p1, p2, p3 with p2 in the row of p1, p3 in the row
    of p2 and p1 in the row of p3. *)
Theorem triangles_are_cycles (graph : list (Z * list (Z * nat))) :
  NoDup (map fst graph) ->
  List.length (find_triangles graph) <= 10
  /\ forall p1 p2 p3,
       In (p1, p2, p3) (find_triangles graph) ->
       p1 <> p2 /\ p1 <> p3 /\ p2 <> p3
       /\ In p1 (map fst graph) /\ In p2 (map fst graph)
       /\ In p3 (map fst graph)
       /\ has_edge graph p1 p2 = true /\ has_edge graph p2 p3 = true
       /\ has_edge graph p3 p1 = true.
Proof.
  intros Hnd. unfold find_triangles. split; [apply firstn_le_length|].
  intros p1 p2 p3 Hin. apply in_firstn in Hin.
  apply (all_triangles_spec graph (map fst graph)); assumption.
Qed.

Lemma triangles_are_cycles_witness :
  let graph := [(1%Z, [(2%Z, 3)]); (2%Z, [(3%Z, 1)]);
                (3%Z, [(1%Z, 2); (2%Z, 1)])] in
  List.length (find_triangles graph) <= 10
  /\ forall p1 p2 p3,
       In (p1, p2, p3) (find_triangles graph) ->
       p1 <> p2 /\ p1 <> p3 /\ p2 <> p3
       /\ In p1 (map fst graph) /\ In p2 (map fst graph)
       /\ In p3 (map fst graph)
       /\ has_edge graph p1 p2 = true /\ has_edge graph p2 p3 = true
       /\ has_edge graph p3 p1 = true.
Proof.
  intros graph. apply triangles_are_cycles.
  cbn. repeat constructor; cbn; intuition discriminate.
Defined.

(** The triangle of that graph. *)
Example find_triangles_sample :
  find_triangles [(1%Z, [(2%Z, 3)]); (2%Z, [(3%Z, 1)]);
                  (3%Z, [(1%Z, 2); (2%Z, 1)])]
  = [(1%Z, 2%Z, 3%Z)].
Proof. vm_compute. reflexivity. Qed.

End NetworkFacts.

(* ================================================================== *)
(** * Further properties of the coordinate transform and the grid *)

Module CalibrationFacts.

Import Ascii HomographyTransform.

Local Open Scope Q_scope.

Lemma dot_3x3 (m : ndarray) (x y : Q) :
  shape_is_3x3 m = true ->
  exists v0 v1 w, dot m [x; y; 1] = Some [v0; v1; w].
Proof.
  unfold shape_is_3x3. intros H. apply andb_true_iff in H.
  destruct H as [Hrows Hcols]. apply Nat.eqb_eq in Hrows.
  destruct m as [|r0 [|r1 [|r2 [|r3 m]]]]; try discriminate Hrows.
  cbn in Hcols. repeat (apply andb_true_iff in Hcols;
                        destruct Hcols as [? Hcols]).
  cbn [dot]. unfold dot_row. cbn [List.length].
  repeat match goal with
         | H : Nat.eqb (List.length ?r) 3 = true |- _ =>
             apply Nat.eqb_eq in H; rewrite H
         end.
  cbn. eauto.
Qed.

(** A transform the constructor accepted is enabled, holds its 3x3
    matrix, and never takes the exception path: [transform] always gets
    its result from the body of the [try] block. *)
Theorem constructed_never_raises (m : ndarray) (h : t) :
  init (Some m) = Some h ->
  enabled h = true /\ matrix h = Some m
  /\ shape_is_3x3 m = true /\ allclose_zero m = false
  /\ forall x y,
       exists p, transform_try (matrix h) x y = Some p
                 /\ transform h x y = p.
Proof.
  unfold init. intros H.
  destruct (validate_matrix m) eqn:Ev; [|discriminate].
  injection H as <-. unfold validate_matrix in Ev.
  apply andb_true_iff in Ev. destruct Ev as [Hshape Hclose].
  apply negb_true_iff in Hclose.
  repeat split; auto. intros x y.
  destruct (dot_3x3 m x y Hshape) as (v0 & v1 & w & Hdot).
  unfold transform. cbn [enabled matrix negb].
  unfold transform_try. cbn [obind]. rewrite Hdot. cbn [obind nth_error].
  destruct (Qltb (Qabs w) (1 # 10000000000)); eexists; split; reflexivity.
Qed.

Lemma constructed_never_raises_witness :
  let m := [[2; 0; 1]; [0; 2; 3]; [0; 0; 1]] in
  let h := mk (Some m) true in
  enabled h = true /\ matrix h = Some m
  /\ shape_is_3x3 m = true /\ allclose_zero m = false
  /\ forall x y,
       exists p, transform_try (matrix h) x y = Some p
                 /\ transform h x y = p.
Proof.
  intros m h. apply constructed_never_raises. reflexivity.
Defined.

Lemma split_pieces (sep : ascii) (s : String.string) :
  List.length (split sep s) = S (occurrences sep s).
Proof.
  induction s as [|c s IH]; cbn; [reflexivity|].
  destruct (Ascii.eqb c sep).
  - cbn. rewrite IH. reflexivity.
  - destruct (split sep s) as [|piece pieces]; [discriminate IH|].
    cbn in *. exact IH.
Qed.

Lemma map_raise_length {A B : Type} (f : A -> option B) (xs : list A)
      (ys : list B) :
  map_raise f xs = Some ys -> List.length ys = List.length xs.
Proof.
  revert ys. induction xs as [|x xs IH]; intros ys H; cbn in H.
  - injection H as <-. reflexivity.
  - obind_inv H as b Eb. obind_inv H as bs Ebs. injection H as <-.
    cbn. rewrite (IH bs eq_refl). reflexivity.
Qed.

Section WithFloat.

Variable py_float : String.string -> option Q.

(** Whatever [float] accepts, a string whose number of commas is not 8
    gives a disabled transform. *)
Theorem from_string_needs_eight_commas (s : String.string) :
  occurrences ","%char s <> 8%nat ->
  from_string py_float s = mk None false.
Proof.
  intros Hcommas. unfold from_string, from_string_try.
  destruct (map_raise py_float (split ","%char s)) as [values|] eqn:Ev;
    cbn [obind]; [|reflexivity].
  apply map_raise_length in Ev. rewrite split_pieces in Ev.
  replace (Nat.eqb (List.length values) 9) with false; [reflexivity|].
  symmetry. apply Nat.eqb_neq. lia.
Qed.

End WithFloat.

End CalibrationFacts.

Module CalibrationExamples.

Import String HomographyTransform.

Lemma from_string_needs_eight_commas_witness :
  from_string decimal_float "1,2,3"%string = mk None false.
Proof.
  apply CalibrationFacts.from_string_needs_eight_commas.
  vm_compute. discriminate.
Defined.

End CalibrationExamples.

Module GridFacts.

Import XThreatGrid.

Local Open Scope Q_scope.

Lemma item_In {A : Type} (l : list A) (i : Z) (a : A) :
  item l i = Some a -> In a l.
Proof.
  unfold item. destruct (Z.ltb i 0).
  - destruct (Z.ltb _ 0); [discriminate|]. apply nth_error_In.
  - apply nth_error_In.
Qed.

Lemma grid_entries_bounded (fl fw : Q) :
  forallb (forallb (fun v => Qle_bool 0 v && Qle_bool v (3 # 4)))
          (grid (init fl fw)) = true.
Proof. vm_compute. reflexivity. Qed.

(** Whatever the pitch dimensions and the position, [get_value] returns
    a value between 0 and 0.75. *)
Theorem get_value_range (fl fw x y : Q) :
  0 <= get_value (init fl fw) x y <= 3 # 4.
Proof.
  unfold get_value.
  destruct (get_value_try (init fl fw) x y) as [v|] eqn:E;
    [|split; discriminate].
  unfold get_value_try in E.
  obind_inv E as col Ec. obind_inv E as row Er. obind_inv E as r Erow.
  apply item_In in Erow, E.
  pose proof (grid_entries_bounded fl fw) as Hall.
  rewrite forallb_forall in Hall. specialize (Hall r Erow).
  rewrite forallb_forall in Hall. specialize (Hall v E).
  apply andb_true_iff in Hall. destruct Hall as [Hlo Hhi].
  apply Qle_bool_iff in Hlo, Hhi. split; assumption.
Qed.

Lemma clip_low (q last : Q) : 0 <= last -> q <= 0 -> clip q 0 last == 0.
Proof.
  intros Hlast Hq. unfold clip.
  rewrite (Q.max_r q 0 Hq). apply Q.min_l. exact Hlast.
Qed.

Lemma clip_high (q last : Q) : 0 <= last -> last <= q -> clip q 0 last == last.
Proof.
  intros Hlast Hq. unfold clip.
  assert (H0 : 0 <= q) by (eapply Qle_trans; eauto).
  rewrite (Q.max_l q 0 H0). apply Q.min_r. exact Hq.
Qed.

(** Positions off the pitch along x are read at its ends: on a pitch of
    positive length, [get_value] at x <= 0 is its value at x = 0, and at
    x >= field_length its value at x = field_length. *)
Theorem get_value_clamped (fl fw x y : Q) :
  0 < fl ->
  (x <= 0 -> get_value (init fl fw) x y = get_value (init fl fw) 0 y)
  /\ (fl <= x -> get_value (init fl fw) x y = get_value (init fl fw) fl y).
Proof.
  intros Hfl.
  assert (Hsize : 0 < fl / 12)
    by (apply Qlt_shift_div_l; [reflexivity|rewrite Qmult_0_l; exact Hfl]).
  assert (Hcol : forall a b,
             clip (a / (fl / 12)) 0 11 == clip (b / (fl / 12)) 0 11 ->
             get_value (init fl fw) a y = get_value (init fl fw) b y).
  { intros a b Heq. unfold get_value, get_value_try.
    change (field_length (init fl fw)) with fl.
    rewrite !(XThreatFacts.cell_index_value _ fl 12 11)
      by (try discriminate; intros H; discriminate H).
    destruct (Qeq_bool (fl / 12) 0); [reflexivity|].
    cbn [obind]. rewrite (Qfloor_comp _ _ Heq). reflexivity. }
  assert (Hinv : 0 <= / (fl / 12))
    by (apply Qlt_le_weak, Qinv_lt_0_compat; exact Hsize).
  split; intros Hx; apply Hcol.
  - assert (H0 : 0 / (fl / 12) <= 0)
      by (unfold Qdiv; rewrite Qmult_0_l; apply Qle_refl).
    assert (H1 : x / (fl / 12) <= 0).
    { unfold Qdiv. rewrite <- (Qmult_0_l (/ (fl / 12))).
      apply Qmult_le_compat_r; assumption. }
    rewrite (clip_low _ 11 ltac:(discriminate) H0).
    rewrite (clip_low _ 11 ltac:(discriminate) H1). reflexivity.
  - assert (H0 : 11 <= fl / (fl / 12))
      by (apply Qle_shift_div_l;
          [exact Hsize|change (fl / 12) with (fl * (1 # 12)); Lqa.lra]).
    assert (H1 : 11 <= x / (fl / 12))
      by (apply Qle_shift_div_l;
          [exact Hsize|change (fl / 12) with (fl * (1 # 12)); Lqa.lra]).
    rewrite (clip_high _ 11 ltac:(discriminate) H0).
    rewrite (clip_high _ 11 ltac:(discriminate) H1). reflexivity.
Qed.

Lemma get_value_clamped_witness :
  get_value (init 105 68) 120 30 = get_value (init 105 68) 105 30.
Proof.
  apply (proj2 (get_value_clamped 105 68 120 30 ltac:(reflexivity))).
  vm_compute. discriminate.
Defined.

End GridFacts.
